(** * Selector resolution and the import graph of Go-Tools-zh

    A shallow embedding of

    - [refactor/importgraph/graph.go]: the import dependency graph
      ([Graph], [addEdge], [Search], the event loop of [Build]);
    - the field and method lookup of package [types]
      ([LookupFieldOrMethod], [consolidateMultiples], [MissingMethod],
      [deref], [concat], [fieldIndex], [lookupMethod]).

    Go maps are finite maps ([gmap]), Go slices are lists, pointers to named
    types are handles into a store of declarations. *)

From stdpp Require Import base option list gmap sets strings relations.
From Stdlib Require Import Lia.

Local Open Scope string_scope.
Local Open Scope nat_scope.
Local Open Scope list_scope.

(** ** Package importgraph *)

Module Importgraph.

(** [type Graph map[string]map[string]bool] *)
Abbreviation Graph := (gmap string (gmap string bool)).

(** [func (g Graph) addEdge(from, to string)]: a missing entry of [g] is
    the nil map, which [addEdge] replaces by a fresh map before the write;
    the inner map is shared with [g], so the write is seen through [g]. *)
Definition addEdge (g : Graph) (from to : string) : Graph :=
  match g !! from with
  | None => <[from := <[to := true]> ∅]> g
  | Some edges => <[from := <[to := true]> edges]> g
  end.

(** [g[x]] for a possibly missing key: the nil map has no keys. *)
Definition successors (g : Graph) (x : string) : gmap string bool :=
  default ∅ (g !! x).

(** [seen[x]] for a possibly missing key: the zero value [false]. *)
Definition isSeen (seen : gmap string bool) (x : string) : bool :=
  default false (seen !! x).

(** The edge relation of a graph: [y] is a key of [g[x]]. *)
Definition edge (g : Graph) (x y : string) : Prop :=
  ∃ edges, g !! x = Some edges ∧ is_Some (edges !! y).

Section Search.

(** Go leaves the order in which [range] enumerates a map unspecified.
    [rangeKeys m] is the sequence of keys one [range] over [m] yields;
    the theorems assume no more than that it enumerates the keys of [m]. *)
Variable rangeKeys : gmap string bool → list string.

(** [for y := range ys { visit(y) }], threading [seen]. *)
Fixpoint visitEach (visit : string → gmap string bool → option (gmap string bool))
    (ys : list string) (seen : gmap string bool) : option (gmap string bool) :=
  match ys with
  | [] => Some seen
  | y :: ys' =>
      match visit y seen with
      | Some seen' => visitEach visit ys' seen'
      | None => None
      end
  end.

(** The closure [visit] of [Search]; [fuel] bounds the depth of the
    recursion, and [None] means the bound was hit. *)
Fixpoint visit (fuel : nat) (g : Graph) (x : string) (seen : gmap string bool)
    : option (gmap string bool) :=
  match fuel with
  | O => None
  | S fuel' =>
      if isSeen seen x then Some seen
      else visitEach (visit fuel' g) (rangeKeys (successors g x)) (<[x := true]> seen)
  end.

(** [func (g Graph) Search(roots ...string) map[string]bool] with an
    explicit recursion bound. *)
Definition SearchFuel (fuel : nat) (g : Graph) (roots : list string)
    : option (gmap string bool) :=
  visitEach (visit fuel g) roots ∅.

(** [Search]: only a node with an entry in [g] makes [visit] recurse,
    and each does so once, so the recursion never nests deeper than the
    number of entries of [g] plus one (lemma [visit_enough_fuel]). *)
Definition Search (g : Graph) (roots : list string) : option (gmap string bool) :=
  SearchFuel (S (size g)) g roots.

End Search.

(** The events received on the channel [ch] of [Build]. *)
Inductive event : Type :=
  | pathError (path : string) (err : string)
  | importEdge (from to : string).

(** The accumulators of [Build]; [errors] stays nil until the first
    [pathError]. *)
Record buildState : Type := mkBuildState {
  forward : Graph;
  reverse : Graph;
  errors : option (gmap string string)
}.

(** One iteration of [for e := range ch]. *)
Definition consume (st : buildState) (e : event) : buildState :=
  match e with
  | pathError path err =>
      let errs := match errors st with None => ∅ | Some errs => errs end in
      mkBuildState (forward st) (reverse st) (Some (<[path := err]> errs))
  | importEdge from to =>
      if bool_decide (to = "C") then st
      else mkBuildState (addEdge (forward st) from to)
                        (addEdge (reverse st) to from)
                        (errors st)
  end.

(** The consumer of [Build] run on the sequence of events the channel
    delivers, starting from two empty graphs and a nil error map. *)
Definition Build (events : list event) : buildState :=
  foldl consume (mkBuildState ∅ ∅ None) events.

(** What [ctxt.Import] returns for one package. *)
Inductive importResult : Type :=
  | NoGoError
  | ImportFailed (err : string)
  | Imported (Imports TestImports XTestImports : list string).

(** What one producer goroutine of [Build] sends on the channel for the
    package [path], found with the error [err] if any. *)
Definition packageEvents (path : string) (err : option string) (bp : importResult)
    : list event :=
  match err with
  | Some err => [pathError path err]
  | None =>
      match bp with
      | NoGoError => []
      | ImportFailed err => [pathError path err]
      | Imported imports testImports xtestImports =>
          (importEdge path <$> imports) ++ (importEdge path <$> testImports)
            ++ (importEdge path <$> xtestImports)
      end
  end.

End Importgraph.

(** ** Package types: field and method lookup *)

Module Types.

(** A failed [assert] panics; [Exhausted] is the bound on a loop of the
    model running out, which the facts about [LookupFieldOrMethod]
    exclude. *)
Inductive result (A : Type) : Type :=
  | Ok (a : A)
  | Panic
  | Exhausted.
Arguments Ok {A} a.
Arguments Panic {A}.
Arguments Exhausted {A}.

(** What a loop body does next: go on with the loop (the end of the body or
    a [continue]), make the enclosing function return, or panic. *)
Inductive flow (S R : Type) : Type :=
  | Continue (s : S)
  | Return (r : R)
  | Panicked.
Arguments Continue {S R} s.
Arguments Return {S R} r.
Arguments Panicked {S R}.

(** [*Package]: only [path] is read. *)
Record Package : Type := mkPackage { path : string }.

(** A [*Named] is a handle: two occurrences of a named type are the same
    type exactly when the handles are equal. *)
Abbreviation NamedId := positive.

(** Modelled from the spec: the declarations of the type model are not
    part of the lookup file. A [Func] carries a signature with an optional
    receiver; a [Field] has a name, a declaring package, a type and the
    [anonymous] flag; [Basic] stands for every type the lookup does not
    look into. *)
Inductive Type_ : Type :=
  | Basic (kind : string)
  | Pointer (base : Type_)
  | Struct (fields : list Field)
  | Interface (imethods : list Func)
  | Sig (sig : Signature)
  | NamedT (t : NamedId)
with Field : Type :=
  | mkField (name : string) (pkg : Package) (typ : Type_) (anonymous : bool)
with Func : Type :=
  | mkFunc (name : string) (pkg : Package) (typ : Signature)
with Signature : Type :=
  | mkSignature (recv : option Var) (params results : list Type_)
with Var : Type :=
  | mkVar (name : string) (typ : Type_).

Definition f_name (f : Field) : string := let 'mkField n _ _ _ := f in n.
Definition f_pkg (f : Field) : Package := let 'mkField _ p _ _ := f in p.
Definition f_typ (f : Field) : Type_ := let 'mkField _ _ t _ := f in t.
Definition f_anonymous (f : Field) : bool := let 'mkField _ _ _ a := f in a.
Definition m_name (m : Func) : string := let 'mkFunc n _ _ := m in n.
Definition m_pkg (m : Func) : Package := let 'mkFunc _ p _ := m in p.
Definition m_typ (m : Func) : Signature := let 'mkFunc _ _ t := m in t.
Definition recv (s : Signature) : option Var := let 'mkSignature r _ _ := s in r.
Definition var_typ (v : Var) : Type_ := let 'mkVar _ t := v in t.

(** The declaration a [*Named] points to. *)
Record Named : Type := mkNamed {
  methods : list Func;
  underlying : Type_
}.

(** The heap of named types. *)
Abbreviation Store := (gmap NamedId Named).

(** Dereferencing a [*Named]. Go has no dangling pointers; a handle the
    store does not know reads as a type without methods whose underlying
    type is not a struct or an interface. *)
Definition named (store : Store) (t : NamedId) : Named :=
  default (mkNamed [] (Basic "invalid")) (store !! t).

(** [Object] is implemented by [*Field] and [*Func]. *)
Inductive Object : Type :=
  | FieldObj (f : Field)
  | FuncObj (m : Func).

(** [obj.Type()] *)
Definition Object_Type (o : Object) : Type_ :=
  match o with
  | FieldObj f => f_typ f
  | FuncObj m => Sig (m_typ m)
  end.

Definition Object_name (o : Object) : string :=
  match o with
  | FieldObj f => f_name f
  | FuncObj m => m_name m
  end.

Definition Object_pkg (o : Object) : Package :=
  match o with
  | FieldObj f => f_pkg f
  | FuncObj m => m_pkg m
  end.

(** [type embeddedType struct] *)
Record embeddedType : Type := mkEmbedded {
  e_typ : option NamedId;   (* nil means use the outer typ variable instead *)
  e_index : list nat;
  e_indirect : bool;
  e_multiples : bool
}.

(** The results [(obj, index, indirect)] of [LookupFieldOrMethod]; a nil
    [obj] or [index] is [None]. *)
Definition LookupResult : Type := option Object * option (list nat) * bool.

(** [func deref(typ Type) (Type, bool)] *)
Definition deref (typ : Type_) : Type_ * bool :=
  match typ with
  | Pointer base => (base, true)
  | _ => (typ, false)
  end.

(** [func concat(list []int, i int) []int] *)
Definition concat (l : list nat) (i : nat) : list nat := l ++ [i].

(** [list[i].multiples = true] *)
Definition setMultiples (e : embeddedType) : embeddedType :=
  mkEmbedded (e_typ e) (e_index e) (e_indirect e) true.

(** The loop of [consolidateMultiples], in place: [arr] is the array [list],
    [k] the position [range] has reached, [n] the number of entries with a
    unique type and [prev] the index at which a type was previously seen. *)
Fixpoint consolidateLoop (todo k : nat) (arr : list embeddedType) (n : nat)
    (prev : gmap (option NamedId) nat) : list embeddedType :=
  match todo with
  | O => take n arr   (* return list[:n] *)
  | S todo' =>
      match arr !! k with
      | None => take n arr
      | Some e =>
          match prev !! e_typ e with
          | Some i => consolidateLoop todo' (S k) (alter setMultiples i arr) n prev
          | None =>
              consolidateLoop todo' (S k) (<[n := e]> arr) (S n) (<[e_typ e := n]> prev)
          end
      end
  end.

(** [func consolidateMultiples(list []embeddedType) []embeddedType] *)
Definition consolidateMultiples (arr : list embeddedType) : list embeddedType :=
  if bool_decide (length arr ≤ 1) then arr
  else consolidateLoop (length arr) 0 arr 0 ∅.

(** The variables of [LookupFieldOrMethod] that the loops update. *)
Record locals : Type := mkLocals {
  v_obj : option Object;
  v_index : option (list nat);
  v_indirect : bool;
  v_typ : Type_;
  v_seen : gset NamedId;
  v_next : list embeddedType
}.

Section Lookup.

(** [ast.IsExported] of the Go standard library, a parameter: whether the
    name starts with an upper-case letter. *)
Variable IsExported : string → bool.

(** The rule of the language specification quoted in [fieldIndex] and
    [lookupMethod]: same spelling, and exported or of the same package. *)
Definition sameIdent (declName : string) (declPkg : Package)
    (pkg : Package) (name : string) : bool :=
  bool_decide (declName = name)
    && (IsExported name || bool_decide (path declPkg = path pkg)).

(** Modelled from the spec: [Field.isMatch] is declared with the objects,
    outside the lookup file; a field matches by "identical spelling AND
    (exported OR same declaring package)". *)
Definition isMatch (f : Field) (pkg : Package) (name : string) : bool :=
  bool_decide (f_name f = name)
    && (IsExported name || bool_decide (path pkg = path (f_pkg f))).

(** The loop of [fieldIndex] from position [i] on. *)
Fixpoint fieldIndexFrom (i : nat) (fields : list Field) (pkg : Package)
    (name : string) : option nat :=
  match fields with
  | [] => None
  | f :: fields' =>
      if bool_decide (f_name f = name)
         && (IsExported name || bool_decide (path (f_pkg f) = path pkg))
      then Some i
      else fieldIndexFrom (S i) fields' pkg name
  end.

(** [func fieldIndex(fields []*Field, pkg *Package, name string) int];
    a negative result is [None]. *)
Definition fieldIndex (fields : list Field) (pkg : Package) (name : string)
    : option nat :=
  if bool_decide (name = "_") then None
  else fieldIndexFrom 0 fields pkg name.

(** The loop of [lookupMethod] from position [i] on. *)
Fixpoint lookupMethodFrom (i : nat) (ms : list Func) (pkg : Package)
    (name : string) : option (nat * Func) :=
  match ms with
  | [] => None
  | m :: ms' =>
      if bool_decide (m_name m = name)
         && (IsExported name || bool_decide (path (m_pkg m) = path pkg))
      then Some (i, m)
      else lookupMethodFrom (S i) ms' pkg name
  end.

(** [func lookupMethod(methods []*Func, pkg *Package, name string) (int, *Func)];
    the result [(-1, nil)] is [None]. *)
Definition lookupMethod (ms : list Func) (pkg : Package) (name : string)
    : result (option (nat * Func)) :=
  if bool_decide (name = "_") then Panic   (* assert(name != "_") *)
  else Ok (lookupMethodFrom 0 ms pkg name).

Section Scan.

Variable store : Store.
Variable pkg : Package.
Variable name : string.

(** The three places that record a potential match: set [index], then
    either return the collision or set [obj] and [indirect]. *)
Definition potentialMatch (e : embeddedType) (i : nat) (o : Object)
    (v : locals) : flow locals LookupResult :=
  let index := Some (concat (e_index e) i) in
  if bool_decide (is_Some (v_obj v)) || e_multiples e
  then Return (None, index, v_indirect v)
  else Continue (mkLocals (Some o) index (e_indirect e)
                   (v_typ v) (v_seen v) (v_next v)).

(** [next = append(next, embeddedType{...})] for an embedded field
    whose dereferenced type is named. *)
Definition collectEmbedded (e : embeddedType) (i : nat) (f : Field)
    (v : locals) : locals :=
  if bool_decide (v_obj v = None) && f_anonymous f then
    let '(typ, isPtr) := deref (f_typ f) in
    match typ with
    | NamedT t =>
        mkLocals (v_obj v) (v_index v) (v_indirect v) (v_typ v) (v_seen v)
          (v_next v ++ [mkEmbedded (Some t) (concat (e_index e) i)
                                   (e_indirect e || isPtr) (e_multiples e)])
    | _ => v
    end
  else v.

(** [for i, f := range t.fields] of the [*Struct] case, from field [i]. *)
Fixpoint scanFields (e : embeddedType) (i : nat) (fields : list Field)
    (v : locals) : flow locals LookupResult :=
  match fields with
  | [] => Continue v
  | f :: fields' =>
      if isMatch f pkg name then
        match potentialMatch e i (FieldObj f) v with
        | Continue v' => scanFields e (S i) fields' v'
        | r => r
        end
      else scanFields e (S i) fields' (collectEmbedded e i f v)
  end.

(** [switch t := typ.(type)] *)
Definition scanUnderlying (e : embeddedType) (v : locals)
    : flow locals LookupResult :=
  match v_typ v with
  | Struct fields => scanFields e 0 fields v
  | Interface ms =>
      match lookupMethod ms pkg name with
      | Ok (Some (i, m)) => potentialMatch e i (FuncObj m) v
      | Ok None => Continue v
      | _ => Panicked
      end
  | _ => Continue v
  end.

(** The body of [for _, e := range current]. *)
Definition scanEntry (e : embeddedType) (v : locals)
    : flow locals LookupResult :=
  match e_typ e with
  | Some t =>
      if bool_decide (t ∈ v_seen v) then Continue v
      else
        let v1 := mkLocals (v_obj v) (v_index v) (v_indirect v) (v_typ v)
                    ({[t]} ∪ v_seen v) (v_next v) in
        match lookupMethod (methods (named store t)) pkg name with
        | Ok (Some (i, m)) => potentialMatch e i (FuncObj m) v1
        | Ok None =>
            scanUnderlying e
              (mkLocals (v_obj v1) (v_index v1) (v_indirect v1)
                 (underlying (named store t)) (v_seen v1) (v_next v1))
        | _ => Panicked
        end
  | None => scanUnderlying e v
  end.

(** [for _, e := range current] *)
Fixpoint scanCurrent (current : list embeddedType) (v : locals)
    : flow locals LookupResult :=
  match current with
  | [] => Continue v
  | e :: current' =>
      match scanEntry e v with
      | Continue v' => scanCurrent current' v'
      | r => r
      end
  end.

(** [var next []embeddedType] at the top of the outer loop body. *)
Definition resetNext (v : locals) : locals :=
  mkLocals (v_obj v) (v_index v) (v_indirect v) (v_typ v) (v_seen v) [].

(** [for len(current) > 0] and the statements after it; [fuel] bounds
    the number of iterations. *)
Fixpoint searchDepths (fuel : nat) (current : list embeddedType) (v : locals)
    : result LookupResult :=
  match current with
  | [] => Ok (v_obj v, None, false)   (* index = nil; indirect = false *)
  | _ =>
      match fuel with
      | O => Exhausted
      | S fuel' =>
          match scanCurrent current (resetNext v) with
          | Continue v' =>
              match v_obj v' with
              | Some _ => Ok (v_obj v', v_index v', v_indirect v')
              | None => searchDepths fuel' (consolidateMultiples (v_next v')) v'
              end
          | Return r => Ok r
          | Panicked => Panic
          end
      end
  end.

End Scan.

(** The type assertion of [typ] to a pointer to [Named] *)
Definition asNamed (typ : Type_) : option NamedId :=
  match typ with
  | NamedT t => Some t
  | _ => None
  end.

(** The frontier and the variables before the first iteration. *)
Definition startEntry (typ : Type_) : embeddedType :=
  let '(typ, isPtr) := deref typ in
  mkEmbedded (asNamed typ) [] isPtr false.

Definition startLocals (typ : Type_) : locals :=
  mkLocals None None false (fst (deref typ)) ∅ [].

(** [LookupFieldOrMethod] with an explicit bound on the outer loop. *)
Definition LookupFieldOrMethodFuel (fuel : nat) (store : Store) (typ : Type_)
    (pkg : Package) (name : string) : result LookupResult :=
  if bool_decide (name = "_") then Ok (None, None, false)
  else searchDepths store pkg name fuel [startEntry typ] (startLocals typ).

(** [func LookupFieldOrMethod(typ Type, pkg *Package, name string)
    (obj Object, index []int, indirect bool)]: every iteration but the
    first and the last marks a new named type of the store as seen, so
    the size of the store plus two bounds the loop. *)
Definition LookupFieldOrMethod (store : Store) (typ : Type_)
    (pkg : Package) (name : string) : result LookupResult :=
  LookupFieldOrMethodFuel (size store + 2) store typ pkg name.

(** [IsIdentical] is declared with the predicates, outside the lookup
    file, and is a parameter: the specification calls it structural
    identity of two types. *)
Variable IsIdentical : Type_ → Type_ → bool.

(** Modelled from the spec: [Type.Underlying] of a named type is its
    underlying type, of any other type the type itself. *)
Definition Underlying (store : Store) (typ : Type_) : Type_ :=
  match typ with
  | NamedT t => underlying (named store t)
  | _ => typ
  end.

(** Modelled from the spec: [Interface.IsEmpty] holds when the interface
    has no required methods. *)
Definition IsEmpty (T : list Func) : bool :=
  match T with
  | [] => true
  | _ => false
  end.

(** The first loop of [MissingMethod]: [typ] is an interface with method
    set [ityp]. *)
Fixpoint missingInterface (ityp : list Func) (T : list Func)
    : result (option Func * bool) :=
  match T with
  | [] => Ok (None, false)
  | m :: T' =>
      match lookupMethod ityp (m_pkg m) (m_name m) with
      | Ok None => Ok (Some m, false)
      | Ok (Some (_, obj)) =>
          if negb (IsIdentical (Object_Type (FuncObj obj)) (Sig (m_typ m)))
          then Ok (Some m, true)
          else missingInterface ityp T'
      | Panic => Panic
      | Exhausted => Exhausted
      end
  end.

(** The receiver test on the signature of [f]: [recv != nil] and then
    [isPtr && !indirect] inside. *)
Definition notInMethodSet (f : Func) (indirect : bool) : bool :=
  match recv (m_typ f) with
  | Some v => snd (deref (var_typ v)) && negb indirect
  | None => false
  end.

(** The second loop of [MissingMethod]: [typ] is a concrete type. *)
Fixpoint missingConcrete (store : Store) (typ : Type_) (T : list Func)
    : result (option Func * bool) :=
  match T with
  | [] => Ok (None, false)
  | m :: T' =>
      match LookupFieldOrMethod store typ (m_pkg m) (m_name m) with
      | Ok (None, _, _) => Ok (Some m, false)
      | Ok (Some (FieldObj _), _, _) => Ok (Some m, false)
      | Ok (Some (FuncObj f), _, indirect) =>
          if notInMethodSet f indirect then Ok (Some m, false)
          else if negb (IsIdentical (Object_Type (FuncObj f)) (Sig (m_typ m)))
          then Ok (Some m, true)
          else missingConcrete store typ T'
      | Panic => Panic
      | Exhausted => Exhausted
      end
  end.

(** [func MissingMethod(typ Type, T *Interface) (method *Func, wrongType bool)];
    [T] is given by [T.methods]. *)
Definition MissingMethod (store : Store) (typ : Type_) (T : list Func)
    : result (option Func * bool) :=
  if IsEmpty T then Ok (None, false)
  else
    match Underlying store typ with
    | Interface ityp => missingInterface ityp T
    | _ => missingConcrete store typ T
    end.

End Lookup.

End Types.

(** ** The vocabulary of the statements about the import graph *)

Module ImportgraphSpec.
Import Importgraph.

(** [x] is marked in [seen]. *)
Definition marked (seen : gmap string bool) (x : string) : Prop :=
  isSeen seen x = true.

(** Only [true] is ever stored in [seen]. *)
Definition allTrue (seen : gmap string bool) : Prop :=
  ∀ x b, seen !! x = Some b → b = true.

Section Visited.

Variable g : Graph.

(** What one call [visit x] that returns [s] from [seen] has done. *)
Record visited (x : string) (seen s : gmap string bool) : Prop := {
  visited_mono : ∀ z, marked seen z → marked s z;
  visited_self : marked s x;
  visited_closed : ∀ z y, marked s z → ¬ marked seen z → edge g z y → marked s y;
  visited_sound : ∀ z, marked s z → marked seen z ∨ rtc (edge g) x z;
  visited_true : allTrue seen → allTrue s
}.

(** The same for a loop over several nodes. *)
Record visitedAll (ys : list string) (seen s : gmap string bool) : Prop := {
  all_mono : ∀ z, marked seen z → marked s z;
  all_self : ∀ y, y ∈ ys → marked s y;
  all_closed : ∀ z y, marked s z → ¬ marked seen z → edge g z y → marked s y;
  all_sound : ∀ z, marked s z → marked seen z ∨ ∃ y, y ∈ ys ∧ rtc (edge g) y z;
  all_true : allTrue seen → allTrue s
}.

End Visited.

(** One order in which [range] may enumerate a map. *)
Definition keysInOrder (m : gmap string bool) : list string :=
  (map_to_list m).*1.

(** [x] imports [y] according to the events received: an edge that the
    loop does not skip. *)
Definition imports (events : list event) (x y : string) : Prop :=
  importEdge x y ∈ events ∧ y ≠ "C".

(** No map stored in the forward graph has the key ["C"], and the reverse
    graph has no key ["C"]. *)
Definition noC (st : buildState) : Prop :=
  (∀ from edges, forward st !! from = Some edges → edges !! "C" = None)
  ∧ reverse st !! "C" = None.

(** The workspace of the specification: [a] imports [b] (and cgo), [b]
    imports [c], [c] imports nothing. *)
Definition workspace_abc : list event :=
  packageEvents "a" None (Imported ["b"; "C"] [] [])
  ++ packageEvents "b" None (Imported ["c"] [] ["C"])
  ++ packageEvents "c" None (Imported [] [] []).

(** Every node with an entry has a successor, and only [true] is stored. *)
Definition wellFormed (g : Graph) : Prop :=
  ∀ x edges, g !! x = Some edges →
    edges ≠ ∅ ∧ ∀ y b, edges !! y = Some b → b = true.

(** The packages of a workspace as [Build] meets them: the path, the error
    [ForEachPackage] reports for it if any, and what [ctxt.Import] returns. *)
Definition workspace : Type := list (string * option string * importResult).

(** The channel delivers the events of the producers of a workspace, in
    some interleaving. *)
Definition delivers (pkgs : workspace) (events : list event) : Prop :=
  ∀ e, e ∈ events ↔
    ∃ path err bp, (path, err, bp) ∈ pkgs ∧ e ∈ packageEvents path err bp.

(** The package at [path] loads and lists [y] among its imports, its test
    imports or its external test imports. *)
Definition lists (pkgs : workspace) (path y : string) : Prop :=
  ∃ imports testImports xtestImports,
    (path, None, Imported imports testImports xtestImports) ∈ pkgs
    ∧ (y ∈ imports ∨ y ∈ testImports ∨ y ∈ xtestImports).

(** The package at [path] fails to load with the error [err]. *)
Definition fails (pkgs : workspace) (path err : string) : Prop :=
  (∃ bp, (path, Some err, bp) ∈ pkgs) ∨ (path, None, ImportFailed err) ∈ pkgs.

(** [range] in the opposite order. *)
Definition keysInReverse (m : gmap string bool) : list string :=
  list.reverse ((map_to_list m).*1).

(** The events of a workspace when each producer sends all its events
    before the next one starts. *)
Definition workspaceEvents (pkgs : workspace) : list event :=
  pkgs ≫= λ '(path, err, bp), packageEvents path err bp.

(** The workspace above with three more directories: one without Go
    files, one that cannot be read and one that does not parse. *)
Definition workspace_abcdef : workspace :=
  [("a", None, Imported ["b"; "C"] [] []);
   ("b", None, Imported ["c"] [] ["C"]);
   ("c", None, Imported [] [] []);
   ("d", None, NoGoError);
   ("e", Some "permission denied", NoGoError);
   ("f", None, ImportFailed "syntax error")].

End ImportgraphSpec.

(** ** The vocabulary of the statements about field and method lookup *)

Module TypesSpec.
Import Types.

(** A result that reports an ambiguous selector: no object, but an index. *)
Definition collision (r : LookupResult) : Prop :=
  ∃ idx ind, r = (None, Some idx, ind).

(** An entry of the next depth collected while scanning entry [e]. *)
Definition childOf (e c : embeddedType) : Prop :=
  is_Some (e_typ c)
  ∧ length (e_index c) = S (length (e_index e))
  ∧ e_multiples c = e_multiples e.

(** Entry [e] of the consolidated list stands for entry [e0] of the list
    collected: the same type, index and indirection, and [multiples] set if
    it was set. *)
Definition consolidates (e0 e : embeddedType) : Prop :=
  e_typ e = e_typ e0 ∧ e_index e = e_index e0 ∧ e_indirect e = e_indirect e0
  ∧ (e_multiples e0 = true → e_multiples e = true).

(** The state of the loop of [consolidateMultiples] on the list [l0] when
    [range] has reached position [k]. *)
Record consolidating (l0 arr : list embeddedType) (k n : nat)
      (prev : gmap (option NamedId) nat) : Prop := {
    c_length : length arr = length l0;
    c_n : n ≤ k;
    c_rest : ∀ j, k ≤ j → arr !! j = l0 !! j;
    c_prev : ∀ t i, prev !! t = Some i ↔ i < n ∧ ∃ e, arr !! i = Some e ∧ e_typ e = t;
    c_from : ∀ i e, i < n → arr !! i = Some e →
      ∃ j e0, j < k ∧ l0 !! j = Some e0 ∧ consolidates e0 e;
    c_cover : ∀ j e0, j < k → l0 !! j = Some e0 →
      ∃ i e, i < n ∧ arr !! i = Some e ∧ e_typ e = e_typ e0;
    c_flag : ∀ i j a b, i < j → j < k → l0 !! i = Some a → l0 !! j = Some b →
      e_typ a = e_typ b →
      ∃ p e, p < n ∧ arr !! p = Some e ∧ e_typ e = e_typ a ∧ e_multiples e = true
}.

(** What [consolidateMultiples] returns for the list [l0]. *)
Record consolidated (l0 out : list embeddedType) : Prop := {
    out_NoDup : NoDup (e_typ <$> out);
    out_from : ∀ e, e ∈ out → ∃ e0, e0 ∈ l0 ∧ consolidates e0 e;
    out_cover : ∀ e0, e0 ∈ l0 → ∃ e, e ∈ out ∧ e_typ e = e_typ e0;
    out_flag : ∀ i j a b, i ≠ j → l0 !! i = Some a → l0 !! j = Some b →
      e_typ a = e_typ b →
      ∃ e, e ∈ out ∧ e_typ e = e_typ a ∧ e_multiples e = true
}.

(** The named type of entry [e] was met at an earlier entry. *)
Definition skipped (e : embeddedType) (v : locals) : Prop :=
  ∃ t, e_typ e = Some t ∧ t ∈ v_seen v.

(** [seen] after entry [e]. *)
Definition seenAfter (e : embeddedType) (seen : gset NamedId) : gset NamedId :=
  match e_typ e with
  | Some t => {[t]} ∪ seen
  | None => seen
  end.

(** The named types of a frontier. *)
Definition namedOf (current : list embeddedType) : gset NamedId :=
  list_to_set (omap e_typ current).

(** Every entry of a frontier below depth 0 is a named type. *)
Definition allNamed (current : list embeddedType) : Prop :=
  Forall (λ e, is_Some (e_typ e)) current.

(** How one required method fares, in the words of the specification. *)
Inductive verdict : Type :=
  | Satisfied
  | Missing
  | WrongType.

(** The first required method that is not satisfied, with the flag that
    tells a wrong type from a missing method; no method and [false] when
    all are satisfied. *)
Fixpoint firstOffending (verdictOf : Func → result verdict) (T : list Func)
    : result (option Func * bool) :=
  match T with
  | [] => Ok (None, false)
  | m :: T' =>
      match verdictOf m with
      | Ok Satisfied => firstOffending verdictOf T'
      | Ok Missing => Ok (Some m, false)
      | Ok WrongType => Ok (Some m, true)
      | Panic => Panic
      | Exhausted => Exhausted
      end
  end.

Section SearchSpec.

Variable IsExported : string → bool.
Variable store : Store.
Variable pkg : Package.
Variable name : string.
Variable typ : Type_.

(** The selector denotes the object. *)
Definition denotes (o : Object) : Prop :=
  Object_name o = name ∧ (IsExported name = true ∨ path (Object_pkg o) = path pkg).

(** A struct has a field the selector matches. *)
Definition fieldsDeclare (fields : list Field) : bool :=
  existsb (λ f, isMatch IsExported f pkg name) fields.

(** A struct or an interface has a member the selector matches. *)
Definition underlyingDeclares (typ : Type_) : bool :=
  match typ with
  | Struct fields => fieldsDeclare fields
  | Interface ms => bool_decide (is_Some (lookupMethodFrom IsExported 0 ms pkg name))
  | _ => false
  end.

(** A named type has a member the selector matches: a declared method, a
    field of its struct or a method of its interface. *)
Definition declares (t : NamedId) : bool :=
  bool_decide (is_Some (lookupMethodFrom IsExported 0 (methods (named store t)) pkg name))
  || underlyingDeclares (underlying (named store t)).

(** How the variables may differ after a part of the scan of entry [e]
    that went on to the next statement. *)
Record step (e : embeddedType) (v v' : locals) : Prop := {
    step_kept : is_Some (v_obj v) →
      v_obj v' = v_obj v ∧ v_index v' = v_index v ∧ v_indirect v' = v_indirect v;
    step_none : v_obj v' = None →
      v_obj v = None ∧ v_index v' = v_index v ∧ v_indirect v' = v_indirect v;
    step_found : ∀ o, v_obj v = None → v_obj v' = Some o →
      denotes o ∧ e_multiples e = false ∧ v_indirect v' = e_indirect e
      ∧ ∃ i, v_index v' = Some (concat (e_index e) i);
    step_next : ∃ more : list embeddedType,
      v_next v' = v_next v ++ more ∧ Forall (childOf e) more
}.

(** Whether the selector matches a member of the type of entry [e]. *)
Definition entryDeclares (e : embeddedType) (v : locals) : bool :=
  match e_typ e with
  | Some t => declares t
  | None => underlyingDeclares (v_typ v)
  end.

(** How the variables may differ after the scan of a whole frontier that
    went on to the statements after the loop. *)
Record steps (current : list embeddedType) (v v' : locals) : Prop := {
    steps_kept : is_Some (v_obj v) →
      v_obj v' = v_obj v ∧ v_index v' = v_index v ∧ v_indirect v' = v_indirect v;
    steps_none : v_obj v' = None →
      v_obj v = None ∧ v_index v' = v_index v ∧ v_indirect v' = v_indirect v;
    steps_found : ∀ o, v_obj v = None → v_obj v' = Some o →
      denotes o ∧ ∃ e, e ∈ current ∧ e_multiples e = false
        ∧ v_indirect v' = e_indirect e
        ∧ ∃ i, v_index v' = Some (concat (e_index e) i);
    steps_next : ∃ more : list embeddedType,
      v_next v' = v_next v ++ more
      ∧ Forall (λ c, ∃ e, e ∈ current ∧ childOf e c) more;
    steps_seen : v_seen v' = namedOf current ∪ v_seen v;
    steps_undeclared : v_obj v' = None →
      ∀ t, t ∈ namedOf current → t ∉ v_seen v → declares t = false;
    steps_grows : v_next v' ≠ v_next v →
      (∃ e, e ∈ current ∧ e_typ e = None)
      ∨ ∃ t, t ∈ dom store ∧ t ∉ v_seen v ∧ t ∈ v_seen v'
}.

(** The three shapes of a result: a member the selector denotes with its
    index, an ambiguous selector, or nothing at all. *)
Definition shaped (r : LookupResult) : Prop :=
  (∃ o idx ind, r = (Some o, Some idx, ind) ∧ denotes o)
  ∨ collision r
  ∨ r = (None, None, false).

(** [reaches d current v]: the search from [typ] gets to embedding depth
    [d], with frontier [current] and variables [v]: no shallower depth
    had a match or a collision. *)
Inductive reaches : nat → list embeddedType → locals → Prop :=
  | reaches_start : reaches 0 [startEntry typ] (startLocals typ)
  | reaches_deeper d current v v' :
      reaches d current v →
      current ≠ [] →
      scanCurrent IsExported store pkg name current (resetNext v) = Continue v' →
      v_obj v' = None →
      reaches (S d) (consolidateMultiples (v_next v')) v'.

(** What holds of the frontier and the variables at a depth reached. *)
Record reached (d : nat) (current : list embeddedType) (v : locals) : Prop := {
    r_obj : v_obj v = None;
    r_index : v_index v = None;
    r_indirect : v_indirect v = false;
    r_depth : Forall (λ e, length (e_index e) = d) current;
    r_NoDup : NoDup (e_typ <$> current);
    r_undeclared : ∀ t, t ∈ v_seen v → declares t = false
}.

(** Two entries of the frontier declare the member. *)
Definition twoDeclare (current : list embeddedType) : Prop :=
  ∃ i j e1 e2 t1 t2, i ≠ j
    ∧ current !! i = Some e1 ∧ current !! j = Some e2
    ∧ e_typ e1 = Some t1 ∧ e_typ e2 = Some t2
    ∧ declares t1 = true ∧ declares t2 = true.

(** An entry of the frontier that stands for several declares the member. *)
Definition multipleDeclares (current : list embeddedType) : Prop :=
  ∃ e t, e ∈ current ∧ e_typ e = Some t ∧ e_multiples e = true ∧ declares t = true.

End SearchSpec.

Section VerdictSpec.

Variable IsExported : string → bool.
Variable IsIdentical : Type_ → Type_ → bool.
Variable store : Store.

(** An interface type has the required method [m] when its method set has
    a method of the same package and name with an identical signature; a
    missing name is reported missing, a differing signature as a wrong
    type. *)
Definition interfaceVerdict (ityp : list Func) (m : Func) : result verdict :=
  match lookupMethod IsExported ityp (m_pkg m) (m_name m) with
  | Ok None => Ok Missing
  | Ok (Some (_, obj)) =>
      if IsIdentical (Sig (m_typ obj)) (Sig (m_typ m)) then Ok Satisfied
      else Ok WrongType
  | Panic => Panic
  | Exhausted => Exhausted
  end.

(** A concrete type has the required method [m] when the selector
    resolves to a method that is in the method set of the value (no
    pointer receiver reached without indirection) and has an identical
    signature; an absent member, a member that is not a method and a
    method outside the method set are reported missing, a differing
    signature as a wrong type. *)
Definition concreteVerdict (typ : Type_) (m : Func) : result verdict :=
  match LookupFieldOrMethod IsExported store typ (m_pkg m) (m_name m) with
  | Ok (Some (FuncObj f), _, indirect) =>
      if notInMethodSet f indirect then Ok Missing
      else if IsIdentical (Sig (m_typ f)) (Sig (m_typ m)) then Ok Satisfied
      else Ok WrongType
  | Ok _ => Ok Missing
  | Panic => Panic
  | Exhausted => Exhausted
  end.

Definition methodVerdict (typ : Type_) (m : Func) : result verdict :=
  match Underlying store typ with
  | Interface ityp => interfaceVerdict ityp m
  | _ => concreteVerdict typ m
  end.

End VerdictSpec.

(** *** The loop of [consolidateMultiples], entry by entry *)

(** Entry [e] stands for entry [j] of the list [l0], the first of its
    type, and is flagged exactly when that entry was flagged or another
    entry of the same type follows it before position [k]. *)
Definition firstOf (l0 : list embeddedType) (k : nat) (e : embeddedType) (j : nat)
    : Prop :=
  ∃ e0, j < k ∧ l0 !! j = Some e0
    ∧ e_typ e = e_typ e0 ∧ e_index e = e_index e0 ∧ e_indirect e = e_indirect e0
    ∧ (∀ j' e', j' < j → l0 !! j' = Some e' → e_typ e' ≠ e_typ e0)
    ∧ (e_multiples e = true ↔
         e_multiples e0 = true
         ∨ ∃ j' e', j < j' ∧ j' < k ∧ l0 !! j' = Some e' ∧ e_typ e' = e_typ e0).

(** The type of [e1] occurs in [l0] before every occurrence of the type of
    [e2] below position [k]. *)
Definition before (l0 : list embeddedType) (k : nat) (e1 e2 : embeddedType) : Prop :=
  ∃ j1 a1, j1 < k ∧ l0 !! j1 = Some a1 ∧ e_typ a1 = e_typ e1
    ∧ ∀ j2 a2, j2 < k → l0 !! j2 = Some a2 → e_typ a2 = e_typ e2 → j1 < j2.

(** More of the state of the loop of [consolidateMultiples]. *)
Record settled (l0 arr : list embeddedType) (k n : nat) : Prop := {
    s_first : ∀ i e, i < n → arr !! i = Some e → ∃ j, firstOf l0 k e j;
    s_order : ∀ p q e1 e2, p < q → q < n → arr !! p = Some e1 → arr !! q = Some e2 →
      before l0 k e1 e2
}.

(** *** Index sequences and embedded fields *)

(** The named type an embedded field stands for, and whether it is
    embedded through a pointer: the lookup follows an anonymous field of
    the form T or pointer to T with T named, and no other field. *)
Definition embedded (f : Field) : option (NamedId * bool) :=
  if f_anonymous f then
    let '(typ, isPtr) := deref (f_typ f) in
    match typ with
    | NamedT t => Some (t, isPtr)
    | _ => None
    end
  else None.

(** The entry the lookup appends to [next] for field [j] of entry [e]. *)
Definition child (e : embeddedType) (j : nat) (t : NamedId) (isPtr : bool)
    : embeddedType :=
  mkEmbedded (Some t) (concat (e_index e) j) (e_indirect e || isPtr) (e_multiples e).

(** A struct type embeds the named type [t]. *)
Definition embeds (U : Type_) (t : NamedId) : Prop :=
  ∃ fields j f isPtr,
    U = Struct fields ∧ fields !! j = Some f ∧ embedded f = Some (t, isPtr).

(** An entry collected for field [j] of the struct [U] scanned for [e]. *)
Definition childAt (U : Type_) (e c : embeddedType) : Prop :=
  ∃ fields j f t isPtr,
    U = Struct fields ∧ fields !! j = Some f ∧ embedded f = Some (t, isPtr)
    ∧ c = child e j t isPtr.

(** Member [i] of a struct or of an interface. *)
Definition underMember (U : Type_) (i : nat) (o : Object) : Prop :=
  (∃ fields f, U = Struct fields ∧ fields !! i = Some f ∧ o = FieldObj f)
  ∨ (∃ ms m, U = Interface ms ∧ ms !! i = Some m ∧ o = FuncObj m).

Section PathSpec.

Variable store : Store.

(** Following an index sequence through embedded fields, from the type
    [T]; [indirect] becomes true once a field embedded through a pointer
    is passed. *)
Fixpoint followPath (T : Type_) (indirect : bool) (idx : list nat)
    : option (Type_ * bool) :=
  match idx with
  | [] => Some (T, indirect)
  | i :: idx' =>
      match Underlying store T with
      | Struct fields =>
          match fields !! i ≫= embedded with
          | Some (t, isPtr) => followPath (NamedT t) (indirect || isPtr) idx'
          | None => None
          end
      | _ => None
      end
  end.

(** What the last entry of an index sequence selects in the type [T]:
    entry [i] of the declared methods of a named type, of the fields of a
    struct, or of the methods of an interface. *)
Definition memberAt (T : Type_) (i : nat) (o : Object) : Prop :=
  (∃ t m, T = NamedT t ∧ methods (named store t) !! i = Some m ∧ o = FuncObj m)
  ∨ underMember (Underlying store T) i o.

(** The type an entry of the frontier stands for; [T0] is the type the
    search starts from. *)
Definition entryType (T0 : Type_) (e : embeddedType) : Type_ :=
  match e_typ e with
  | Some t => NamedT t
  | None => T0
  end.

(** A frontier is a list of named types, except that the first one may be
    the single type that is not named, held in the variable [typ]. *)
Definition frontierOf (T0 : Type_) (current : list embeddedType) (v : locals) : Prop :=
  allNamed current
  ∨ ∃ e, current = [e] ∧ e_typ e = None ∧ v_typ v = T0 ∧ asNamed T0 = None.

End PathSpec.

Section ExploredSpec.

Variable IsExported : string → bool.
Variable store : Store.
Variable pkg : Package.
Variable name : string.
Variable typ : Type_.

(** A type has a member the selector matches. *)
Definition typeDeclares (T : Type_) : bool :=
  match T with
  | NamedT t => declares IsExported store pkg name t
  | _ => underlyingDeclares IsExported pkg name T
  end.

(** The index sequence [idx] leads from [typ] to the type [T], with a
    pointer indirection on the way or not. *)
Definition leads (idx : list nat) (T : Type_) (indirect : bool) : Prop :=
  followPath store (fst (deref typ)) (snd (deref typ)) idx = Some (T, indirect).

(** The index and the indirection of an entry are those of a path from
    [typ] to its type. *)
Definition onPath (e : embeddedType) : Prop :=
  leads (e_index e) (entryType (fst (deref typ)) e) (e_indirect e).

(** What the search has covered when it reaches depth [d]. *)
Record explored (d : nat) (current : list embeddedType) (v : locals) : Prop := {
    ex_frontier : frontierOf (fst (deref typ)) current v;
    ex_onPath : Forall onPath current;
    ex_closed : ∀ t t', t ∈ v_seen v → embeds (underlying (named store t)) t' →
      t' ∈ v_seen v ∨ t' ∈ namedOf current;
    ex_level : ∀ idx t b, leads idx (NamedT t) b → length idx = d →
      t ∈ v_seen v ∨ t ∈ namedOf current;
    ex_below : ∀ idx t b, leads idx (NamedT t) b → length idx < d → t ∈ v_seen v;
    ex_root : 0 < d → asNamed (fst (deref typ)) = None →
      underlyingDeclares IsExported pkg name (fst (deref typ)) = false
}.

End ExploredSpec.

(** Two entries that differ in the indirection at most. *)
Definition sameEntry (e e' : embeddedType) : Prop :=
  e_typ e = e_typ e' ∧ e_index e = e_index e' ∧ e_multiples e = e_multiples e'.

(** Two states of the variables that differ in the indirections at most. *)
Definition sameLocals (v v' : locals) : Prop :=
  v_obj v = v_obj v' ∧ v_index v = v_index v' ∧ v_typ v = v_typ v'
  ∧ v_seen v = v_seen v' ∧ Forall2 sameEntry (v_next v) (v_next v').

(** Two results with the same object and the same index. *)
Definition sameMember (r r' : LookupResult) : Prop := fst r = fst r'.

Definition sameFlow (f f' : flow locals LookupResult) : Prop :=
  match f, f' with
  | Continue v, Continue v' => sameLocals v v'
  | Return r, Return r' => sameMember r r'
  | Panicked, Panicked => True
  | _, _ => False
  end.

Definition sameResult (r r' : result LookupResult) : Prop :=
  match r, r' with
  | Ok a, Ok a' => sameMember a a'
  | Panic, Panic => True
  | Exhausted, Exhausted => True
  | _, _ => False
  end.

(** *** The types of the scenarios *)

(** [ast.IsExported] on names that start with an ASCII letter. *)
Definition asciiIsExported (name : string) : bool :=
  match name with
  | String c _ => (65 <=? Ascii.nat_of_ascii c) && (Ascii.nat_of_ascii c <=? 90)
  | EmptyString => false
  end.

(** An identity of signatures for the scenarios: the numbers of parameters
    and of results agree. *)
Definition sameArity (x y : Type_) : bool :=
  match x, y with
  | Sig (mkSignature _ ps rs), Sig (mkSignature _ ps' rs') =>
      (length ps =? length ps') && (length rs =? length rs')
  | _, _ => false
  end.

Definition pkgP : Package := mkPackage "p".

Definition int : Type_ := Basic "int".

(** [type Embedded struct { X int }] with [func (Embedded) M()], and
    [type S struct { Embedded; X int }]; [S] is named 1, [Embedded] 2. *)
Definition methodM : Func :=
  mkFunc "M" pkgP (mkSignature (Some (mkVar "e" (NamedT 2))) [] []).

Definition fieldX : Field := mkField "X" pkgP int false.

Definition declEmbedded : Named := mkNamed [methodM] (Struct [fieldX]).

Definition declS : Named :=
  mkNamed [] (Struct [mkField "Embedded" pkgP (NamedT 2) true; fieldX]).

Definition storeS : Store := <[1%positive := declS]> (<[2%positive := declEmbedded]> ∅).

(** [type A struct { B }] and [type B struct { A; y int }]: [A] embeds
    [B] and [B] embeds [A]. *)
Definition declA : Named := mkNamed [] (Struct [mkField "B" pkgP (NamedT 2) true]).

Definition declB : Named :=
  mkNamed [] (Struct [mkField "A" pkgP (NamedT 1) true;
                      mkField "y" pkgP int false]).

Definition storeCycle : Store := <[1%positive := declA]> (<[2%positive := declB]> ∅).

(** [type L struct { x int }], [type R struct { x int }] and
    [type D struct { L; *R }]: [x] is ambiguous on [D]. [type E struct
    { L; *L }] embeds [L] along two paths. *)
Definition fieldx : Field := mkField "x" pkgP int false.

Definition declL : Named := mkNamed [] (Struct [fieldx]).

Definition declR : Named := mkNamed [] (Struct [fieldx]).

Definition declD : Named :=
  mkNamed [] (Struct [mkField "L" pkgP (NamedT 1) true;
                      mkField "R" pkgP (Pointer (NamedT 2)) true]).

Definition declE : Named :=
  mkNamed [] (Struct [mkField "L" pkgP (NamedT 1) true;
                      mkField "L2" pkgP (Pointer (NamedT 1)) true]).

Definition storeD : Store :=
  <[1%positive := declL]> (<[2%positive := declR]>
    (<[3%positive := declD]> (<[4%positive := declE]> ∅))).

(** [type N struct{}] with a method [B] declared on the pointer to [N], and
    the interface [interface { A(); B() }]. *)
Definition sigOf (r : option Var) : Signature := mkSignature r [] [].

Definition methodB_N : Func := mkFunc "B" pkgP (sigOf (Some (mkVar "n" (Pointer (NamedT 1))))).

Definition declN : Named := mkNamed [methodB_N] (Struct []).

Definition storeN : Store := <[1%positive := declN]> ∅.

Definition requiredA : Func := mkFunc "A" pkgP (sigOf None).

Definition requiredB : Func := mkFunc "B" pkgP (sigOf None).

Definition requiredBlank : Func := mkFunc "_" pkgP (sigOf None).

Definition pkgQ : Package := mkPackage "q".

End TypesSpec.

(** ** Facts about the import graph *)

Module ImportgraphFacts.
Import Importgraph ImportgraphSpec.

Lemma marked_lookup seen x : marked seen x ↔ seen !! x = Some true.
Proof.
  unfold marked, isSeen. destruct (seen !! x) as [[]|]; simpl; naive_solver.
Qed.

Lemma marked_insert seen x z :
  marked (<[x := true]> seen) z ↔ z = x ∨ marked seen z.
Proof.
  rewrite !marked_lookup. destruct (decide (x = z)) as [->|Hne].
  - rewrite lookup_insert_eq. naive_solver.
  - rewrite lookup_insert_ne by done. naive_solver.
Qed.

Lemma marked_empty z : ¬ marked ∅ z.
Proof. rewrite marked_lookup, lookup_empty. done. Qed.

Lemma allTrue_insert seen x : allTrue seen → allTrue (<[x := true]> seen).
Proof.
  intros Hall z b. destruct (decide (x = z)) as [->|Hne].
  - rewrite lookup_insert_eq. congruence.
  - rewrite lookup_insert_ne by done. apply Hall.
Qed.

Lemma allTrue_marked_dom seen x : allTrue seen → marked seen x ↔ x ∈ dom seen.
Proof.
  intros Hall. rewrite marked_lookup, elem_of_dom. split.
  - intros ->. eauto.
  - intros [b Hb]. rewrite Hb. f_equal. eauto.
Qed.

Lemma keysInOrder_spec (m : gmap string bool) y :
  y ∈ keysInOrder m ↔ is_Some (m !! y).
Proof.
  unfold keysInOrder. rewrite list_elem_of_fmap. split.
  - intros [[k b] [-> Hin]]. apply elem_of_map_to_list in Hin. simpl. eauto.
  - intros [b Hb]. exists (y, b). split; [done|]. by apply elem_of_map_to_list.
Qed.

Section SearchFacts.

Variable rangeKeys : gmap string bool → list string.
Hypothesis rangeKeys_spec : ∀ m y, y ∈ rangeKeys m ↔ is_Some (m !! y).
Variable g : Graph.

Local Abbreviation visited := (ImportgraphSpec.visited g).
Local Abbreviation visitedAll := (ImportgraphSpec.visitedAll g).

Lemma rangeKeys_successors x y :
  y ∈ rangeKeys (successors g x) ↔ edge g x y.
Proof.
  rewrite rangeKeys_spec. unfold successors, edge.
  destruct (g !! x) as [edges|]; simpl.
  - naive_solver.
  - rewrite lookup_empty. split; [by intros [? ?] | by intros (?&?&?)].
Qed.

Lemma visitEach_visited f ys :
  (∀ x seen s, f x seen = Some s → visited x seen s) →
  ∀ seen s, visitEach f ys seen = Some s → visitedAll ys seen s.
Proof.
  intros Hf. induction ys as [|y ys IH]; intros seen s Hrun; simpl in Hrun.
  - injection Hrun as <-. split; try done.
    + intros y Hy. by apply elem_of_nil in Hy.
    + eauto.
  - destruct (f y seen) as [s1|] eqn:Hy; [|done].
    destruct (Hf _ _ _ Hy) as [Hm1 Hs1 Hc1 Hr1 Ht1].
    destruct (IH _ _ Hrun) as [Hm2 Hs2 Hc2 Hr2 Ht2].
    split.
    + eauto.
    + intros z [->|Hz]%elem_of_cons; eauto.
    + intros z w Hz Hnz Hedge.
      destruct (isSeen s1 z) eqn:Hz1.
      * apply Hm2. eapply Hc1; eauto.
      * eapply Hc2; eauto. unfold marked. congruence.
    + intros z Hz. destruct (Hr2 z Hz) as [Hz1|(w & Hw & Hrtc)].
      * destruct (Hr1 z Hz1) as [?|?]; [by left|].
        right. exists y. split; [apply elem_of_cons; by left|done].
      * right. exists w. split; [apply elem_of_cons; by right|done].
    + eauto.
Qed.

Lemma visit_visited fuel :
  ∀ x seen s, visit rangeKeys fuel g x seen = Some s → visited x seen s.
Proof.
  induction fuel as [|fuel IH]; intros x seen s Hrun; simpl in Hrun; [done|].
  destruct (isSeen seen x) eqn:Hx.
  - injection Hrun as <-. split; try done. eauto.
  - apply (visitEach_visited _ _ IH) in Hrun as [Hm Hs Hc Hr Ht].
    assert (Hnx : ¬ marked seen x) by (unfold marked; congruence).
    split.
    + intros z Hz. apply Hm, marked_insert. by right.
    + apply Hm, marked_insert. by left.
    + intros z y Hz Hnz Hedge. destruct (decide (z = x)) as [->|Hne].
      * by apply Hs, rangeKeys_successors.
      * apply (Hc z y); [done| |done]. rewrite marked_insert. naive_solver.
    + intros z Hz. destruct (Hr z Hz) as [[->|?]%marked_insert|(y & Hy & Hrtc)].
      * by right.
      * by left.
      * right. apply rangeKeys_successors in Hy. by eapply rtc_l.
    + intros Hall. by apply Ht, allTrue_insert.
Qed.

(** Enough fuel: the nodes with an entry in [g] that are not yet marked
    bound the depth of the recursion. *)
Lemma visit_enough_fuel fuel :
  ∀ x seen, allTrue seen → size (dom g ∖ dom seen) < fuel →
  is_Some (visit rangeKeys fuel g x seen).
Proof.
  induction fuel as [|fuel IH]; intros x seen Hall Hfuel; [lia|]. simpl.
  destruct (isSeen seen x) eqn:Hx; [eauto|].
  assert (Hnx : x ∉ dom seen).
  { rewrite <-allTrue_marked_dom by done. unfold marked. congruence. }
  assert (Hloop : ∀ ys seen', allTrue seen' →
    (ys = [] ∨ size (dom g ∖ dom seen') < fuel) →
    is_Some (visitEach (visit rangeKeys fuel g) ys seen')).
  { induction ys as [|y ys IHys]; intros seen' Hall' Hsize; simpl; [eauto|].
    destruct Hsize as [?|Hsize]; [done|].
    destruct (IH y seen' Hall' Hsize) as [s1 Hs1]. rewrite Hs1.
    destruct (visit_visited _ _ _ _ Hs1) as [Hm _ _ _ Ht].
    apply IHys; [eauto|]. right.
    eapply Nat.le_lt_trans; [|exact Hsize].
    apply subseteq_size. intros z [Hz Hnz]%elem_of_difference.
    apply elem_of_difference. split; [done|]. intros Hz'. apply Hnz.
    rewrite <-allTrue_marked_dom in * by eauto. eauto. }
  apply Hloop; [by apply allTrue_insert|].
  destruct (rangeKeys (successors g x)) as [|y ys] eqn:Hys; [by left|right].
  assert (Hxg : x ∈ dom g).
  { assert (Hy : y ∈ rangeKeys (successors g x)) by (rewrite Hys; left).
    apply rangeKeys_successors in Hy as (edges & Hedges & _).
    apply elem_of_dom. eauto. }
  rewrite dom_insert_L.
  assert (size (dom g ∖ ({[x]} ∪ dom seen)) < size (dom g ∖ dom seen)); [|lia].
  apply subset_size. split.
  - set_solver.
  - intros Hsub. specialize (Hsub x). set_solver.
Qed.

Lemma visitEach_enough_fuel fuel roots seen :
  allTrue seen → size (dom g ∖ dom seen) < fuel →
  is_Some (visitEach (visit rangeKeys fuel g) roots seen).
Proof.
  revert seen. induction roots as [|r roots IH]; intros seen Hall Hfuel; simpl; [eauto|].
  destruct (visit_enough_fuel fuel r seen Hall Hfuel) as [s1 Hs1]. rewrite Hs1.
  destruct (visit_visited _ _ _ _ Hs1) as [Hm _ _ _ Ht].
  apply IH; [eauto|].
  eapply Nat.le_lt_trans; [|exact Hfuel].
  apply subseteq_size. intros z [Hz Hnz]%elem_of_difference.
  apply elem_of_difference. split; [done|]. intros Hz'. apply Hnz.
  rewrite <-allTrue_marked_dom in * by eauto. eauto.
Qed.

Lemma allTrue_empty : allTrue ∅.
Proof. intros x b. by rewrite lookup_empty. Qed.

(** [Search] returns, and what it returns is described by [visitedAll]. *)
Lemma Search_visitedAll roots :
  ∃ seen, Search rangeKeys g roots = Some seen ∧ visitedAll roots ∅ seen.
Proof.
  destruct (visitEach_enough_fuel (S (size g)) roots ∅ allTrue_empty) as [seen Hseen].
  { rewrite dom_empty_L, difference_empty_L, size_dom. lia. }
  exists seen. split; [done|].
  eapply visitEach_visited; [|exact Hseen]. apply visit_visited.
Qed.

End SearchFacts.

(** *** The event loop of [Build] *)

Lemma addEdge_lookup g a b x :
  addEdge g a b !! x =
    if decide (a = x) then Some (<[b := true]> (successors g a)) else g !! x.
Proof.
  unfold addEdge, successors. destruct (g !! a) as [edges|] eqn:Ha; simpl.
  - rewrite lookup_insert. by destruct (decide (a = x)).
  - rewrite lookup_insert. by destruct (decide (a = x)).
Qed.

Lemma addEdge_edge g a b x y :
  edge (addEdge g a b) x y ↔ edge g x y ∨ (x = a ∧ y = b).
Proof.
  unfold edge. rewrite addEdge_lookup. destruct (decide (a = x)) as [<-|Hne].
  - unfold successors. split.
    + intros (edges & [= <-] & Hy). destruct (decide (b = y)) as [->|Hby]; [by right|].
      rewrite lookup_insert_ne in Hy by done. left.
      destruct (g !! a) as [edges|]; simpl in *; [eauto|].
      rewrite lookup_empty in Hy. by destruct Hy.
    + intros [(edges & Ha & Hy)|[_ ->]]; eexists; (split; [done|]).
      * rewrite Ha. simpl. destruct (decide (b = y)) as [->|Hby].
        -- rewrite lookup_insert_eq. eauto.
        -- by rewrite lookup_insert_ne.
      * rewrite lookup_insert_eq. eauto.
  - split; [by left|]. intros [?|[-> _]]; [done|congruence].
Qed.

Lemma consume_forward_edge st e x y :
  edge (forward (consume st e)) x y ↔
    edge (forward st) x y ∨ (e = importEdge x y ∧ y ≠ "C").
Proof.
  destruct e as [path err|from to]; simpl.
  - naive_solver.
  - case_bool_decide as Hc; simpl.
    + split; [by left|]. intros [?|[[= -> ->] ?]]; done.
    + rewrite addEdge_edge. split.
      * intros [?|[-> ->]]; [by left|by right].
      * intros [?|[[= -> ->] ?]]; [by left|by right].
Qed.

Lemma consume_reverse_edge st e x y :
  edge (reverse (consume st e)) y x ↔
    edge (reverse st) y x ∨ (e = importEdge x y ∧ y ≠ "C").
Proof.
  destruct e as [path err|from to]; simpl.
  - naive_solver.
  - case_bool_decide as Hc; simpl.
    + split; [by left|]. intros [?|[[= -> ->] ?]]; done.
    + rewrite addEdge_edge. split.
      * intros [?|[-> ->]]; [by left|by right].
      * intros [?|[[= -> ->] ?]]; [by left|by right].
Qed.

Lemma foldl_consume_edges events : ∀ st x y,
  (edge (forward (foldl consume st events)) x y ↔
     edge (forward st) x y ∨ imports events x y) ∧
  (edge (reverse (foldl consume st events)) y x ↔
     edge (reverse st) y x ∨ imports events x y).
Proof.
  unfold imports. induction events as [|e events IH]; intros st x y; simpl.
  - split; (split; [by left|]); intros [?|[Hin _]]; try done;
      by apply elem_of_nil in Hin.
  - destruct (IH (consume st e) x y) as [IHf IHr].
    rewrite IHf, IHr, consume_forward_edge, consume_reverse_edge.
    rewrite elem_of_cons. naive_solver.
Qed.

Lemma edge_empty x y : ¬ edge ∅ x y.
Proof. intros (edges & Hx & _). by rewrite lookup_empty in Hx. Qed.

(** The forward graph holds exactly the imports, the reverse graph their
    transpose. *)
Lemma Build_edges events x y :
  (edge (forward (Build events)) x y ↔ imports events x y) ∧
  (edge (reverse (Build events)) y x ↔ imports events x y).
Proof.
  unfold Build.
  destruct (foldl_consume_edges events (mkBuildState ∅ ∅ None) x y) as [Hf Hr].
  simpl in *. pose proof (edge_empty x y). pose proof (edge_empty y x). naive_solver.
Qed.

Lemma consume_noC st e : noC st → noC (consume st e).
Proof.
  intros [Hf Hr]. destruct e as [path err|from to]; simpl; [done|].
  case_bool_decide as Hc; [done|]. split; simpl.
  - intros x edges. rewrite addEdge_lookup.
    destruct (decide (from = x)) as [<-|Hne]; [|apply Hf].
    intros [= <-]. rewrite lookup_insert_ne by done.
    unfold successors. destruct (forward st !! from) as [edges|] eqn:Hfrom; simpl.
    + eauto.
    + apply lookup_empty.
  - rewrite addEdge_lookup. by destruct (decide (to = "C")).
Qed.

Lemma foldl_consume_noC events : ∀ st, noC st → noC (foldl consume st events).
Proof.
  induction events as [|e events IH]; intros st Hst; simpl; [done|].
  by apply IH, consume_noC.
Qed.

Section SearchTheorems.

Variable rangeKeys : gmap string bool → list string.
Hypothesis rangeKeys_spec : ∀ m y, y ∈ rangeKeys m ↔ is_Some (m !! y).

(** C7. [Search] returns, for every graph (cyclic or not) and every list
    of roots, a map whose keys all hold [true] and are exactly the nodes
    related to a root by the reflexive-transitive closure of the edge
    relation: every root is in it, it is closed under edges, and it
    holds nothing else. In particular, on the forward graph of [Build],
    [Search] from a node holds that node and all its transitive
    imports. *)
Theorem Search_reflexive_transitive_closure :
  (∀ (g : Graph) (roots : list string), ∃ seen,
      Search rangeKeys g roots = Some seen
      ∧ (∀ y, seen !! y = Some true ↔ ∃ r, r ∈ roots ∧ rtc (edge g) r y)
      ∧ (∀ y b, seen !! y = Some b → b = true)
      ∧ (∀ r, r ∈ roots → seen !! r = Some true)
      ∧ (∀ x y, seen !! x = Some true → edge g x y → seen !! y = Some true))
  ∧ (∀ (events : list event) (n : string), ∃ seen,
      Search rangeKeys (forward (Build events)) [n] = Some seen
      ∧ seen !! n = Some true
      ∧ (∀ m, rtc (imports events) n m → seen !! m = Some true)).
Proof.
  assert (Hgen : ∀ (g : Graph) (roots : list string), ∃ seen,
    Search rangeKeys g roots = Some seen
    ∧ (∀ y, seen !! y = Some true ↔ ∃ r, r ∈ roots ∧ rtc (edge g) r y)
    ∧ (∀ y b, seen !! y = Some b → b = true)
    ∧ (∀ r, r ∈ roots → seen !! r = Some true)
    ∧ (∀ x y, seen !! x = Some true → edge g x y → seen !! y = Some true)).
  { intros g roots.
    destruct (Search_visitedAll rangeKeys rangeKeys_spec g roots)
      as (seen & Hrun & [Hm Hs Hc Hr Ht]).
    assert (Hclosed : ∀ x y, marked seen x → edge g x y → marked seen y).
    { intros x y Hx Hedge. apply (Hc x y); [done| |done]. apply marked_empty. }
    exists seen. split; [done|]. split; [|split; [|split]].
    - intros y. rewrite <-marked_lookup. split.
      + intros Hy. destruct (Hr y Hy) as [Hy0|?]; [|done].
        by apply marked_empty in Hy0.
      + intros (r & Hin & Hrtc). apply Hs in Hin.
        induction Hrtc as [x|x y z Hxy _ IH]; eauto.
    - apply Ht, allTrue_empty.
    - intros r Hin. apply marked_lookup. eauto.
    - intros x y. rewrite <-!marked_lookup. apply Hclosed. }
  split; [exact Hgen|].
  intros events n.
  destruct (Hgen (forward (Build events)) [n]) as (seen & Hrun & Hiff & _ & Hroot & _).
  exists seen. split; [done|]. split.
  - apply Hroot. left.
  - intros m Hrtc. apply Hiff. exists n. split; [left|].
    clear -Hrtc. induction Hrtc as [x|x y z Hxy _ IH]; [done|].
    eapply rtc_l; [|exact IH]. by apply Build_edges.
Qed.

Lemma rangeKeys_empty : rangeKeys ∅ = [].
Proof.
  destruct (rangeKeys ∅) as [|y ys] eqn:Hys; [done|].
  assert (Hy : y ∈ rangeKeys ∅) by (rewrite Hys; left).
  apply rangeKeys_spec in Hy as [b Hb]. by rewrite lookup_empty in Hb.
Qed.

(** C10. A root without an entry in the graph is still in the result:
    [Search] from such a root alone returns the singleton of that root,
    and [Search] without roots returns the empty map. *)
Theorem Search_unknown_root (g : Graph) (root : string) :
  (g !! root = None → Search rangeKeys g [root] = Some {[root := true]})
  ∧ Search rangeKeys g [] = Some ∅.
Proof.
  split; [|done]. intros Hroot.
  unfold Search, SearchFuel. simpl.
  unfold isSeen, successors. rewrite lookup_empty, Hroot. simpl.
  rewrite rangeKeys_empty. simpl. by rewrite insert_empty.
Qed.

End SearchTheorems.

(** C8. Whatever events the channel delivers, no set of imports stored in
    the forward graph of [Build] contains ["C"], and the reverse graph has
    no entry for ["C"]. *)
Theorem Build_never_adds_C (events : list event) :
  (∀ from edges, forward (Build events) !! from = Some edges → edges !! "C" = None)
  ∧ reverse (Build events) !! "C" = None.
Proof.
  apply foldl_consume_noC. split; simpl.
  - intros from edges. by rewrite lookup_empty.
  - apply lookup_empty.
Qed.

Example Build_abc_forward :
  forward (Build workspace_abc) !! "a" = Some {["b" := true]}
  ∧ reverse (Build workspace_abc) !! "c" = Some {["b" := true]}
  ∧ Search keysInOrder (forward (Build workspace_abc)) ["a"]
      = Some (list_to_map [("a", true); ("b", true); ("c", true)]).
Proof. vm_compute. done. Qed.

Lemma Search_reflexive_transitive_closure_witness :
  (∃ seen, Search keysInOrder (forward (Build workspace_abc)) ["b"] = Some seen
     ∧ (∀ y, seen !! y = Some true ↔
          ∃ r, r ∈ ["b"] ∧ rtc (edge (forward (Build workspace_abc))) r y)
     ∧ (∀ y b, seen !! y = Some b → b = true)
     ∧ (∀ r, r ∈ ["b"] → seen !! r = Some true)
     ∧ (∀ x y, seen !! x = Some true → edge (forward (Build workspace_abc)) x y →
          seen !! y = Some true))
  ∧ (∃ seen, Search keysInOrder (forward (Build workspace_abc)) ["a"] = Some seen
       ∧ seen !! "a" = Some true
       ∧ (∀ m, rtc (imports workspace_abc) "a" m → seen !! m = Some true)).
Proof.
  split.
  - exact (proj1 (Search_reflexive_transitive_closure keysInOrder keysInOrder_spec)
             (forward (Build workspace_abc)) ["b"]).
  - exact (proj2 (Search_reflexive_transitive_closure keysInOrder keysInOrder_spec)
             workspace_abc "a").
Defined.

Lemma Search_unknown_root_witness :
  Search keysInOrder (forward (Build workspace_abc)) ["c"] = Some {["c" := true]}.
Proof.
  apply (Search_unknown_root keysInOrder keysInOrder_spec
           (forward (Build workspace_abc)) "c").
  vm_compute. reflexivity.
Defined.

End ImportgraphFacts.

(** ** Facts about field and method lookup *)

Module TypesFacts.
Import Types TypesSpec.

Lemma length_concat l i : length (concat l i) = S (length l).
Proof. unfold concat. rewrite length_app. simpl. lia. Qed.

(** *** [consolidateMultiples] *)

Lemma consolidates_refl e : consolidates e e.
Proof. by repeat split. Qed.

Lemma consolidates_setMultiples e0 e :
  consolidates e0 e → consolidates e0 (setMultiples e).
Proof. intros (? & ? & ? & ?). by repeat split. Qed.

Lemma consolidating_duplicate l0 arr k n prev e i :
  consolidating l0 arr k n prev → arr !! k = Some e → prev !! e_typ e = Some i →
  consolidating l0 (alter setMultiples i arr) (S k) n prev.
Proof.
  intros [Hlen Hn Hrest Hprev Hfrom Hcover Hflag] Hk Hi.
  assert (Hl0 : l0 !! k = Some e) by (rewrite <-Hrest; [done|lia]).
  destruct (proj1 (Hprev _ _) Hi) as (Hin & ei & Hei & Htyp).
  assert (Hold : ∀ p x, arr !! p = Some x →
    ∃ y, alter setMultiples i arr !! p = Some y ∧ consolidates x y
         ∧ (p = i → e_multiples y = true)).
  { intros p x Hp. rewrite list_lookup_alter. destruct (decide (i = p)) as [->|Hne].
    - rewrite Hp. simpl. eexists. split; [done|].
      split; [apply consolidates_setMultiples, consolidates_refl|done].
    - exists x. split; [done|]. split; [apply consolidates_refl|]. congruence. }
  assert (Hnew : ∀ p y, alter setMultiples i arr !! p = Some y →
    ∃ x, arr !! p = Some x ∧ consolidates x y).
  { intros p y. rewrite list_lookup_alter. destruct (decide (i = p)) as [->|Hne].
    - destruct (arr !! p) as [x|]; [|done]. intros [= <-]. exists x.
      split; [done|]. apply consolidates_setMultiples, consolidates_refl.
    - intros Hp. exists y. split; [done|]. apply consolidates_refl. }
  split.
  - by rewrite length_alter.
  - lia.
  - intros j Hj. rewrite list_lookup_alter_ne by lia. apply Hrest. lia.
  - intros t p. rewrite Hprev. split.
    + intros (Hp & x & Hx & Ht). split; [done|].
      destruct (Hold _ _ Hx) as (y & Hy & (Hty & _) & _). exists y. split; congruence.
    + intros (Hp & y & Hy & Ht). split; [done|].
      destruct (Hnew _ _ Hy) as (x & Hx & (Hty & _)). exists x. split; congruence.
  - intros p y Hp Hy. destruct (Hnew _ _ Hy) as (x & Hx & Hxy).
    destruct (Hfrom _ _ Hp Hx) as (j & e0 & Hj & He0 & (T & I & D & M)).
    destruct Hxy as (T' & I' & D' & M').
    exists j, e0. split; [lia|]. split; [done|]. repeat split; try congruence. eauto.
  - intros j e0 Hj He0.
    assert (∃ p x, p < n ∧ arr !! p = Some x ∧ e_typ x = e_typ e0) as (p & x & Hp & Hx & Ht).
    { destruct (decide (j = k)) as [->|Hne].
      - exists i, ei. split; [done|]. split; [done|]. congruence.
      - apply (Hcover j); [lia|done]. }
    destruct (Hold _ _ Hx) as (y & Hy & (Hty & _) & _).
    exists p, y. split; [done|]. split; [done|]. congruence.
  - intros a b x y Hab Hb Hx Hy Hxy.
    assert (∃ p z, p < n ∧ arr !! p = Some z ∧ e_typ z = e_typ x
                   ∧ (e_multiples z = true ∨ p = i)) as (p & z & Hp & Hz & Ht & Hm).
    { destruct (decide (b = k)) as [->|Hne].
      - exists i, ei. split; [done|]. split; [done|]. split; [|by right]. congruence.
      - destruct (Hflag a b x y) as (p & z & ? & ? & ? & ?); try done; [lia|].
        exists p, z. eauto. }
    destruct (Hold _ _ Hz) as (w & Hw & (Htw & _ & _ & Hmw) & Hi').
    exists p, w. split; [done|]. split; [done|]. split; [congruence|].
    destruct Hm; eauto.
Qed.

Lemma consolidating_unique l0 arr k n prev e :
  consolidating l0 arr k n prev → arr !! k = Some e → prev !! e_typ e = None →
  consolidating l0 (<[n := e]> arr) (S k) (S n) (<[e_typ e := n]> prev).
Proof.
  intros [Hlen Hn Hrest Hprev Hfrom Hcover Hflag] Hk Hnone.
  assert (Hl0 : l0 !! k = Some e) by (rewrite <-Hrest; [done|lia]).
  assert (Hklen : k < length arr) by (by eapply lookup_lt_Some).
  assert (Hfresh : ∀ p x, p < n → arr !! p = Some x → e_typ x ≠ e_typ e).
  { intros p x Hp Hx Heq. assert (prev !! e_typ e = Some p); [|congruence].
    apply Hprev. eauto. }
  assert (Hat : <[n := e]> arr !! n = Some e) by (apply list_lookup_insert_eq; lia).
  split.
  - by rewrite length_insert.
  - lia.
  - intros j Hj. rewrite list_lookup_insert_ne by lia. apply Hrest. lia.
  - intros t p. destruct (decide (p = n)) as [->|Hne].
    + rewrite Hat. split.
      * intros Hp. destruct (decide (e_typ e = t)) as [<-|Hnt].
        -- split; [lia|]. eauto.
        -- rewrite lookup_insert_ne in Hp by done.
           apply Hprev in Hp as [? _]. lia.
      * intros (_ & x & [= <-] & <-). apply lookup_insert_eq.
    + rewrite list_lookup_insert_ne by done. split.
      * intros Hp. destruct (decide (e_typ e = t)) as [<-|Hnt].
        -- rewrite lookup_insert_eq in Hp. congruence.
        -- rewrite lookup_insert_ne in Hp by done.
           apply Hprev in Hp as [? ?]. split; [lia|done].
      * intros (Hp & x & Hx & <-). rewrite lookup_insert_ne.
        -- apply Hprev. split; [lia|eauto].
        -- intros Heq. apply (Hfresh p x); [lia|done|done].
  - intros p x Hp. destruct (decide (p = n)) as [->|Hne].
    + rewrite Hat. intros [= <-]. exists k, e. split; [lia|].
      split; [done|apply consolidates_refl].
    + rewrite list_lookup_insert_ne by done. intros Hx.
      destruct (Hfrom p x) as (j & e0 & ? & ? & ?); [lia|done|].
      exists j, e0. split; [lia|done].
  - intros j e0 Hj He0. destruct (decide (j = k)) as [->|Hne].
    + exists n, e. split; [lia|]. split; [done|congruence].
    + destruct (Hcover j e0) as (p & x & ? & ? & ?); [lia|done|].
      exists p, x. split; [lia|]. split; [|done].
      rewrite list_lookup_insert_ne by lia. done.
  - intros a b x y Hab Hb Hx Hy Hxy. destruct (decide (b = k)) as [->|Hne].
    + destruct (Hcover a x) as (p & z & Hp & Hz & Ht); [lia|done|].
      destruct (Hfresh p z Hp Hz). congruence.
    + destruct (Hflag a b x y) as (p & z & ? & ? & ? & ?); try done; [lia|].
      exists p, z. split; [lia|]. split; [|done].
      rewrite list_lookup_insert_ne by lia. done.
Qed.

Lemma consolidateLoop_consolidated l0 : ∀ todo k arr n prev,
  consolidating l0 arr k n prev → todo + k = length l0 →
  consolidated l0 (consolidateLoop todo k arr n prev).
Proof.
  induction todo as [|todo IH]; intros k arr n prev Hinv Htodo; simpl.
  - destruct Hinv as [Hlen Hn Hrest Hprev Hfrom Hcover Hflag]. simpl in Htodo. subst k.
    split.
    + apply NoDup_alt. intros i j t. rewrite !list_lookup_fmap, !lookup_take.
      destruct (decide (i < n)), (decide (j < n)); try done.
      destruct (arr !! i) as [x|] eqn:Hx, (arr !! j) as [y|] eqn:Hy; try done.
      simpl. intros [= Ht1] [= Ht2].
      assert (prev !! t = Some i) by (apply Hprev; eauto).
      assert (prev !! t = Some j) by (apply Hprev; eauto). congruence.
    + intros e (i & Hi & Hlt)%elem_of_take.
      destruct (Hfrom i e Hlt Hi) as (j & e0 & _ & He0 & Hc).
      exists e0. split; [by eapply list_elem_of_lookup_2|done].
    + intros e0 (j & Hj)%list_elem_of_lookup_1.
      destruct (Hcover j e0) as (i & e & Hi & He & Ht); [by eapply lookup_lt_Some|done|].
      exists e. split; [|done]. apply elem_of_take. eauto.
    + assert (Hlt : ∀ i j a b, i < j → l0 !! i = Some a → l0 !! j = Some b →
        e_typ a = e_typ b →
        ∃ e, e ∈ take n arr ∧ e_typ e = e_typ a ∧ e_multiples e = true).
      { intros i j a b Hij Ha Hb Hab.
        destruct (Hflag i j a b) as (p & e & Hp & He & Ht & Hm); try done.
        { by eapply lookup_lt_Some. }
        exists e. split; [|done]. apply elem_of_take. eauto. }
      intros i j a b Hij Ha Hb Hab. destruct (decide (i < j)).
      * eauto.
      * destruct (Hlt j i b a) as (e & ? & ? & ?); try done; [lia|].
        exists e. split; [done|]. split; [congruence|done].
  - assert (Hk : k < length arr) by (destruct Hinv; lia).
    apply lookup_lt_is_Some_2 in Hk as [e He]. rewrite He.
    destruct (prev !! e_typ e) as [i|] eqn:Hp.
    + apply IH; [by eapply consolidating_duplicate|lia].
    + apply IH; [by eapply consolidating_unique|lia].
Qed.

Lemma consolidateMultiples_consolidated l0 :
  consolidated l0 (consolidateMultiples l0).
Proof.
  unfold consolidateMultiples. case_bool_decide as Hlen.
  - destruct l0 as [|e [|e' l0]]; simpl in Hlen; [| |lia].
    + split; simpl.
      * constructor.
      * intros e He. by apply elem_of_nil in He.
      * intros e0 He0. by apply elem_of_nil in He0.
      * intros i j a b _ Ha. done.
    + split; simpl.
      * apply NoDup_singleton.
      * intros e0 He0. exists e0. split; [done|apply consolidates_refl].
      * intros e0 He0. exists e0. done.
      * intros [|i] [|j] a b Hij Ha Hb; simpl in *; done.
  - apply consolidateLoop_consolidated; [|lia]. split; try done.
    + intros t i. rewrite lookup_empty. split; [done|]. intros [? _]. lia.
    + intros i e ?. lia.
    + intros j e0 ?. lia.
    + intros i j a b ? ?. lia.
Qed.

(** Whatever holds of every collected entry, and is kept by setting
    [multiples], holds of every consolidated entry. *)
Lemma consolidateMultiples_Forall (P : embeddedType → Prop) l0 :
  (∀ e0 e, consolidates e0 e → P e0 → P e) →
  Forall P l0 → Forall P (consolidateMultiples l0).
Proof.
  intros HP Hall. apply Forall_forall. intros e He.
  destruct (consolidateMultiples_consolidated l0) as [_ Hfrom _ _].
  destruct (Hfrom e He) as (e0 & He0 & Hc).
  apply (HP e0 e Hc). rewrite Forall_forall in Hall. by apply Hall.
Qed.

Section LookupFacts.

Variable IsExported : string → bool.

Lemma sameIdent_true declName declPkg pkg name :
  sameIdent IsExported declName declPkg pkg name = true ↔
    declName = name ∧ (IsExported name = true ∨ path declPkg = path pkg).
Proof.
  unfold sameIdent.
  rewrite andb_true_iff, orb_true_iff, !bool_decide_eq_true. done.
Qed.

Lemma isMatch_sameIdent f pkg name :
  isMatch IsExported f pkg name = sameIdent IsExported (f_name f) (f_pkg f) pkg name.
Proof.
  unfold isMatch, sameIdent. do 2 f_equal. apply bool_decide_ext. split; congruence.
Qed.

Lemma lookupMethodFrom_Some k ms pkg name i m :
  lookupMethodFrom IsExported k ms pkg name = Some (i, m) →
  k ≤ i ∧ ms !! (i - k) = Some m
  ∧ sameIdent IsExported (m_name m) (m_pkg m) pkg name = true
  ∧ ∀ j m', j < i - k → ms !! j = Some m' →
      sameIdent IsExported (m_name m') (m_pkg m') pkg name = false.
Proof.
  revert k. induction ms as [|m0 ms IH]; intros k Hfind; simpl in Hfind; [done|].
  fold (sameIdent IsExported (m_name m0) (m_pkg m0) pkg name) in Hfind.
  destruct (sameIdent IsExported (m_name m0) (m_pkg m0) pkg name) eqn:Hm0.
  - injection Hfind as <- <-. rewrite Nat.sub_diag. repeat split; try done. lia.
  - destruct (IH _ Hfind) as (Hle & Hi & Hsame & Hfirst).
    replace (i - k) with (S (i - S k)) by lia. repeat split; try done; [lia|].
    intros [|j] m' Hj Hm'; simpl in Hm'; [congruence|].
    apply (Hfirst j); [lia|done].
Qed.

Lemma lookupMethodFrom_None k ms pkg name :
  lookupMethodFrom IsExported k ms pkg name = None ↔
    ∀ m, m ∈ ms → sameIdent IsExported (m_name m) (m_pkg m) pkg name = false.
Proof.
  revert k. induction ms as [|m0 ms IH]; intros k; simpl.
  - split; [|done]. intros _ m Hm. by apply elem_of_nil in Hm.
  - fold (sameIdent IsExported (m_name m0) (m_pkg m0) pkg name).
    destruct (sameIdent IsExported (m_name m0) (m_pkg m0) pkg name) eqn:Hm0.
    + split; [done|]. intros Hall. rewrite Hall in Hm0; [done|left].
    + rewrite IH. split.
      * intros Hall m [->|Hm]%elem_of_cons; eauto.
      * intros Hall m Hm. apply Hall. by right.
Qed.

Lemma fieldIndexFrom_Some k fields pkg name i :
  fieldIndexFrom IsExported k fields pkg name = Some i →
  k ≤ i ∧ ∃ f, fields !! (i - k) = Some f
    ∧ isMatch IsExported f pkg name = true
    ∧ ∀ j f', j < i - k → fields !! j = Some f' →
        isMatch IsExported f' pkg name = false.
Proof.
  revert k. induction fields as [|f0 fields IH]; intros k Hfind; simpl in Hfind; [done|].
  fold (sameIdent IsExported (f_name f0) (f_pkg f0) pkg name) in Hfind.
  rewrite <-isMatch_sameIdent in Hfind.
  destruct (isMatch IsExported f0 pkg name) eqn:Hf0.
  - injection Hfind as <-. rewrite Nat.sub_diag. split; [lia|].
    exists f0. repeat split; try done. lia.
  - destruct (IH _ Hfind) as (Hle & f & Hi & Hsame & Hfirst).
    replace (i - k) with (S (i - S k)) by lia. split; [lia|].
    exists f. repeat split; try done.
    intros [|j] f' Hj Hf'; simpl in Hf'; [congruence|].
    apply (Hfirst j); [lia|done].
Qed.

Lemma lookupMethod_Ok ms pkg name :
  name ≠ "_" →
  lookupMethod IsExported ms pkg name = Ok (lookupMethodFrom IsExported 0 ms pkg name).
Proof. intros Hname. unfold lookupMethod. by rewrite bool_decide_eq_false_2. Qed.

End LookupFacts.

(** *** One depth of the search *)

Section ScanFacts.

Variable IsExported : string → bool.
Variable store : Store.
Variable pkg : Package.
Variable name : string.

Local Abbreviation denotes := (TypesSpec.denotes IsExported pkg name).
Local Abbreviation fieldsDeclare := (TypesSpec.fieldsDeclare IsExported pkg name).
Local Abbreviation underlyingDeclares := (TypesSpec.underlyingDeclares IsExported pkg name).
Local Abbreviation declares := (TypesSpec.declares IsExported store pkg name).
Local Abbreviation step := (TypesSpec.step IsExported pkg name).
Local Abbreviation entryDeclares := (TypesSpec.entryDeclares IsExported store pkg name).
Local Abbreviation steps := (TypesSpec.steps IsExported store pkg name).
Local Abbreviation shaped := (TypesSpec.shaped IsExported pkg name).
Local Abbreviation reached := (TypesSpec.reached IsExported store pkg name).
Local Abbreviation twoDeclare := (TypesSpec.twoDeclare IsExported store pkg name).
Local Abbreviation multipleDeclares :=
  (TypesSpec.multipleDeclares IsExported store pkg name).

Lemma step_refl e v : step e v v.
Proof.
  split; try done.
  - intros o H1 H2. congruence.
  - exists []. by rewrite app_nil_r.
Qed.

Lemma step_trans e v1 v2 v3 : step e v1 v2 → step e v2 v3 → step e v1 v3.
Proof.
  intros [K1 N1 F1 X1] [K2 N2 F2 X2]. split.
  - intros Hs. destruct (K1 Hs) as (E1 & E2 & E3).
    rewrite <-E1 in Hs. destruct (K2 Hs) as (E4 & E5 & E6). repeat split; congruence.
  - intros Hn. destruct (N2 Hn) as (E1 & E2 & E3).
    destruct (N1 E1) as (E4 & E5 & E6). repeat split; congruence.
  - intros o Hn Ho. destruct (v_obj v2) as [o2|] eqn:Ho2.
    + destruct K2 as (E1 & E2 & E3); [eauto|].
      destruct (F1 o2 Hn eq_refl) as (D & M & I & i & Hi).
      assert (o2 = o) as -> by congruence.
      split; [done|]. split; [done|]. split; [congruence|]. exists i. congruence.
    + apply F2; [done|done].
  - destruct X1 as (m1 & E1 & A1), X2 as (m2 & E2 & A2).
    exists (m1 ++ m2). split; [by rewrite E2, E1, app_assoc|]. by apply Forall_app.
Qed.

Lemma potentialMatch_Return e i o v :
  is_Some (v_obj v) ∨ e_multiples e = true →
  potentialMatch e i o v = Return (None, Some (concat (e_index e) i), v_indirect v).
Proof.
  intros Hcol. unfold potentialMatch.
  destruct Hcol as [Hobj| ->].
  - by rewrite bool_decide_eq_true_2.
  - by rewrite orb_true_r.
Qed.

Lemma potentialMatch_Continue e i o v :
  v_obj v = None → e_multiples e = false →
  potentialMatch e i o v =
    Continue (mkLocals (Some o) (Some (concat (e_index e) i)) (e_indirect e)
                (v_typ v) (v_seen v) (v_next v)).
Proof.
  intros Hobj Hmul. unfold potentialMatch.
  assert (Hn : ¬ is_Some (v_obj v)) by (rewrite Hobj; by intros [? ?]).
  by rewrite (bool_decide_eq_false_2 _ Hn), Hmul.
Qed.

Lemma potentialMatch_cases e i o v :
  (potentialMatch e i o v = Return (None, Some (concat (e_index e) i), v_indirect v)
   ∧ (is_Some (v_obj v) ∨ e_multiples e = true))
  ∨ (potentialMatch e i o v =
       Continue (mkLocals (Some o) (Some (concat (e_index e) i)) (e_indirect e)
                   (v_typ v) (v_seen v) (v_next v))
     ∧ v_obj v = None ∧ e_multiples e = false).
Proof.
  destruct (v_obj v) as [o'|] eqn:Hobj.
  - left. split; [apply potentialMatch_Return; left; rewrite Hobj; eauto|]. left. eauto.
  - destruct (e_multiples e) eqn:Hmul.
    + left. split; [apply potentialMatch_Return|]; by right.
    + right. split; [by apply potentialMatch_Continue|done].
Qed.

Lemma potentialMatch_step e i o v v' :
  denotes o → potentialMatch e i o v = Continue v' →
  step e v v' ∧ v_obj v' = Some o ∧ v_seen v' = v_seen v ∧ v_typ v' = v_typ v
  ∧ v_next v' = v_next v
  ∧ v_index v' = Some (concat (e_index e) i).
Proof.
  intros Hden Hrun.
  destruct (potentialMatch_cases e i o v) as [[Hr _]|(Hc & Hobj & Hmul)]; [congruence|].
  rewrite Hc in Hrun. injection Hrun as <-. simpl. split; [split; simpl|done].
  - rewrite Hobj. by intros [? ?].
  - done.
  - intros o' _ [= <-]. split; [done|]. split; [done|]. split; [done|]. eauto.
  - exists []. by rewrite app_nil_r.
Qed.

Lemma potentialMatch_collision e i o v r :
  potentialMatch e i o v = Return r → collision r.
Proof.
  intros Hrun.
  destruct (potentialMatch_cases e i o v) as [[Hr _]|(Hc & _)]; [|congruence].
  rewrite Hr in Hrun. injection Hrun as <-. red. eauto.
Qed.

Lemma potentialMatch_not_Panicked e i o v : potentialMatch e i o v ≠ Panicked.
Proof. unfold potentialMatch. by destruct (_ || _). Qed.

Lemma collectEmbedded_step e i f v :
  step e v (collectEmbedded e i f v)
  ∧ v_obj (collectEmbedded e i f v) = v_obj v
  ∧ v_seen (collectEmbedded e i f v) = v_seen v
  ∧ v_typ (collectEmbedded e i f v) = v_typ v.
Proof.
  unfold collectEmbedded.
  destruct (bool_decide (v_obj v = None) && f_anonymous f); [|by split; [apply step_refl|]].
  destruct (deref (f_typ f)) as [typ isPtr].
  destruct typ; try (by split; [apply step_refl|]).
  simpl. split; [|done]. split; simpl; try done.
  - intros o H1 H2. congruence.
  - eexists. split; [done|]. apply Forall_singleton.
    repeat split; simpl; eauto. apply length_concat.
Qed.

Lemma isMatch_denotes f :
  isMatch IsExported f pkg name = true → denotes (FieldObj f).
Proof.
  rewrite isMatch_sameIdent. intros Hm. by apply sameIdent_true in Hm.
Qed.

Lemma lookupMethodFrom_denotes ms i m :
  lookupMethodFrom IsExported 0 ms pkg name = Some (i, m) → denotes (FuncObj m).
Proof.
  intros Hm. apply lookupMethodFrom_Some in Hm as (_ & _ & Hm & _).
  by apply sameIdent_true in Hm.
Qed.

(** The loop over the fields of a struct. *)
Lemma scanFields_Continue e fields : ∀ i v v',
  scanFields IsExported pkg name e i fields v = Continue v' →
  step e v v' ∧ v_seen v' = v_seen v ∧ v_typ v' = v_typ v
  ∧ (v_obj v' = None → fieldsDeclare fields = false)
  ∧ (fieldsDeclare fields = false → v_obj v' = v_obj v).
Proof.
  induction fields as [|f fields IH]; intros i v v' Hrun; simpl in Hrun.
  - injection Hrun as <-. split; [apply step_refl|done].
  - simpl. destruct (isMatch IsExported f pkg name) eqn:Hf; simpl.
    + destruct (potentialMatch e i (FieldObj f) v) as [v1| |] eqn:Hpm; try done.
      apply potentialMatch_step in Hpm as (S1 & O1 & E1 & T1 & _); [|by apply isMatch_denotes].
      destruct (IH _ _ _ Hrun) as (S2 & E2 & T2 & _ & _).
      split; [by eapply step_trans|]. split; [congruence|]. split; [congruence|].
      split; [|done].
      intros Hnone. destruct S2 as [_ N2 _ _]. destruct (N2 Hnone). congruence.
    + destruct (collectEmbedded_step e i f v) as (S1 & O1 & E1 & T1).
      destruct (IH _ _ _ Hrun) as (S2 & E2 & T2 & D2 & K2).
      split; [by eapply step_trans|]. split; [congruence|]. split; [congruence|].
      split; [done|]. intros Hnd. rewrite K2; done.
Qed.

Lemma scanFields_Return e fields : ∀ i v r,
  scanFields IsExported pkg name e i fields v = Return r →
  collision r ∧ fieldsDeclare fields = true.
Proof.
  induction fields as [|f fields IH]; intros i v r Hrun; simpl in Hrun; [done|].
  simpl. destruct (isMatch IsExported f pkg name) eqn:Hf; simpl.
  - split; [|done].
    destruct (potentialMatch e i (FieldObj f) v) as [v1| |] eqn:Hpm; try done.
    + by destruct (IH _ _ _ Hrun).
    + injection Hrun as <-. by eapply potentialMatch_collision.
  - by apply IH in Hrun.
Qed.

Lemma scanFields_not_Panicked e fields : ∀ i v,
  scanFields IsExported pkg name e i fields v ≠ Panicked.
Proof.
  induction fields as [|f fields IH]; intros i v; simpl; [done|].
  destruct (isMatch IsExported f pkg name).
  - destruct (potentialMatch e i (FieldObj f) v) eqn:Hpm; try done.
    by apply potentialMatch_not_Panicked in Hpm.
  - apply IH.
Qed.

(** A matching field met while an object is already recorded, or in an
    entry that stands for several, makes the function return. *)
Lemma scanFields_collides e fields : ∀ i v,
  fieldsDeclare fields = true →
  is_Some (v_obj v) ∨ e_multiples e = true →
  ∃ r, scanFields IsExported pkg name e i fields v = Return r.
Proof.
  induction fields as [|f fields IH]; intros i v Hdecl Hcol; simpl in *; [done|].
  destruct (isMatch IsExported f pkg name) eqn:Hf; simpl in *.
  - rewrite potentialMatch_Return by done. eauto.
  - destruct (collectEmbedded_step e i f v) as (_ & O1 & _).
    apply IH; [done|]. by rewrite O1.
Qed.

Hypothesis Hname : name ≠ "_".

(** [step] reads the object, the index, the indirection and the next
    frontier only. *)
Lemma step_same e v0 v v' :
  v_obj v0 = v_obj v → v_index v0 = v_index v → v_indirect v0 = v_indirect v →
  v_next v0 = v_next v → step e v v' → step e v0 v'.
Proof.
  intros E1 E2 E3 E4 [K N F X]. split.
  - rewrite E1, E2, E3. exact K.
  - rewrite E1, E2, E3. exact N.
  - rewrite E1. exact F.
  - rewrite E4. exact X.
Qed.

(** The type switch on the underlying type. *)
Lemma scanUnderlying_Continue e v v' :
  scanUnderlying IsExported pkg name e v = Continue v' →
  step e v v' ∧ v_seen v' = v_seen v
  ∧ (v_obj v' = None → underlyingDeclares (v_typ v) = false)
  ∧ (underlyingDeclares (v_typ v) = false → v_obj v' = v_obj v)
  ∧ (v_next v' ≠ v_next v → ∃ fields, v_typ v = Struct fields).
Proof.
  unfold scanUnderlying, underlyingDeclares. intros Hrun.
  destruct (v_typ v) as [kind|base|fields|ms|sig|t] eqn:Htyp;
    try (injection Hrun as <-; split; [apply step_refl|done]).
  - apply scanFields_Continue in Hrun as (S1 & E1 & _ & D1 & K1).
    split; [done|]. split; [done|]. split; [done|]. split; [done|]. eauto.
  - rewrite lookupMethod_Ok in Hrun by done.
    destruct (lookupMethodFrom IsExported 0 ms pkg name) as [[i m]|] eqn:Hm.
    + apply potentialMatch_step in Hrun as (S1 & O1 & E1 & _ & X1 & _);
        [|by eapply lookupMethodFrom_denotes].
      split; [done|]. split; [done|]. split; [congruence|].
      split; [|done]. intros Hd. apply bool_decide_eq_false in Hd.
      destruct Hd. eauto.
    + injection Hrun as <-. split; [apply step_refl|].
      split; [done|]. split; [|done]. intros _. apply bool_decide_eq_false.
      by intros [? ?].
Qed.

Lemma scanUnderlying_Return e v r :
  scanUnderlying IsExported pkg name e v = Return r →
  collision r ∧ underlyingDeclares (v_typ v) = true.
Proof.
  unfold scanUnderlying, underlyingDeclares. intros Hrun.
  destruct (v_typ v) as [kind|base|fields|ms|sig|t] eqn:Htyp; try done.
  - by apply scanFields_Return in Hrun.
  - rewrite lookupMethod_Ok in Hrun by done.
    destruct (lookupMethodFrom IsExported 0 ms pkg name) as [[i m]|] eqn:Hm; [|done].
    split; [by eapply potentialMatch_collision|].
    apply bool_decide_eq_true. eauto.
Qed.

Lemma scanUnderlying_not_Panicked e v :
  scanUnderlying IsExported pkg name e v ≠ Panicked.
Proof.
  unfold scanUnderlying.
  destruct (v_typ v) as [kind|base|fields|ms|sig|t]; try done.
  - apply scanFields_not_Panicked.
  - rewrite lookupMethod_Ok by done.
    destruct (lookupMethodFrom IsExported 0 ms pkg name) as [[i m]|]; [|done].
    apply potentialMatch_not_Panicked.
Qed.

Lemma scanUnderlying_collides e v :
  underlyingDeclares (v_typ v) = true →
  is_Some (v_obj v) ∨ e_multiples e = true →
  ∃ r, scanUnderlying IsExported pkg name e v = Return r.
Proof.
  unfold scanUnderlying, underlyingDeclares. intros Hdecl Hcol.
  destruct (v_typ v) as [kind|base|fields|ms|sig|t]; try done.
  - by apply scanFields_collides.
  - rewrite lookupMethod_Ok by done. apply bool_decide_eq_true in Hdecl as [[i m] ->].
    rewrite potentialMatch_Return by done. eauto.
Qed.

Lemma scanEntry_skipped e v :
  skipped e v → scanEntry IsExported store pkg name e v = Continue v.
Proof.
  intros (t & Ht & Hseen). unfold scanEntry. rewrite Ht.
  by rewrite bool_decide_eq_true_2.
Qed.

Lemma scanEntry_Continue e v v' :
  scanEntry IsExported store pkg name e v = Continue v' →
  step e v v' ∧ v_seen v' = seenAfter e (v_seen v)
  ∧ (¬ skipped e v → v_obj v' = None → entryDeclares e v = false)
  ∧ (¬ skipped e v → entryDeclares e v = false → v_obj v' = v_obj v)
  ∧ (v_next v' ≠ v_next v →
       match e_typ e with
       | Some t => t ∉ v_seen v ∧ t ∈ dom store
       | None => True
       end).
Proof.
  unfold scanEntry, entryDeclares, skipped, seenAfter, declares. intros Hrun.
  destruct (e_typ e) as [t|] eqn:Ht.
  - case_bool_decide as Hseen.
    + injection Hrun as <-. split; [apply step_refl|]. split; [set_solver|].
      split; [|split; [|done]]; intros []; eauto.
    + rewrite lookupMethod_Ok in Hrun by done.
      destruct (lookupMethodFrom IsExported 0 (methods (named store t)) pkg name)
        as [[i m]|] eqn:Hm; simpl in *.
      * apply potentialMatch_step in Hrun as (S1 & O1 & E1 & _ & X1 & _);
          [|by eapply lookupMethodFrom_denotes].
        split; [by eapply step_same; [..|exact S1]|]. split; [done|].
        split; [congruence|]. split; [|done].
        intros _ Hd. done.
      * apply scanUnderlying_Continue in Hrun as (S1 & E1 & D1 & K1 & G1); simpl in *.
        split; [by eapply step_same; [..|exact S1]|]. split; [done|].
        split; [eauto|]. split; [eauto|].
        intros Hg. split; [done|]. destruct (G1 Hg) as [fields Hfields].
        apply elem_of_dom. unfold named in Hfields.
        destruct (store !! t); [eauto|done].
  - apply scanUnderlying_Continue in Hrun as (S1 & E1 & D1 & K1 & G1).
    split; [done|]. split; [done|]. split; [eauto|]. split; [eauto|done].
Qed.

Lemma scanEntry_Return e v r :
  scanEntry IsExported store pkg name e v = Return r →
  collision r ∧ ¬ skipped e v ∧ entryDeclares e v = true.
Proof.
  unfold scanEntry, entryDeclares, skipped, declares. intros Hrun.
  destruct (e_typ e) as [t|] eqn:Ht.
  - case_bool_decide as Hseen; [done|].
    assert (Hns : ¬ ∃ t0, Some t = Some t0 ∧ t0 ∈ v_seen v) by (by intros (? & [= <-] & ?)).
    rewrite lookupMethod_Ok in Hrun by done.
    destruct (lookupMethodFrom IsExported 0 (methods (named store t)) pkg name)
      as [[i m]|] eqn:Hm; simpl in *.
    + split; [by eapply potentialMatch_collision|]. done.
    + apply scanUnderlying_Return in Hrun as [Hc Hd]. simpl in Hd.
      split; [done|]. split; [done|]. done.
  - apply scanUnderlying_Return in Hrun as [Hc Hd].
    split; [done|]. split; [|done]. by intros (? & ? & ?).
Qed.

Lemma scanEntry_not_Panicked e v :
  scanEntry IsExported store pkg name e v ≠ Panicked.
Proof.
  unfold scanEntry. destruct (e_typ e) as [t|].
  - case_bool_decide; [done|]. rewrite lookupMethod_Ok by done.
    destruct (lookupMethodFrom IsExported 0 (methods (named store t)) pkg name)
      as [[i m]|].
    + apply potentialMatch_not_Panicked.
    + apply scanUnderlying_not_Panicked.
  - apply scanUnderlying_not_Panicked.
Qed.

(** An entry that declares the member, met while an object is already
    recorded or standing for several entries, makes the function return. *)
Lemma scanEntry_collides e v :
  ¬ skipped e v → entryDeclares e v = true →
  is_Some (v_obj v) ∨ e_multiples e = true →
  ∃ r, scanEntry IsExported store pkg name e v = Return r.
Proof.
  unfold scanEntry, entryDeclares, skipped, declares. intros Hns Hdecl Hcol.
  destruct (e_typ e) as [t|] eqn:Ht.
  - rewrite bool_decide_eq_false_2 by eauto.
    rewrite lookupMethod_Ok by done.
    destruct (lookupMethodFrom IsExported 0 (methods (named store t)) pkg name)
      as [[i m]|] eqn:Hm.
    + rewrite potentialMatch_Return by done. eauto.
    + apply scanUnderlying_collides; simpl; [|done]. exact Hdecl.
  - by apply scanUnderlying_collides.
Qed.

Lemma elem_of_namedOf t current :
  t ∈ namedOf current ↔ ∃ e, e ∈ current ∧ e_typ e = Some t.
Proof.
  unfold namedOf. rewrite elem_of_list_to_set, list_elem_of_omap. done.
Qed.

Lemma namedOf_cons e current seen :
  namedOf current ∪ seenAfter e seen = namedOf (e :: current) ∪ seen.
Proof.
  unfold namedOf, seenAfter. simpl. destruct (e_typ e); simpl; set_solver.
Qed.

Lemma scanCurrent_Continue current : ∀ v v',
  scanCurrent IsExported store pkg name current v = Continue v' →
  steps current v v'.
Proof.
  induction current as [|e current IH]; intros v v' Hrun; simpl in Hrun.
  { injection Hrun as <-. split; try done.
    - intros o H1 H2. congruence.
    - exists []. by rewrite app_nil_r.
    - unfold namedOf. simpl. set_solver. }
  destruct (scanEntry IsExported store pkg name e v) as [v1| |] eqn:He; try done.
  apply scanEntry_Continue in He as ([K1 N1 F1 X1] & E1 & D1 & _ & G1).
  destruct (IH _ _ Hrun) as [K2 N2 F2 X2 E2 D2 G2].
  assert (Hseen : v_seen v' = namedOf (e :: current) ∪ v_seen v).
  { rewrite E2, E1. apply namedOf_cons. }
  split.
  - intros Hs. destruct (K1 Hs) as (A1 & A2 & A3).
    rewrite <-A1 in Hs. destruct (K2 Hs) as (A4 & A5 & A6).
    split; [congruence|]. split; congruence.
  - intros Hn. destruct (N2 Hn) as (A1 & A2 & A3).
    destruct (N1 A1) as (A4 & A5 & A6).
    split; [congruence|]. split; congruence.
  - intros o Hn Ho. destruct (v_obj v1) as [o1|] eqn:Ho1.
    + destruct K2 as (A1 & A2 & A3); [eauto|].
      destruct (F1 o1 Hn eq_refl) as (Hd & Hm & Hi & i & Hidx).
      assert (o1 = o) as -> by congruence.
      split; [done|]. exists e. split; [left|]. split; [done|].
      split; [congruence|]. exists i. congruence.
    + destruct (F2 o eq_refl Ho) as (Hd & e' & Hin & Hrest).
      split; [done|]. exists e'. split; [by right|done].
  - destruct X1 as (m1 & A1 & B1), X2 as (m2 & A2 & B2).
    exists (m1 ++ m2). split; [by rewrite A2, A1, app_assoc|].
    apply Forall_app. split.
    + eapply Forall_impl; [exact B1|]. intros c Hc. exists e. split; [left|done].
    + eapply Forall_impl; [exact B2|]. intros c (e' & Hin & Hc).
      exists e'. split; [by right|done].
  - exact Hseen.
  - intros Hn t Ht Hnt. destruct (N2 Hn) as (Hn1 & _).
    destruct (decide (e_typ e = Some t)) as [Het|Het].
    + assert (Hns : ¬ skipped e v).
      { intros (t' & Ht' & Hs'). congruence. }
      specialize (D1 Hns Hn1). unfold entryDeclares in D1. by rewrite Het in D1.
    + apply D2; [done| |].
      * apply elem_of_namedOf in Ht as (e' & [->|Hin]%elem_of_cons & He'); [done|].
        apply elem_of_namedOf. eauto.
      * rewrite E1. unfold seenAfter. destruct (e_typ e) as [t'|]; [|done].
        intros [Heq%elem_of_singleton|?]%elem_of_union; [congruence|done].
  - intros Hg. destruct X1 as ([|c m1] & A1 & B1).
    + rewrite app_nil_r in A1. rewrite <-A1 in Hg.
      destruct (G2 Hg) as [(e' & Hin & He')|(t & Hdom & Hnt & Ht)].
      * left. exists e'. split; [by right|done].
      * right. exists t. split; [done|]. split; [|done].
        rewrite E1 in Hnt. unfold seenAfter in Hnt. destruct (e_typ e); set_solver.
    + assert (Hg1 : v_next v1 ≠ v_next v).
      { rewrite A1. intros Heq. apply (f_equal length) in Heq.
        rewrite length_app in Heq. simpl in Heq. lia. }
      specialize (G1 Hg1). destruct (e_typ e) as [t|] eqn:Het.
      * right. exists t. destruct G1 as [Hnt Hdom].
        split; [done|]. split; [done|]. rewrite Hseen.
        apply elem_of_union_l, elem_of_namedOf. exists e. split; [left|done].
      * left. exists e. split; [left|done].
Qed.

Lemma scanCurrent_Return current : ∀ v r,
  scanCurrent IsExported store pkg name current v = Return r → collision r.
Proof.
  induction current as [|e current IH]; intros v r Hrun; simpl in Hrun; [done|].
  destruct (scanEntry IsExported store pkg name e v) as [v1| |] eqn:He; try done.
  - eauto.
  - injection Hrun as <-. by apply scanEntry_Return in He as [? _].
Qed.

Lemma scanCurrent_not_Panicked current : ∀ v,
  scanCurrent IsExported store pkg name current v ≠ Panicked.
Proof.
  induction current as [|e current IH]; intros v; simpl; [done|].
  destruct (scanEntry IsExported store pkg name e v) as [v1| |] eqn:He; try done.
  by apply scanEntry_not_Panicked in He.
Qed.

(** Once an object is recorded, any later entry of an unseen type that
    declares the member is a collision. *)
Lemma scanCurrent_collides_obj current : ∀ v e t,
  is_Some (v_obj v) → e ∈ current → e_typ e = Some t → t ∉ v_seen v →
  declares t = true →
  ∃ r, scanCurrent IsExported store pkg name current v = Return r.
Proof.
  induction current as [|e0 current IH]; intros v e t Hobj Hin Het Hnt Hdecl.
  { by apply elem_of_nil in Hin. }
  simpl. destruct (scanEntry IsExported store pkg name e0 v) as [v1| |] eqn:He0.
  - destruct (decide (e_typ e0 = Some t)) as [Het0|Het0].
    + destruct (scanEntry_collides e0 v) as [r Hr]; [| |by left|congruence].
      * intros (t' & Ht' & Hs'). congruence.
      * unfold entryDeclares. by rewrite Het0.
    + apply scanEntry_Continue in He0 as ([K1 _ _ _] & E1 & _).
      apply elem_of_cons in Hin as [->|Hin]; [done|].
      apply (IH v1 e t); try done.
      * destruct (K1 Hobj) as (A1 & _). by rewrite A1.
      * rewrite E1. unfold seenAfter. destruct (e_typ e0) as [t'|]; [|done].
        intros [Heq%elem_of_singleton|?]%elem_of_union; [congruence|done].
  - eauto.
  - by apply scanEntry_not_Panicked in He0.
Qed.

(** An entry that stands for several and declares the member is a
    collision. *)
Lemma scanCurrent_collides_multiples current : ∀ v e t,
  NoDup (e_typ <$> current) → e ∈ current → e_typ e = Some t →
  e_multiples e = true → t ∉ v_seen v → declares t = true →
  ∃ r, scanCurrent IsExported store pkg name current v = Return r.
Proof.
  induction current as [|e0 current IH]; intros v e t Hnd Hin Het Hmul Hnt Hdecl.
  { by apply elem_of_nil in Hin. }
  simpl. rewrite fmap_cons in Hnd. apply NoDup_cons in Hnd as [Hfresh Hnd].
  apply elem_of_cons in Hin as [->|Hin].
  - destruct (scanEntry_collides e0 v) as [r Hr]; [| |by right|].
    + intros (t' & Ht' & Hs'). congruence.
    + unfold entryDeclares. by rewrite Het.
    + rewrite Hr. eauto.
  - destruct (scanEntry IsExported store pkg name e0 v) as [v1| |] eqn:He0.
    + apply scanEntry_Continue in He0 as (_ & E1 & _).
      apply (IH v1 e t); try done.
      rewrite E1. unfold seenAfter. destruct (e_typ e0) as [t'|] eqn:Het0; [|done].
      intros [Heq%elem_of_singleton|?]%elem_of_union; [|done].
      apply Hfresh. rewrite <-Heq, <-Het. by apply list_elem_of_fmap_2.
    + eauto.
    + by apply scanEntry_not_Panicked in He0.
Qed.

(** Two entries of unseen types that both declare the member are a
    collision. *)
Lemma scanCurrent_collides_two current : ∀ v i j e1 e2 t1 t2,
  NoDup (e_typ <$> current) → i ≠ j →
  current !! i = Some e1 → current !! j = Some e2 →
  e_typ e1 = Some t1 → e_typ e2 = Some t2 →
  t1 ∉ v_seen v → t2 ∉ v_seen v →
  declares t1 = true → declares t2 = true →
  ∃ r, scanCurrent IsExported store pkg name current v = Return r.
Proof.
  assert (Hhead : ∀ cur v e1 e2 t1 t2,
    NoDup (e_typ <$> e1 :: cur) → e2 ∈ cur →
    e_typ e1 = Some t1 → e_typ e2 = Some t2 →
    t1 ∉ v_seen v → t2 ∉ v_seen v → declares t1 = true → declares t2 = true →
    ∃ r, scanCurrent IsExported store pkg name (e1 :: cur) v = Return r).
  { intros cur v e1 e2 t1 t2 Hnd Hin He1 He2 Hn1 Hn2 Hd1 Hd2. simpl.
    rewrite fmap_cons in Hnd. apply NoDup_cons in Hnd as [Hfresh Hnd].
    destruct (scanEntry IsExported store pkg name e1 v) as [v1| |] eqn:Hrun.
    - apply scanEntry_Continue in Hrun as (_ & E1 & D1 & _).
      assert (Hns : ¬ skipped e1 v).
      { intros (t' & Ht' & Hs'). congruence. }
      apply (scanCurrent_collides_obj cur v1 e2 t2); try done.
      + destruct (v_obj v1) eqn:Ho; [eauto|].
        specialize (D1 Hns eq_refl). unfold entryDeclares in D1.
        rewrite He1 in D1. congruence.
      + rewrite E1. unfold seenAfter. rewrite He1.
        intros [Heq%elem_of_singleton|?]%elem_of_union; [|done].
        apply Hfresh. rewrite He1, <-Heq, <-He2. by apply list_elem_of_fmap_2.
    - eauto.
    - by apply scanEntry_not_Panicked in Hrun. }
  induction current as [|e0 current IH];
    intros v i j e1 e2 t1 t2 Hnd Hij Hi Hj He1 He2 Hn1 Hn2 Hd1 Hd2; [done|].
  destruct i as [|i], j as [|j]; simpl in Hi, Hj; try done.
  - injection Hi as ->. apply (Hhead current v e1 e2 t1 t2); try done.
    by eapply list_elem_of_lookup_2.
  - injection Hj as ->. apply (Hhead current v e2 e1 t2 t1); try done.
    by eapply list_elem_of_lookup_2.
  - simpl. pose proof Hnd as Hnd'.
    rewrite fmap_cons in Hnd'. apply NoDup_cons in Hnd' as [Hfresh Hnd'].
    destruct (scanEntry IsExported store pkg name e0 v) as [v1| |] eqn:Hrun.
    + apply scanEntry_Continue in Hrun as (_ & E1 & _).
      assert (Hother : ∀ e t, e ∈ current → e_typ e = Some t → t ∉ v_seen v →
                t ∉ v_seen v1).
      { intros e t Hin Het Hnt. rewrite E1. unfold seenAfter.
        destruct (e_typ e0) as [t'|] eqn:Het0; [|done].
        intros [Heq%elem_of_singleton|?]%elem_of_union; [|done].
        apply Hfresh. rewrite <-Heq, <-Het. by apply list_elem_of_fmap_2. }
      apply (IH v1 i j e1 e2 t1 t2); try done; [lia| |].
      * eapply Hother; [|done..]. by eapply list_elem_of_lookup_2.
      * eapply Hother; [|done..]. by eapply list_elem_of_lookup_2.
    + eauto.
    + by apply scanEntry_not_Panicked in Hrun.
Qed.

(** *** The loop over the depths *)

Lemma searchDepths_nil fuel v :
  searchDepths IsExported store pkg name fuel [] v = Ok (v_obj v, None, false).
Proof. by destruct fuel. Qed.

Lemma searchDepths_cons fuel e current v :
  searchDepths IsExported store pkg name (S fuel) (e :: current) v =
    match scanCurrent IsExported store pkg name (e :: current) (resetNext v) with
    | Continue v' =>
        match v_obj v' with
        | Some _ => Ok (v_obj v', v_index v', v_indirect v')
        | None =>
            searchDepths IsExported store pkg name fuel
              (consolidateMultiples (v_next v')) v'
        end
    | Return r => Ok r
    | Panicked => Panic
    end.
Proof. done. Qed.

(** More fuel does not change a result. *)
Lemma searchDepths_mono fuel : ∀ fuel' current v,
  fuel ≤ fuel' →
  searchDepths IsExported store pkg name fuel current v ≠ Exhausted →
  searchDepths IsExported store pkg name fuel' current v =
    searchDepths IsExported store pkg name fuel current v.
Proof.
  induction fuel as [|fuel IH]; intros fuel' current v Hle Hrun.
  - destruct current as [|e current]; [by rewrite !searchDepths_nil|done].
  - destruct fuel' as [|fuel']; [lia|].
    destruct current as [|e current]; [done|].
    rewrite !searchDepths_cons in *.
    destruct (scanCurrent IsExported store pkg name (e :: current) (resetNext v))
      as [v'| |]; try done.
    destruct (v_obj v'); [done|]. apply IH; [lia|done].
Qed.

Lemma searchDepths_agree fuel1 fuel2 current v r1 r2 :
  searchDepths IsExported store pkg name fuel1 current v = Ok r1 →
  searchDepths IsExported store pkg name fuel2 current v = Ok r2 →
  r1 = r2.
Proof.
  intros H1 H2.
  assert (Ok r1 = Ok r2) as [= ->]; [|done].
  rewrite <-H1, <-H2.
  rewrite <-(searchDepths_mono fuel1 (fuel1 `max` fuel2)) by (congruence || lia).
  rewrite <-(searchDepths_mono fuel2 (fuel1 `max` fuel2)) by (congruence || lia).
  done.
Qed.

Lemma next_allNamed current v v' :
  steps current (resetNext v) v' → allNamed (consolidateMultiples (v_next v')).
Proof.
  intros [_ _ _ (more & Hnext & Hmore) _ _ _]. simpl in Hnext. subst.
  apply consolidateMultiples_Forall.
  - intros e0 e (Ht & _). by rewrite Ht.
  - eapply Forall_impl; [exact Hmore|]. by intros c (e & _ & Hc & _).
Qed.

(** Enough fuel: every depth with a non-empty next frontier marks a named
    type of the store that was not seen before. *)
Lemma searchDepths_enough fuel : ∀ current v,
  allNamed current → size (dom store ∖ v_seen v) < fuel →
  ∃ r, searchDepths IsExported store pkg name fuel current v = Ok r.
Proof.
  induction fuel as [|fuel IH]; intros current v Hnamed Hfuel; [lia|].
  destruct current as [|e current]; [by eexists|].
  rewrite searchDepths_cons.
  destruct (scanCurrent IsExported store pkg name (e :: current) (resetNext v))
    as [v'|r|] eqn:Hscan.
  - destruct (v_obj v') eqn:Hobj; [by eexists|].
    pose proof (scanCurrent_Continue _ _ _ Hscan) as Hsteps.
    destruct (consolidateMultiples (v_next v')) as [|c next] eqn:Hnext.
    { rewrite searchDepths_nil. by eexists. }
    rewrite <-Hnext. apply IH; [by eapply next_allNamed|].
    destruct Hsteps as [_ _ _ _ Hseen _ Hgrows]. simpl in *.
    destruct Hgrows as [(e' & Hin & He')|(t & Hdom & Hnt & Ht)].
    + intros Hnil. rewrite Hnil in Hnext. done.
    + unfold allNamed in Hnamed. rewrite Forall_forall in Hnamed.
      apply Hnamed in Hin. rewrite He' in Hin. by destruct Hin.
    + assert (size (dom store ∖ v_seen v') < size (dom store ∖ v_seen v)); [|lia].
      apply subset_size. rewrite Hseen. split; [set_solver|].
      intros Hsub. specialize (Hsub t). set_solver.
  - by eexists.
  - by apply scanCurrent_not_Panicked in Hscan.
Qed.

(** The first frontier may hold a type that is not named, which costs one
    more iteration. *)
Lemma searchDepths_enough_first fuel current v :
  size store < fuel →
  ∃ r, searchDepths IsExported store pkg name (S fuel) current v = Ok r.
Proof.
  intros Hfuel. destruct current as [|e current]; [by eexists|].
  rewrite searchDepths_cons.
  destruct (scanCurrent IsExported store pkg name (e :: current) (resetNext v))
    as [v'|r|] eqn:Hscan.
  - destruct (v_obj v') eqn:Hobj; [by eexists|].
    apply scanCurrent_Continue in Hscan.
    apply searchDepths_enough; [by eapply next_allNamed|].
    eapply Nat.le_lt_trans; [|exact Hfuel].
    rewrite <-size_dom. apply subseteq_size. set_solver.
  - by eexists.
  - by apply scanCurrent_not_Panicked in Hscan.
Qed.

(** The shape of what the loop returns when it starts without an object. *)
Lemma searchDepths_shaped fuel : ∀ current v r,
  v_obj v = None →
  searchDepths IsExported store pkg name fuel current v = Ok r → shaped r.
Proof.
  induction fuel as [|fuel IH]; intros current v r Hobj Hrun.
  - destruct current; [|done]. simpl in Hrun. injection Hrun as <-.
    rewrite Hobj. by right; right.
  - destruct current as [|e current].
    { simpl in Hrun. injection Hrun as <-. rewrite Hobj. by right; right. }
    rewrite searchDepths_cons in Hrun.
    destruct (scanCurrent IsExported store pkg name (e :: current) (resetNext v))
      as [v'|r'|] eqn:Hscan; [| |done].
    + destruct (v_obj v') as [o|] eqn:Hobj'.
      * injection Hrun as <-. apply scanCurrent_Continue in Hscan as [_ _ F _ _ _ _].
        destruct (F o Hobj Hobj') as (Hd & e' & _ & _ & _ & i & Hi).
        left. exists o, (concat (e_index e') i), (v_indirect v').
        split; [by rewrite Hi|done].
      * by eapply IH.
    + injection Hrun as <-. right; left. by eapply scanCurrent_Return.
Qed.

(** *** Depths reached from a type *)

Variable typ : Type_.

Local Abbreviation reaches := (TypesSpec.reaches IsExported store pkg name typ).
Local Abbreviation reaches_start :=
  (TypesSpec.reaches_start IsExported store pkg name typ).
Local Abbreviation reaches_deeper :=
  (TypesSpec.reaches_deeper IsExported store pkg name typ).

Lemma reaches_reached d current v : reaches d current v → reached d current v.
Proof.
  induction 1 as [|d current v v' Hreach IH Hne Hscan Hobj].
  - unfold startEntry, startLocals. destruct (deref typ) as [typ' isPtr].
    split; simpl; try done.
    + by apply Forall_singleton.
    + apply NoDup_singleton.
  - destruct IH as [Io Ii Id Il In Iu].
    pose proof (scanCurrent_Continue _ _ _ Hscan) as [_ N _ (more & Hnext & Hmore) Hseen U _].
    simpl in *. destruct (N Hobj) as (_ & Hi & Hd).
    split; try congruence.
    + apply consolidateMultiples_Forall.
      * intros e0 e (_ & Hidx & _). by rewrite Hidx.
      * rewrite Hnext. eapply Forall_impl; [exact Hmore|].
        intros c (e & Hin & _ & Hlen & _). rewrite Hlen. f_equal.
        rewrite Forall_forall in Il. by apply Il.
    + by destruct (consolidateMultiples_consolidated (v_next v')).
    + intros t Ht. destruct (decide (t ∈ v_seen v)) as [Hs|Hs]; [eauto|].
      apply (U Hobj t); [|done]. set_solver.
Qed.

Lemma reaches_searchDepths d current v :
  reaches d current v → ∀ k,
  searchDepths IsExported store pkg name (d + k) [startEntry typ] (startLocals typ) =
    searchDepths IsExported store pkg name k current v.
Proof.
  induction 1 as [|d current v v' Hreach IH Hne Hscan Hobj]; intros k; [done|].
  replace (S d + k) with (d + S k) by lia. rewrite IH.
  destruct current as [|e current]; [done|].
  by rewrite searchDepths_cons, Hscan, Hobj.
Qed.

Lemma LookupFieldOrMethodFuel_unfold fuel :
  LookupFieldOrMethodFuel IsExported fuel store typ pkg name =
    searchDepths IsExported store pkg name fuel [startEntry typ] (startLocals typ).
Proof. unfold LookupFieldOrMethodFuel. by rewrite bool_decide_eq_false_2. Qed.

Lemma LookupFieldOrMethod_Ok :
  ∃ r, LookupFieldOrMethod IsExported store typ pkg name = Ok r.
Proof.
  unfold LookupFieldOrMethod. rewrite LookupFieldOrMethodFuel_unfold.
  replace (size store + 2) with (S (S (size store))) by lia.
  apply searchDepths_enough_first. lia.
Qed.

(** What the loop returns at a depth reached is what the function returns. *)
Lemma reaches_result d current v r :
  reaches d current v →
  searchDepths IsExported store pkg name 1 current v = Ok r →
  LookupFieldOrMethod IsExported store typ pkg name = Ok r
  ∧ ∀ fuel r', LookupFieldOrMethodFuel IsExported fuel store typ pkg name = Ok r' → r' = r.
Proof.
  intros Hreach Hrun.
  rewrite <-(reaches_searchDepths d current v Hreach 1) in Hrun.
  assert (Hall : ∀ fuel r',
    LookupFieldOrMethodFuel IsExported fuel store typ pkg name = Ok r' → r' = r).
  { intros fuel r'. rewrite LookupFieldOrMethodFuel_unfold. intros Hr'.
    by eapply searchDepths_agree. }
  split; [|done]. destruct LookupFieldOrMethod_Ok as [r' Hr'].
  rewrite Hr'. f_equal. by eapply Hall.
Qed.

(** Every result is produced at a depth reached. *)
Lemma result_at_reached_depth r :
  LookupFieldOrMethod IsExported store typ pkg name = Ok r →
  ∃ d current v,
    reaches d current v
    ∧ searchDepths IsExported store pkg name 1 current v = Ok r.
Proof.
  unfold LookupFieldOrMethod. rewrite LookupFieldOrMethodFuel_unfold.
  assert (Hgen : ∀ fuel d current v,
    reaches d current v →
    searchDepths IsExported store pkg name fuel current v = Ok r →
    ∃ d' current' v',
      reaches d' current' v'
      ∧ searchDepths IsExported store pkg name 1 current' v' = Ok r).
  { induction fuel as [|fuel IH]; intros d current v Hreach Hrun.
    - destruct current; [|done]. exists d, [], v. by rewrite searchDepths_nil in *.
    - destruct current as [|e current].
      { exists d, [], v. by rewrite searchDepths_nil in *. }
      rewrite searchDepths_cons in Hrun.
      destruct (scanCurrent IsExported store pkg name (e :: current) (resetNext v))
        as [v'|r'|] eqn:Hscan; [| |done].
      + destruct (v_obj v') as [o|] eqn:Hobj.
        * exists d, (e :: current), v. split; [done|].
          by rewrite searchDepths_cons, Hscan, Hobj.
        * eapply (IH (S d)); [|exact Hrun]. by eapply reaches_deeper.
      + exists d, (e :: current), v. split; [done|].
        by rewrite searchDepths_cons, Hscan. }
  apply (Hgen _ 0). constructor.
Qed.

Lemma fieldsDeclare_false fields :
  (∀ j f, fields !! j = Some f → isMatch IsExported f pkg name = false) →
  fieldsDeclare fields = false.
Proof.
  induction fields as [|f fields IH]; intros Hall; simpl; [done|].
  rewrite (Hall 0 f) by done. simpl. apply IH. intros j f' Hj. by apply (Hall (S j)).
Qed.

(** A struct with exactly one matching field. *)
Lemma scanFields_unique e fields : ∀ k v i f,
  v_obj v = None → e_multiples e = false →
  fields !! i = Some f → isMatch IsExported f pkg name = true →
  (∀ j f', j ≠ i → fields !! j = Some f' → isMatch IsExported f' pkg name = false) →
  ∃ v', scanFields IsExported pkg name e k fields v = Continue v'
    ∧ v_obj v' = Some (FieldObj f)
    ∧ v_index v' = Some (concat (e_index e) (k + i))
    ∧ v_indirect v' = e_indirect e.
Proof.
  induction fields as [|f0 fields IH]; intros k v i f Hobj Hmul Hi Hf Hothers; [done|].
  destruct i as [|i]; simpl in Hi; simpl.
  - injection Hi as ->. rewrite Hf, potentialMatch_Continue by done.
    set (v1 := mkLocals _ _ _ _ _ _).
    assert (Hnd : fieldsDeclare fields = false).
    { apply fieldsDeclare_false. intros j f' Hj. by apply (Hothers (S j)). }
    destruct (scanFields IsExported pkg name e (S k) fields v1) as [v'|r|] eqn:Hrun.
    + apply scanFields_Continue in Hrun as ([K _ _ _] & _ & _ & _ & Hkeep).
      destruct K as (A1 & A2 & A3); [by eexists|].
      exists v'. split; [done|]. rewrite A1, A2, A3. simpl. by rewrite Nat.add_0_r.
    + apply scanFields_Return in Hrun as [_ Hd]. congruence.
    + by apply scanFields_not_Panicked in Hrun.
  - rewrite (Hothers 0 f0) by done.
    destruct (collectEmbedded_step e k f0 v) as (_ & O1 & _).
    destruct (IH (S k) (collectEmbedded e k f0 v) i f) as (v' & Hrun & A1 & A2 & A3);
      try done; [congruence| |].
    + intros j f' Hj. apply (Hothers (S j)). lia.
    + exists v'. split; [done|]. split; [done|]. split; [|done].
      rewrite A2. do 2 f_equal. lia.
Qed.

(** C1. If the scan of the frontier at depth [d] finds a member and no
    collision, [LookupFieldOrMethod] returns that member with an index of
    length [d + 1], whatever the bound on the loop: no deeper member is
    ever returned. In particular a method declared by the type itself, or
    the only matching field of its struct, is returned with an index of
    length one, whatever the embedded fields hold. *)
Theorem shallowest_depth_wins :
  (∀ d current v v' o,
     reaches d current v →
     scanCurrent IsExported store pkg name current (resetNext v) = Continue v' →
     v_obj v' = Some o →
     LookupFieldOrMethod IsExported store typ pkg name
       = Ok (Some o, v_index v', v_indirect v')
     ∧ (∃ idx, v_index v' = Some idx ∧ length idx = S d)
     ∧ ∀ fuel r, LookupFieldOrMethodFuel IsExported fuel store typ pkg name = Ok r →
         r = (Some o, v_index v', v_indirect v'))
  ∧ (∀ t i m,
       asNamed (fst (deref typ)) = Some t →
       lookupMethodFrom IsExported 0 (methods (named store t)) pkg name = Some (i, m) →
       LookupFieldOrMethod IsExported store typ pkg name
         = Ok (Some (FuncObj m), Some [i], snd (deref typ)))
  ∧ (∀ fields i f,
       Underlying store (fst (deref typ)) = Struct fields →
       (∀ t, asNamed (fst (deref typ)) = Some t →
          lookupMethodFrom IsExported 0 (methods (named store t)) pkg name = None) →
       fields !! i = Some f →
       isMatch IsExported f pkg name = true →
       (∀ j f', j ≠ i → fields !! j = Some f' →
          isMatch IsExported f' pkg name = false) →
       LookupFieldOrMethod IsExported store typ pkg name
         = Ok (Some (FieldObj f), Some [i], snd (deref typ))).
Proof.
  assert (Hmain : ∀ d current v v' o,
     reaches d current v →
     scanCurrent IsExported store pkg name current (resetNext v) = Continue v' →
     v_obj v' = Some o →
     LookupFieldOrMethod IsExported store typ pkg name
       = Ok (Some o, v_index v', v_indirect v')
     ∧ (∃ idx, v_index v' = Some idx ∧ length idx = S d)
     ∧ ∀ fuel r, LookupFieldOrMethodFuel IsExported fuel store typ pkg name = Ok r →
         r = (Some o, v_index v', v_indirect v')).
  { intros d current v v' o Hreach Hscan Hobj.
    pose proof (reaches_reached _ _ _ Hreach) as [Io _ _ Il _ _].
    destruct current as [|e current].
    { simpl in Hscan. injection Hscan as <-. simpl in Hobj. congruence. }
    destruct (reaches_result d (e :: current) v (Some o, v_index v', v_indirect v') Hreach)
      as [Hres Hall].
    { by rewrite searchDepths_cons, Hscan, Hobj. }
    split; [done|]. split; [|done].
    apply scanCurrent_Continue in Hscan as [_ _ F _ _ _ _].
    destruct (F o Io Hobj) as (_ & e' & Hin & _ & _ & i & Hi).
    exists (concat (e_index e') i). split; [done|].
    rewrite length_concat. f_equal. rewrite Forall_forall in Il. by apply Il. }
  split; [exact Hmain|]. split.
  - intros t i m Ht Hm.
    destruct (Hmain 0 [startEntry typ] (startLocals typ)
      (mkLocals (Some (FuncObj m)) (Some [i]) (snd (deref typ)) (fst (deref typ)) {[t]} [])
      (FuncObj m)) as [Hres _]; [constructor| |done|done].
    unfold startEntry, startLocals. destruct (deref typ) as [typ' isPtr]. simpl in *.
    unfold scanEntry. simpl. rewrite Ht. rewrite bool_decide_eq_false_2 by set_solver.
    rewrite lookupMethod_Ok, Hm by done.
    rewrite potentialMatch_Continue by done. simpl.
    by rewrite union_empty_r_L.
  - intros fields i f Hunder Hnomethod Hi Hf Hothers.
    set (e := startEntry typ).
    assert (He : e_index e = [] ∧ e_multiples e = false ∧ e_indirect e = snd (deref typ)
                 ∧ e_typ e = asNamed (fst (deref typ))).
    { unfold e, startEntry. by destruct (deref typ). }
    destruct He as (Hidx & Hmul & Hind & Htyp).
    assert (∃ v', scanCurrent IsExported store pkg name [e] (resetNext (startLocals typ))
                    = Continue v'
                  ∧ v_obj v' = Some (FieldObj f) ∧ v_index v' = Some [i]
                  ∧ v_indirect v' = snd (deref typ)) as (v' & Hscan & A1 & A2 & A3).
    { simpl. unfold scanEntry. rewrite Htyp.
      destruct (asNamed (fst (deref typ))) as [t|] eqn:Ht.
      - rewrite bool_decide_eq_false_2 by (simpl; set_solver).
        rewrite lookupMethod_Ok, (Hnomethod t) by done.
        unfold scanUnderlying. simpl.
        assert (Hu : underlying (named store t) = Struct fields).
        { destruct (fst (deref typ)); try done. simpl in Ht, Hunder. congruence. }
        rewrite Hu.
        edestruct (scanFields_unique e fields 0) as (v' & Hrun & B1 & B2 & B3);
          [| |exact Hi|exact Hf|exact Hothers|]; [|done|]; [|rewrite Hrun; exists v'];
          [done|].
        rewrite B2, B3, Hidx, Hind. done.
      - unfold scanUnderlying. simpl.
        assert (Hu : fst (deref typ) = Struct fields).
        { destruct (fst (deref typ)); try done. }
        rewrite Hu.
        edestruct (scanFields_unique e fields 0) as (v' & Hrun & B1 & B2 & B3);
          [| |exact Hi|exact Hf|exact Hothers|]; [|done|]; [|rewrite Hrun; exists v'];
          [done|].
        rewrite B2, B3, Hidx, Hind. done. }
    destruct (Hmain 0 [e] (startLocals typ) v' (FieldObj f)) as [Hres _];
      [constructor|done|done|]. by rewrite Hres, A2, A3.
Qed.

Lemma reaches_collision d current v :
  reaches d current v →
  twoDeclare current ∨ multipleDeclares current →
  ∃ idx ind,
    LookupFieldOrMethod IsExported store typ pkg name = Ok (None, Some idx, ind)
    ∧ ∀ fuel r, LookupFieldOrMethodFuel IsExported fuel store typ pkg name = Ok r →
        r = (None, Some idx, ind).
Proof.
  intros Hreach Hcases.
  pose proof (reaches_reached _ _ _ Hreach) as [_ _ _ _ Hnd Hund].
  assert (Hunseen : ∀ t, declares t = true → t ∉ v_seen (resetNext v)).
  { intros t Hd Hs. apply Hund in Hs. congruence. }
  assert (∃ r, scanCurrent IsExported store pkg name current (resetNext v) = Return r)
    as [r Hscan].
  { destruct Hcases as [(i & j & e1 & e2 & t1 & t2 & Hij & Hi & Hj & H1 & H2 & D1 & D2)
                       |(e & t & Hin & Ht & Hm & Hd)].
    - eapply scanCurrent_collides_two; eauto.
    - eapply scanCurrent_collides_multiples; eauto. }
  destruct (scanCurrent_Return _ _ _ Hscan) as (idx & ind & ->).
  exists idx, ind. apply (reaches_result d current v); [done|].
  destruct current as [|e current]; [done|].
  by rewrite searchDepths_cons, Hscan.
Qed.


(** The [multiples] flag is how a named type embedded along two paths of
    the same depth becomes ambiguous: if the entries collected for the
    next depth hold the same declaring type twice, the result is
    ambiguous. *)
Lemma duplicate_paths_are_ambiguous d current v v' i j a b t :
  reaches d current v →
  scanCurrent IsExported store pkg name current (resetNext v) = Continue v' →
  v_obj v' = None →
  i ≠ j → v_next v' !! i = Some a → v_next v' !! j = Some b →
  e_typ a = Some t → e_typ b = Some t → declares t = true →
  ∃ idx ind,
    LookupFieldOrMethod IsExported store typ pkg name = Ok (None, Some idx, ind).
Proof.
  intros Hreach Hscan Hobj Hij Ha Hb Hta Htb Hd.
  assert (Hne : current ≠ []).
  { intros ->. simpl in Hscan. injection Hscan as <-. done. }
  pose proof (reaches_deeper _ _ _ _ Hreach Hne Hscan Hobj) as Hdeeper.
  destruct (consolidateMultiples_consolidated (v_next v')) as [_ _ _ Hflag].
  destruct (Hflag i j a b) as (e & Hin & Hte & Hme); [done..|congruence|].
  destruct (reaches_collision _ _ _ Hdeeper) as (idx & ind & Hres & _); [|eauto].
  right. exists e, t. split; [done|]. split; [congruence|done].
Qed.

End ScanFacts.

(** *** The function as a whole *)

Section FunctionFacts.

Variable IsExported : string → bool.
Variable store : Store.

Lemma LookupFieldOrMethodFuel_blank fuel typ pkg :
  LookupFieldOrMethodFuel IsExported fuel store typ pkg "_" = Ok (None, None, false).
Proof. done. Qed.

Lemma LookupFieldOrMethodFuel_shaped fuel typ pkg name r :
  LookupFieldOrMethodFuel IsExported fuel store typ pkg name = Ok r →
  shaped IsExported pkg name r.
Proof.
  destruct (decide (name = "_")) as [->|Hname].
  - rewrite LookupFieldOrMethodFuel_blank. intros [= <-]. by right; right.
  - rewrite LookupFieldOrMethodFuel_unfold by done.
    by apply searchDepths_shaped.
Qed.

Lemma LookupFieldOrMethod_returns typ pkg name :
  ∃ r, LookupFieldOrMethod IsExported store typ pkg name = Ok r
    ∧ ∀ fuel, size store + 2 ≤ fuel →
        LookupFieldOrMethodFuel IsExported fuel store typ pkg name = Ok r.
Proof.
  destruct (decide (name = "_")) as [->|Hname].
  - exists (None, None, false). split; [done|]. intros fuel _.
    apply LookupFieldOrMethodFuel_blank.
  - destruct (LookupFieldOrMethod_Ok IsExported store pkg name Hname typ) as [r Hr].
    exists r. split; [done|]. intros fuel Hfuel.
    unfold LookupFieldOrMethod in Hr.
    rewrite LookupFieldOrMethodFuel_unfold in * by done.
    rewrite <-Hr. apply searchDepths_mono; [done|congruence].
Qed.

(** C3. For every store of named types, cyclic or not, and every type and
    selector, [LookupFieldOrMethod] returns: the loop ends within its
    bound, without a panic, for this and every larger bound with the same
    result, which is a member, an ambiguity or "not found". A named type
    that was seen is skipped by [scanEntry], and a named type that was
    scanned is seen from then on, so no named type is expanded twice. *)
Theorem LookupFieldOrMethod_terminates typ pkg name :
  (∃ r, LookupFieldOrMethod IsExported store typ pkg name = Ok r
     ∧ (∀ fuel, size store + 2 ≤ fuel →
          LookupFieldOrMethodFuel IsExported fuel store typ pkg name = Ok r)
     ∧ ((∃ o idx ind, r = (Some o, Some idx, ind))
        ∨ (∃ idx ind, r = (None, Some idx, ind))
        ∨ r = (None, None, false)))
  ∧ (∀ e v t, e_typ e = Some t → t ∈ v_seen v →
       scanEntry IsExported store pkg name e v = Continue v)
  ∧ (∀ e v v' t, e_typ e = Some t →
       scanEntry IsExported store pkg name e v = Continue v' →
       t ∈ v_seen v' ∧ v_seen v ⊆ v_seen v').
Proof.
  split; [|split].
  - destruct (LookupFieldOrMethod_returns typ pkg name) as (r & Hr & Hall).
    exists r. split; [done|]. split; [done|].
    destruct (LookupFieldOrMethodFuel_shaped _ _ _ _ _ Hr)
      as [(o & idx & ind & -> & _)|[(idx & ind & ->)| ->]]; eauto 10.
  - intros e v t Ht Hseen. apply scanEntry_skipped. by exists t.
  - intros e v v' t Ht. unfold scanEntry. rewrite Ht. case_bool_decide as Hseen.
    + intros [= <-]. done.
    + destruct (decide (name = "_")) as [->|Hname]; [done|]. intros Hrun.
      assert (Hentry : scanEntry IsExported store pkg name e v = Continue v').
      { unfold scanEntry. rewrite Ht. by rewrite bool_decide_eq_false_2. }
      apply scanEntry_Continue in Hentry as (_ & Hs & _); [|done].
      rewrite Hs. unfold seenAfter. rewrite Ht. set_solver.
Qed.

(** C9. A result without object and without index has [indirect] false. *)
Theorem not_found_resets_indirect typ pkg name indirect :
  LookupFieldOrMethod IsExported store typ pkg name = Ok (None, None, indirect) →
  indirect = false.
Proof.
  intros Hr. apply LookupFieldOrMethodFuel_shaped in Hr.
  destruct Hr as [(o & idx & ind & [=] & _)|[(idx & ind & [=])|[=]]]. done.
Qed.

End FunctionFacts.

(** *** [MissingMethod] *)

Section MissingMethodFacts.

Variable IsExported : string → bool.
Variable IsIdentical : Type_ → Type_ → bool.
Variable store : Store.

Local Abbreviation interfaceVerdict :=
  (TypesSpec.interfaceVerdict IsExported IsIdentical).
Local Abbreviation concreteVerdict :=
  (TypesSpec.concreteVerdict IsExported IsIdentical store).
Local Abbreviation methodVerdict :=
  (TypesSpec.methodVerdict IsExported IsIdentical store).

Lemma missingInterface_firstOffending ityp T :
  missingInterface IsExported IsIdentical ityp T
    = firstOffending (interfaceVerdict ityp) T.
Proof.
  induction T as [|m T IH]; simpl; [done|]. unfold interfaceVerdict.
  destruct (lookupMethod IsExported ityp (m_pkg m) (m_name m)) as [[[i obj]|]| |];
    try done.
  simpl. by destruct (IsIdentical (Sig (m_typ obj)) (Sig (m_typ m))).
Qed.

Lemma missingConcrete_firstOffending typ T :
  missingConcrete IsExported IsIdentical store typ T
    = firstOffending (concreteVerdict typ) T.
Proof.
  induction T as [|m T IH]; simpl; [done|]. unfold concreteVerdict.
  destruct (LookupFieldOrMethod IsExported store typ (m_pkg m) (m_name m))
    as [[[[[fld|f]|] idx] ind]| |]; try done.
  simpl. destruct (notInMethodSet f ind); [done|].
  by destruct (IsIdentical (Sig (m_typ f)) (Sig (m_typ m))).
Qed.

Lemma MissingMethod_firstOffending typ T :
  MissingMethod IsExported IsIdentical store typ T
    = firstOffending (methodVerdict typ) T.
Proof.
  unfold MissingMethod. destruct T as [|m T]; [done|].
  unfold IsEmpty, methodVerdict.
  destruct (Underlying store typ);
    by rewrite ?missingInterface_firstOffending, ?missingConcrete_firstOffending.
Qed.

Lemma firstOffending_satisfied verdictOf pre rest :
  Forall (λ m, verdictOf m = Ok Satisfied) pre →
  firstOffending verdictOf (pre ++ rest) = firstOffending verdictOf rest.
Proof.
  induction 1 as [|m pre Hm _ IH]; simpl; [done|]. by rewrite Hm.
Qed.

Lemma firstOffending_Ok verdictOf T o b :
  firstOffending verdictOf T = Ok (o, b) →
  match o with
  | None => b = false ∧ Forall (λ m, verdictOf m = Ok Satisfied) T
  | Some m =>
      ∃ pre post, T = pre ++ m :: post
        ∧ Forall (λ m', verdictOf m' = Ok Satisfied) pre
        ∧ verdictOf m = Ok (if b then WrongType else Missing)
  end.
Proof.
  induction T as [|m0 T IH]; simpl.
  - intros [= <- <-]. by split.
  - destruct (verdictOf m0) as [[]| |] eqn:Hm0; try done.
    + intros Hrun. specialize (IH Hrun). destruct o as [m|].
      * destruct IH as (pre & post & -> & Hpre & Hm).
        exists (m0 :: pre), post. split; [done|]. split; [by constructor|done].
      * destruct IH as [-> Hall]. split; [done|]. by constructor.
    + intros [= <- <-]. exists [], T. by repeat split.
    + intros [= <- <-]. exists [], T. by repeat split.
Qed.

Lemma concreteVerdict_not_Panic typ m :
  ∃ w, concreteVerdict typ m = Ok w.
Proof.
  unfold concreteVerdict.
  destruct (LookupFieldOrMethod_returns IsExported store typ (m_pkg m) (m_name m))
    as ([[[[fld|f]|] idx] ind] & -> & _); eauto.
  destruct (notInMethodSet f ind); [eauto|].
  destruct (IsIdentical (Sig (m_typ f)) (Sig (m_typ m))); eauto.
Qed.

Lemma interfaceVerdict_not_Panic ityp m :
  m_name m ≠ "_" → ∃ w, interfaceVerdict ityp m = Ok w.
Proof.
  intros Hname. unfold interfaceVerdict. rewrite lookupMethod_Ok by done.
  destruct (lookupMethodFrom IsExported 0 ityp (m_pkg m) (m_name m)) as [[i obj]|]; eauto.
  destruct (IsIdentical (Sig (m_typ obj)) (Sig (m_typ m))); eauto.
Qed.

Lemma firstOffending_returns verdictOf T :
  Forall (λ m, ∃ w, verdictOf m = Ok w) T →
  ∃ r, firstOffending verdictOf T = Ok r.
Proof.
  induction 1 as [|m T [w Hw] _ IH]; simpl; [eauto|].
  rewrite Hw. destruct w; eauto.
Qed.

(** C5. [MissingMethod] returns [(nil, false)] for an interface without
    required methods. In general it returns what the specification
    describes: the first required method, in the order of [T], that is not
    satisfied, with the flag [true] when the verdict on that method is a
    wrong type and [false] when it is missing; [(nil, false)] exactly when
    every required method is satisfied. The verdict on a method against a
    concrete type is a wrong type exactly when the selector resolves to a
    method of the method set whose signature is not identical, and missing
    exactly when the selector resolves to no object, to a field, or to a
    method outside the method set; against an interface it is a wrong
    type exactly when the method set has the name with a signature that
    is not identical, and missing exactly when it lacks the name. It
    always returns when no required method is named ["_"]. A method is
    outside the method set exactly when it has a receiver whose type is a
    pointer and the selector resolved without indirection. *)
Theorem MissingMethod_first_offending typ T :
  MissingMethod IsExported IsIdentical store typ [] = Ok (None, false)
  ∧ MissingMethod IsExported IsIdentical store typ T
      = firstOffending (methodVerdict typ) T
  ∧ (∀ b, MissingMethod IsExported IsIdentical store typ T = Ok (None, b) ↔
       b = false ∧ Forall (λ m, methodVerdict typ m = Ok Satisfied) T)
  ∧ (∀ m b, MissingMethod IsExported IsIdentical store typ T = Ok (Some m, b) →
       ∃ pre post, T = pre ++ m :: post
         ∧ Forall (λ m', methodVerdict typ m' = Ok Satisfied) pre
         ∧ methodVerdict typ m = Ok (if b then WrongType else Missing))
  ∧ (∀ m, concreteVerdict typ m = Ok WrongType ↔
       ∃ f idx ind,
         LookupFieldOrMethod IsExported store typ (m_pkg m) (m_name m)
           = Ok (Some (FuncObj f), idx, ind)
         ∧ notInMethodSet f ind = false
         ∧ IsIdentical (Sig (m_typ f)) (Sig (m_typ m)) = false)
  ∧ (∀ m, concreteVerdict typ m = Ok Missing ↔
       (∃ idx ind, LookupFieldOrMethod IsExported store typ (m_pkg m) (m_name m)
                     = Ok (None, idx, ind))
       ∨ (∃ fld idx ind,
            LookupFieldOrMethod IsExported store typ (m_pkg m) (m_name m)
              = Ok (Some (FieldObj fld), idx, ind))
       ∨ (∃ f idx ind,
            LookupFieldOrMethod IsExported store typ (m_pkg m) (m_name m)
              = Ok (Some (FuncObj f), idx, ind)
            ∧ notInMethodSet f ind = true))
  ∧ (∀ ityp m, m_name m ≠ "_" →
       (interfaceVerdict ityp m = Ok WrongType ↔
          ∃ i obj, lookupMethodFrom IsExported 0 ityp (m_pkg m) (m_name m) = Some (i, obj)
            ∧ IsIdentical (Sig (m_typ obj)) (Sig (m_typ m)) = false)
       ∧ (interfaceVerdict ityp m = Ok Missing ↔
            lookupMethodFrom IsExported 0 ityp (m_pkg m) (m_name m) = None))
  ∧ (Forall (λ m, m_name m ≠ "_") T →
       ∃ r, MissingMethod IsExported IsIdentical store typ T = Ok r)
  ∧ (∀ f indirect, notInMethodSet f indirect = true ↔
       ∃ v base, recv (m_typ f) = Some v ∧ var_typ v = Pointer base
         ∧ indirect = false).
Proof.
  split; [done|]. split; [apply MissingMethod_firstOffending|].
  rewrite MissingMethod_firstOffending.
  split; [|split; [|split; [|split; [|split; [|split]]]]].
  - intros b. split.
    + intros Hrun. by apply firstOffending_Ok in Hrun.
    + intros [-> Hall]. rewrite <-(app_nil_r T). by rewrite firstOffending_satisfied.
  - intros m b Hrun. by apply firstOffending_Ok in Hrun.
  - intros m. unfold concreteVerdict.
    destruct (LookupFieldOrMethod IsExported store typ (m_pkg m) (m_name m))
      as [[[[[fld|f]|] idx] ind]| |]; try (split; [done|by intros (?&?&?&?&?)]).
    destruct (notInMethodSet f ind) eqn:Hset.
    { split; [done|]. intros (?&?&?&[= <- _ <-]&?&?). congruence. }
    destruct (IsIdentical (Sig (m_typ f)) (Sig (m_typ m))) eqn:Hid.
    { split; [done|]. intros (?&?&?&[= <- _ _]&?&?). congruence. }
    split; [|done]. intros _. by exists f, idx, ind.
  - intros m. unfold concreteVerdict.
    destruct (LookupFieldOrMethod IsExported store typ (m_pkg m) (m_name m))
      as [[[[[fld|f]|] idx] ind]| |].
    + split; [|done]. intros _. right; left. by exists fld, idx, ind.
    + destruct (notInMethodSet f ind) eqn:Hset.
      { split; [|done]. intros _. right; right. by exists f, idx, ind. }
      split.
      * by destruct (IsIdentical (Sig (m_typ f)) (Sig (m_typ m))).
      * intros [(?&?&?)|[(?&?&?&?)|(?&?&?&[= <- _ <-]&?)]]; try done. congruence.
    + split; [|done]. intros _. left. by exists idx, ind.
    + split; [done|]. by intros [(?&?&?)|[(?&?&?&?)|(?&?&?&?&?)]].
    + split; [done|]. by intros [(?&?&?)|[(?&?&?&?)|(?&?&?&?&?)]].
  - intros ityp m Hname. unfold interfaceVerdict. rewrite lookupMethod_Ok by done.
    destruct (lookupMethodFrom IsExported 0 ityp (m_pkg m) (m_name m)) as [[i obj]|].
    + destruct (IsIdentical (Sig (m_typ obj)) (Sig (m_typ m))) eqn:Hid.
      * split; (split; [done|]); [|done]. intros (?&?&[= _ <-]&?). congruence.
      * split; (split; [|done]); [|done]. intros _. by exists i, obj.
    + split; [|done]. split; [done|]. by intros (?&?&?&?).
  - intros Hnames. apply firstOffending_returns.
    eapply Forall_impl; [exact Hnames|]. intros m Hm. unfold methodVerdict.
    destruct (Underlying store typ);
      (apply concreteVerdict_not_Panic || by apply interfaceVerdict_not_Panic).
  - intros f indirect. unfold notInMethodSet. destruct (recv (m_typ f)) as [v|].
    + destruct (var_typ v) as [kind|base|fields|ms|sig|t] eqn:Hv, indirect; simpl;
        split; try done; try (by intros (? & ? & [= <-] & ? & ?); congruence).
      intros _. by exists v, base.
    + split; [done|]. by intros (? & ? & ? & _).
Qed.


End MissingMethodFacts.

(** *** The scenarios of the specification *)

Example lookup_M_on_S :
  LookupFieldOrMethod asciiIsExported storeS (NamedT 1) pkgP "M"
    = Ok (Some (FuncObj methodM), Some [0; 0], false).
Proof. vm_compute. reflexivity. Qed.

Example lookup_X_on_S :
  LookupFieldOrMethod asciiIsExported storeS (NamedT 1) pkgP "X"
    = Ok (Some (FieldObj fieldX), Some [1], false).
Proof. vm_compute. reflexivity. Qed.

Example lookup_in_cycle :
  LookupFieldOrMethod asciiIsExported storeCycle (NamedT 1) pkgP "z"
    = Ok (None, None, false)
  ∧ LookupFieldOrMethod asciiIsExported storeCycle (NamedT 1) pkgP "y"
    = Ok (Some (FieldObj (mkField "y" pkgP int false)), Some [0; 1], false)
  ∧ LookupFieldOrMethod asciiIsExported storeCycle (Pointer (NamedT 2)) pkgP "B"
    = Ok (Some (FieldObj (mkField "B" pkgP (NamedT 2) true)), Some [0; 0], true).
Proof. vm_compute. done. Qed.

Example lookup_x_on_D :
  LookupFieldOrMethod asciiIsExported storeD (NamedT 3) pkgP "x"
    = Ok (None, Some [1; 0], false)
  ∧ LookupFieldOrMethod asciiIsExported storeD (NamedT 4) pkgP "x"
    = Ok (None, Some [0; 0], false).
Proof. vm_compute. done. Qed.

Example MissingMethod_on_N :
  MissingMethod asciiIsExported sameArity storeN (NamedT 1) [requiredB]
    = Ok (Some requiredB, false)
  ∧ MissingMethod asciiIsExported sameArity storeN (Pointer (NamedT 1)) [requiredB]
    = Ok (None, false)
  ∧ MissingMethod asciiIsExported sameArity storeN (NamedT 1) []
    = Ok (None, false).
Proof. vm_compute. done. Qed.



Lemma not_found_resets_indirect_witness :
  LookupFieldOrMethod asciiIsExported storeS (NamedT 1) pkgP "Y" = Ok (None, None, false)
  ∧ false = false.
Proof.
  assert (Hrun : LookupFieldOrMethod asciiIsExported storeS (NamedT 1) pkgP "Y"
                 = Ok (None, None, false)) by (vm_compute; reflexivity).
  split; [exact Hrun|].
  exact (not_found_resets_indirect asciiIsExported storeS (NamedT 1) pkgP "Y" false Hrun).
Defined.

Lemma shallowest_depth_wins_witness :
  LookupFieldOrMethod asciiIsExported storeS (NamedT 1) pkgP "M"
    = Ok (Some (FuncObj methodM), Some [0; 0], false)
  ∧ LookupFieldOrMethod asciiIsExported storeS (NamedT 1) pkgP "X"
    = Ok (Some (FieldObj fieldX), Some [1], false).
Proof.
  split.
  - edestruct (proj1 (shallowest_depth_wins asciiIsExported storeS pkgP "M"
                        ltac:(discriminate) (NamedT 1))) as [Hres _].
    + eapply reaches_deeper; [apply reaches_start|discriminate| |].
      * vm_compute. reflexivity.
      * reflexivity.
    + vm_compute. reflexivity.
    + reflexivity.
    + exact Hres.
  - apply (proj2 (proj2 (shallowest_depth_wins asciiIsExported storeS pkgP "X"
                           ltac:(discriminate) (NamedT 1)))
             [mkField "Embedded" pkgP (NamedT 2) true; fieldX] 1 fieldX).
    + reflexivity.
    + intros t [= <-]. reflexivity.
    + reflexivity.
    + reflexivity.
    + intros [|[|j]] f' Hj Hf'; simpl in Hf'; try done. by injection Hf' as <-.
Defined.


End TypesFacts.

(** ** Laws of the import graph *)

Module ImportgraphLaws.
Import Importgraph ImportgraphSpec ImportgraphFacts.

Lemma wellFormed_empty : wellFormed ∅.
Proof. intros x edges. by rewrite lookup_empty. Qed.

Lemma wellFormed_addEdge g a b : wellFormed g → wellFormed (addEdge g a b).
Proof.
  intros Hg x edges. rewrite addEdge_lookup.
  destruct (decide (a = x)) as [<-|Hne]; [|apply Hg].
  intros [= <-]. split.
  - apply insert_non_empty.
  - intros y v. destruct (decide (b = y)) as [<-|Hby].
    + rewrite lookup_insert_eq. congruence.
    + rewrite lookup_insert_ne by done. unfold successors.
      destruct (g !! a) as [edges|] eqn:Ha; simpl.
      * by apply (Hg a edges).
      * by rewrite lookup_empty.
Qed.

Lemma wellFormed_consume st e :
  wellFormed (forward st) → wellFormed (reverse st) →
  wellFormed (forward (consume st e)) ∧ wellFormed (reverse (consume st e)).
Proof.
  intros Hf Hr. destruct e as [path err|from to]; simpl; [done|].
  case_bool_decide; simpl; [done|]. split; by apply wellFormed_addEdge.
Qed.

Lemma wellFormed_foldl events : ∀ st,
  wellFormed (forward st) → wellFormed (reverse st) →
  wellFormed (forward (foldl consume st events))
  ∧ wellFormed (reverse (foldl consume st events)).
Proof.
  induction events as [|e events IH]; intros st Hf Hr; simpl; [done|].
  destruct (wellFormed_consume st e Hf Hr). by apply IH.
Qed.

Lemma wellFormed_Build events :
  wellFormed (forward (Build events)) ∧ wellFormed (reverse (Build events)).
Proof. apply wellFormed_foldl; apply wellFormed_empty. Qed.

(** Two graphs in this form with the same edges are the same map. *)
Lemma wellFormed_ext g1 g2 :
  wellFormed g1 → wellFormed g2 → (∀ x y, edge g1 x y ↔ edge g2 x y) → g1 = g2.
Proof.
  assert (Hle : ∀ g1 g2 x edges, wellFormed g1 → wellFormed g2 →
    (∀ x y, edge g1 x y ↔ edge g2 x y) → g1 !! x = Some edges →
    ∃ edges', g2 !! x = Some edges' ∧ ∀ y, edges !! y = edges' !! y).
  { intros h1 h2 x edges H1 H2 Hedge Hx.
    destruct (H1 x edges Hx) as [Hne Htrue].
    apply map_choose in Hne as (y & b & Hy).
    assert (Hxy : edge h2 x y) by (apply Hedge; exists edges; eauto).
    destruct Hxy as (edges' & Hx' & _). exists edges'. split; [done|].
    destruct (H2 x edges' Hx') as [_ Htrue'].
    intros z. destruct (edges !! z) as [c|] eqn:Hz, (edges' !! z) as [c'|] eqn:Hz'.
    - by rewrite (Htrue z c), (Htrue' z c').
    - assert (Hxz : edge h2 x z) by (apply Hedge; exists edges; eauto).
      destruct Hxz as (e2 & He2 & [? Hz2]). congruence.
    - assert (Hxz : edge h1 x z) by (apply Hedge; exists edges'; eauto).
      destruct Hxz as (e1 & He1 & [? Hz1]). congruence.
    - done. }
  intros H1 H2 Hedge. apply map_eq. intros x.
  destruct (g1 !! x) as [edges|] eqn:Hx.
  - destruct (Hle g1 g2 x edges H1 H2 Hedge Hx) as (edges' & -> & Heq).
    f_equal. by apply map_eq.
  - destruct (g2 !! x) as [edges'|] eqn:Hx'; [|done].
    destruct (Hle g2 g1 x edges' H2 H1) as (edges & Hx2 & _); [|done|congruence].
    intros a b. by rewrite Hedge.
Qed.

(** X1. [addEdge g from to] adds the edge from [from] to [to] and no
    other: the edges of the new graph are those of [g] and this one, also
    when [from] had no entry (the nil map); the value stored for [to] is
    [true]; the entries of the other nodes are unchanged; and adding the
    same edge again changes nothing. *)
Theorem addEdge_adds_one_edge (g : Graph) (from to : string) :
  (∀ x y, edge (addEdge g from to) x y ↔ edge g x y ∨ (x = from ∧ y = to))
  ∧ (∀ edges, addEdge g from to !! from = Some edges → edges !! to = Some true)
  ∧ (∀ x, x ≠ from → addEdge g from to !! x = g !! x)
  ∧ addEdge (addEdge g from to) from to = addEdge g from to.
Proof.
  split; [intros x y; apply addEdge_edge|]. split; [|split].
  - intros edges. rewrite addEdge_lookup, decide_True by done.
    intros [= <-]. apply lookup_insert_eq.
  - intros x Hx. by rewrite addEdge_lookup, decide_False.
  - apply map_eq. intros x. rewrite !addEdge_lookup.
    destruct (decide (from = x)) as [<-|Hne]; [|done].
    unfold successors at 1. rewrite addEdge_lookup, decide_True by done. simpl.
    by rewrite insert_insert_eq.
Qed.

(** X2. Whatever events the channel delivers, the forward graph of
    [Build] has an edge from [x] to [y] exactly when an import of [y] by
    [x] was received and [y] is not ["C"]; the reverse graph is its
    transpose; in both graphs every node with an entry has a successor
    and every stored value is [true]; so a package has an entry in the
    forward graph exactly when it imports something other than ["C"]. *)
Theorem Build_forward_and_reverse (events : list event) :
  (∀ x y, edge (forward (Build events)) x y ↔ importEdge x y ∈ events ∧ y ≠ "C")
  ∧ (∀ x y, edge (reverse (Build events)) y x ↔ edge (forward (Build events)) x y)
  ∧ (∀ x edges, forward (Build events) !! x = Some edges →
       edges ≠ ∅ ∧ ∀ y b, edges !! y = Some b → b = true)
  ∧ (∀ y edges, reverse (Build events) !! y = Some edges →
       edges ≠ ∅ ∧ ∀ x b, edges !! x = Some b → b = true)
  ∧ (∀ x, is_Some (forward (Build events) !! x) ↔
       ∃ y, importEdge x y ∈ events ∧ y ≠ "C").
Proof.
  destruct (wellFormed_Build events) as [Hf Hr].
  split; [|split; [|split; [|split]]]; [| |done|done|].
  - intros x y. apply Build_edges.
  - intros x y. destruct (Build_edges events x y) as [Hfw Hrv]. by rewrite Hfw, Hrv.
  - intros x. split.
    + intros [edges Hx]. destruct (Hf x edges Hx) as [Hne _].
      apply map_choose in Hne as (y & b & Hy). exists y.
      apply (proj1 (Build_edges events x y)). exists edges. eauto.
    + intros (y & Hy). apply (proj1 (Build_edges events x y)) in Hy as (edges & Hx & _).
      eauto.
Qed.

(** X3. The graphs of [Build] depend only on the set of import edges
    received: neither the order in which the goroutines deliver them, nor
    repetitions, nor the path errors in between change the forward or the
    reverse graph. *)
Theorem Build_order_independent (events events' : list event) :
  (∀ x y, importEdge x y ∈ events ↔ importEdge x y ∈ events') →
  forward (Build events) = forward (Build events')
  ∧ reverse (Build events) = reverse (Build events').
Proof.
  intros Hsame. split.
  - apply wellFormed_ext; try apply wellFormed_Build.
    intros x y. rewrite !(proj1 (Build_edges _ x y)). unfold imports. by rewrite Hsame.
  - apply wellFormed_ext; try apply wellFormed_Build.
    intros y x. rewrite !(proj2 (Build_edges _ x y)). unfold imports. by rewrite Hsame.
Qed.

(** The error map of [Build] after the events. *)
Lemma foldl_consume_errors_None events : ∀ st,
  errors (foldl consume st events) = None ↔
    errors st = None ∧ ∀ path err, pathError path err ∉ events.
Proof.
  induction events as [|e events IH]; intros st; simpl.
  - split; [|by intros [? _]]. intros Hst. split; [done|].
    intros path err Hin. by apply elem_of_nil in Hin.
  - rewrite IH. destruct e as [path err|from to]; simpl.
    + split; [by intros [? _]|]. intros [_ Hno]. destruct (Hno path err). left.
    + assert (Herr : errors (if bool_decide (to = "C") then st
                 else mkBuildState (addEdge (forward st) from to)
                        (addEdge (reverse st) to from) (errors st)) = errors st)
        by (by case_bool_decide).
      rewrite Herr. split; intros [Hst Hno]; (split; [done|]); intros path err Hin.
      * apply elem_of_cons in Hin as [?|Hin]; [done|]. by apply (Hno path err).
      * apply (Hno path err). by right.
Qed.

Lemma Build_snoc events e : Build (events ++ [e]) = consume (Build events) e.
Proof. unfold Build. by rewrite foldl_app. Qed.

Lemma Build_errors_lookup events : ∀ m path err,
  errors (Build events) = Some m →
  (m !! path = Some err ↔
     ∃ pre post, events = pre ++ pathError path err :: post
       ∧ ∀ err', pathError path err' ∉ post).
Proof.
  induction events as [|e events IH] using rev_ind; intros m path err Hm; [done|].
  rewrite Build_snoc in Hm.
  assert (Hkeep : ∀ from to, e = importEdge from to →
    errors (consume (Build events) e) = errors (Build events)).
  { intros from to ->. simpl. by case_bool_decide. }
  assert (Hlast : ∀ pre post x, events ++ [e] = pre ++ x :: post →
    (post = [] ∧ pre = events ∧ x = e)
    ∨ ∃ post', post = post' ++ [e] ∧ events = pre ++ x :: post').
  { intros pre post x Heq. destruct (decide (post = [])) as [->|Hne].
    - left. apply app_inj_tail in Heq as [-> ->]. done.
    - right. destruct (exists_last Hne) as (post' & y & ->).
      rewrite app_comm_cons, app_assoc in Heq.
      apply app_inj_tail in Heq as [-> ->]. eauto. }
  destruct e as [p perr|from to].
  - simpl in Hm. injection Hm as <-. destruct (decide (p = path)) as [->|Hp].
    + rewrite lookup_insert_eq. split.
      * intros [= ->]. exists events, []. split; [done|].
        intros err' Hin. by apply elem_of_nil in Hin.
      * intros (pre & post & Heq & Hno).
        destruct (Hlast _ _ _ Heq) as [(_ & _ & [= ->])|(post' & -> & _)]; [done|].
        destruct (Hno perr). apply elem_of_app. right. left.
    + rewrite lookup_insert_ne by done.
      destruct (errors (Build events)) as [m0|] eqn:Hm0.
      * rewrite (IH m0 path err eq_refl). split.
        -- intros (pre & post & -> & Hno). exists pre, (post ++ [pathError p perr]).
           split; [by rewrite <-app_assoc|].
           intros err' [Hin|Hin%list_elem_of_singleton]%elem_of_app; [by eapply Hno|].
           congruence.
        -- intros (pre & post & Heq & Hno).
           destruct (Hlast _ _ _ Heq) as [(_ & _ & [=])|(post' & -> & ->)]; [done|].
           exists pre, post'. split; [done|]. intros err' Hin.
           apply (Hno err'). apply elem_of_app. by left.
      * rewrite lookup_empty. split; [done|]. intros (pre & post & Heq & Hno).
        destruct (Hlast _ _ _ Heq) as [(_ & _ & [=])|(post' & -> & ->)]; [done|].
        apply foldl_consume_errors_None in Hm0 as [_ Hnone].
        destruct (Hnone path err). apply elem_of_app. right. left.
  - rewrite (Hkeep from to eq_refl) in Hm. rewrite (IH m path err Hm). split.
    + intros (pre & post & -> & Hno). exists pre, (post ++ [importEdge from to]).
      split; [by rewrite <-app_assoc|].
      intros err' [Hin|Hin%list_elem_of_singleton]%elem_of_app; [by eapply Hno|done].
    + intros (pre & post & Heq & Hno).
      destruct (Hlast _ _ _ Heq) as [(_ & _ & [=])|(post' & -> & ->)].
      exists pre, post'. split; [done|]. intros err' Hin.
      apply (Hno err'). apply elem_of_app. by left.
Qed.

(** X4. The error map of [Build] is nil exactly when no path error was
    received; otherwise it maps a path to the error of the last path
    error received for it, and has an entry for no other path. *)
Theorem Build_errors (events : list event) :
  (errors (Build events) = None ↔ ∀ path err, pathError path err ∉ events)
  ∧ (∀ m path err, errors (Build events) = Some m →
       (m !! path = Some err ↔
          ∃ pre post, events = pre ++ pathError path err :: post
            ∧ ∀ err', pathError path err' ∉ post)).
Proof.
  split; [|apply Build_errors_lookup].
  unfold Build. rewrite foldl_consume_errors_None. simpl. naive_solver.
Qed.

(** The events of a workspace. *)
Lemma delivers_importEdge pkgs events x y :
  delivers pkgs events → importEdge x y ∈ events ↔ lists pkgs x y.
Proof.
  intros Hd. rewrite (Hd (importEdge x y)). unfold lists, packageEvents. split.
  - intros (path & err & bp & Hin & He). destruct err as [err|].
    { by apply list_elem_of_singleton in He. }
    destruct bp as [|err|imps timps ximps].
    + by apply elem_of_nil in He.
    + by apply list_elem_of_singleton in He.
    + assert (Hfrom : ∀ l : list string, importEdge x y ∈ importEdge path <$> l → path = x ∧ y ∈ l).
      { intros l (z & [= -> ->] & Hz)%list_elem_of_fmap. done. }
      rewrite !elem_of_app in He.
      destruct He as [He|[He|He]]; apply Hfrom in He as [-> Hy];
        exists imps, timps, ximps; eauto.
  - intros (imps & timps & ximps & Hin & Hy).
    exists x, None, (Imported imps timps ximps). split; [done|].
    rewrite !elem_of_app, !list_elem_of_fmap. naive_solver.
Qed.

Lemma delivers_pathError pkgs events path err :
  delivers pkgs events → pathError path err ∈ events ↔ fails pkgs path err.
Proof.
  intros Hd. rewrite (Hd (pathError path err)). unfold fails, packageEvents. split.
  - intros (p & e & bp & Hin & He). destruct e as [e|].
    { apply list_elem_of_singleton in He as [= -> ->]. left. eauto. }
    destruct bp as [|e|imps timps ximps].
    + by apply elem_of_nil in He.
    + apply list_elem_of_singleton in He as [= -> ->]. by right.
    + rewrite !elem_of_app, !list_elem_of_fmap in He. naive_solver.
  - intros [[bp Hin]|Hin].
    + exists path, (Some err), bp. split; [done|]. by apply list_elem_of_singleton.
    + exists path, None, (ImportFailed err). split; [done|].
      by apply list_elem_of_singleton.
Qed.

Lemma last_pathError path l :
  (∃ e, pathError path e ∈ l) →
  ∃ e pre post, l = pre ++ pathError path e :: post
    ∧ ∀ e', pathError path e' ∉ post.
Proof.
  induction l as [|x l IH] using rev_ind; intros [e He].
  { by apply elem_of_nil in He. }
  assert (Hother : (∀ e', x ≠ pathError path e') →
    ∃ e pre post, l ++ [x] = pre ++ pathError path e :: post
      ∧ ∀ e', pathError path e' ∉ post).
  { intros Hx.
    apply elem_of_app in He as [He|He%list_elem_of_singleton]; [|by destruct (Hx e)].
    destruct IH as (e0 & pre & post & -> & Hno); [eauto|].
    exists e0, pre, (post ++ [x]). split; [by rewrite <-app_assoc|].
    intros e' [Hin|Hin%list_elem_of_singleton]%elem_of_app; [by eapply Hno|].
    by destruct (Hx e'). }
  destruct x as [p e'|from to]; [|by apply Hother].
  destruct (decide (p = path)) as [->|Hp]; [|apply Hother; congruence].
  exists e', l, []. split; [done|]. intros e'' H''. by apply elem_of_nil in H''.
Qed.

(** X5. When the channel delivers the events of the producers of a
    workspace, in any interleaving, the forward graph has an edge from [x]
    to [y] exactly when the package [x] loads and lists [y], other than
    ["C"], among its imports, its test imports or its external test
    imports; the reverse graph has the opposite edges; the error map is
    nil exactly when no package fails to load, and otherwise has an entry
    exactly for the packages that fail. A directory without Go files
    neither fails nor lists anything. *)
Theorem Build_of_workspace (pkgs : workspace) (events : list event) :
  delivers pkgs events →
  (∀ x y, edge (forward (Build events)) x y ↔ lists pkgs x y ∧ y ≠ "C")
  ∧ (∀ x y, edge (reverse (Build events)) y x ↔ lists pkgs x y ∧ y ≠ "C")
  ∧ (errors (Build events) = None ↔ ∀ path err, ¬ fails pkgs path err)
  ∧ (∀ m path, errors (Build events) = Some m →
       (is_Some (m !! path) ↔ ∃ err, fails pkgs path err)).
Proof.
  intros Hd. split; [|split; [|split]].
  - intros x y. rewrite (proj1 (Build_edges events x y)). unfold imports.
    by rewrite (delivers_importEdge pkgs events x y Hd).
  - intros x y. rewrite (proj2 (Build_edges events x y)). unfold imports.
    by rewrite (delivers_importEdge pkgs events x y Hd).
  - unfold Build. rewrite foldl_consume_errors_None. simpl. split.
    + intros [_ Hno] path err Hf. apply (Hno path err).
      by apply (delivers_pathError pkgs events path err Hd).
    + intros Hno. split; [done|]. intros path err Hin.
      apply (Hno path err). by apply (delivers_pathError pkgs events path err Hd).
  - intros m path Hm. split.
    + intros [err Herr]. exists err.
      apply (Build_errors_lookup events m path err Hm) in Herr as (pre & post & -> & _).
      apply (delivers_pathError pkgs _ path err Hd). apply elem_of_app. right. left.
    + intros [err Hf]. apply (delivers_pathError pkgs events path err Hd) in Hf.
      destruct (last_pathError path events) as (e & pre & post & Heq & Hno); [eauto|].
      exists e. apply (Build_errors_lookup events m path e Hm). eauto.
Qed.

Section SearchLaws.

Variable rangeKeys : gmap string bool → list string.
Hypothesis rangeKeys_spec : ∀ m y, y ∈ rangeKeys m ↔ is_Some (m !! y).

(** [Search] returns the marks of the nodes reachable from a root. *)
Lemma Search_closure g roots :
  ∃ seen, Search rangeKeys g roots = Some seen
    ∧ allTrue seen
    ∧ ∀ y, marked seen y ↔ ∃ r, r ∈ roots ∧ rtc (edge g) r y.
Proof.
  destruct (Search_visitedAll rangeKeys rangeKeys_spec g roots)
    as (seen & Hrun & [Hm Hs Hc Hr Ht]).
  exists seen. split; [done|]. split; [apply Ht, allTrue_empty|].
  intros y. split.
  - intros Hy. destruct (Hr y Hy) as [Hy0|?]; [|done]. by apply marked_empty in Hy0.
  - intros (r & Hin & Hrtc). apply Hs in Hin.
    induction Hrtc as [x|x y z Hxy _ IH]; [done|].
    apply IH. apply (Hc x y); [done|apply marked_empty|done].
Qed.

End SearchLaws.

Lemma marked_ext s1 s2 :
  allTrue s1 → allTrue s2 → (∀ y, marked s1 y ↔ marked s2 y) → s1 = s2.
Proof.
  intros H1 H2 Hsame. apply map_eq. intros y.
  specialize (Hsame y). rewrite !marked_lookup in Hsame.
  destruct (s1 !! y) as [b1|] eqn:E1, (s2 !! y) as [b2|] eqn:E2; try done.
  - by rewrite (H1 y b1), (H2 y b2).
  - rewrite (H1 y b1 E1) in Hsame. destruct Hsame as [Hs _]. by specialize (Hs eq_refl).
  - rewrite (H2 y b2 E2) in Hsame. destruct Hsame as [_ Hs]. by specialize (Hs eq_refl).
Qed.

Lemma keysInReverse_spec (m : gmap string bool) y :
  y ∈ keysInReverse m ↔ is_Some (m !! y).
Proof. unfold keysInReverse. rewrite elem_of_reverse. apply keysInOrder_spec. Qed.

(** X6. The result of [Search] depends neither on the order in which
    [range] enumerates the successors of a node, nor on the order or the
    repetitions of the roots. *)
Theorem Search_order_independent
    (rangeKeys1 rangeKeys2 : gmap string bool → list string)
    (g : Graph) (roots roots' : list string) :
  (∀ m y, y ∈ rangeKeys1 m ↔ is_Some (m !! y)) →
  (∀ m y, y ∈ rangeKeys2 m ↔ is_Some (m !! y)) →
  (∀ r, r ∈ roots ↔ r ∈ roots') →
  Search rangeKeys1 g roots = Search rangeKeys2 g roots'.
Proof.
  intros Hspec1 Hspec2 Hroots.
  destruct (Search_closure rangeKeys1 Hspec1 g roots) as (s1 & -> & Ht1 & Hm1).
  destruct (Search_closure rangeKeys2 Hspec2 g roots') as (s2 & -> & Ht2 & Hm2).
  f_equal. apply marked_ext; [done..|].
  intros y. rewrite Hm1, Hm2. by setoid_rewrite Hroots.
Qed.

Lemma allTrue_union s1 s2 : allTrue s1 → allTrue s2 → allTrue (s1 ∪ s2).
Proof.
  intros H1 H2 y b [Hy|[_ Hy]]%lookup_union_Some_raw; eauto.
Qed.

Lemma marked_union s1 s2 y :
  allTrue s1 → marked (s1 ∪ s2) y ↔ marked s1 y ∨ marked s2 y.
Proof.
  intros H1. rewrite !marked_lookup, lookup_union_Some_raw. split.
  - intros [?|[_ ?]]; eauto.
  - intros [?|Hy]; [by left|]. destruct (s1 !! y) as [b|] eqn:E; [|by right].
    left. f_equal. eauto.
Qed.

(** X7. [Search] from the roots [roots1 ++ roots2] returns the union of
    the results for [roots1] and for [roots2], and [Search] from the keys
    of a result returns that result again. *)
Theorem Search_union (rangeKeys : gmap string bool → list string)
    (g : Graph) (roots1 roots2 : list string) :
  (∀ m y, y ∈ rangeKeys m ↔ is_Some (m !! y)) →
  ∃ seen1 seen2,
    Search rangeKeys g roots1 = Some seen1
    ∧ Search rangeKeys g roots2 = Some seen2
    ∧ Search rangeKeys g (roots1 ++ roots2) = Some (seen1 ∪ seen2)
    ∧ Search rangeKeys g (rangeKeys seen1) = Some seen1.
Proof.
  intros Hspec.
  destruct (Search_closure rangeKeys Hspec g roots1) as (s1 & Hs1 & Ht1 & Hm1).
  destruct (Search_closure rangeKeys Hspec g roots2) as (s2 & Hs2 & Ht2 & Hm2).
  destruct (Search_closure rangeKeys Hspec g (roots1 ++ roots2)) as (s & Hs & Ht & Hm).
  destruct (Search_closure rangeKeys Hspec g (rangeKeys s1)) as (s' & Hs' & Ht' & Hm').
  exists s1, s2. split; [done|]. split; [done|]. split.
  - rewrite Hs. f_equal. apply marked_ext; [done|by apply allTrue_union|].
    intros y. rewrite marked_union, Hm, Hm1, Hm2 by done.
    setoid_rewrite elem_of_app. naive_solver.
  - rewrite Hs'. f_equal. apply marked_ext; [done..|].
    intros y. rewrite Hm'. split.
    + intros (r & Hr & Hrtc). apply Hspec in Hr as [b Hb].
      assert (Hmr : marked s1 r).
      { apply marked_lookup. rewrite Hb. f_equal. eauto. }
      apply Hm1 in Hmr as (r0 & Hr0 & Hrtc0). apply Hm1. exists r0.
      split; [done|]. by etrans.
    + intros Hy. exists y. split; [|done]. apply Hspec.
      apply marked_lookup in Hy. eauto.
Qed.

Lemma rtc_transpose (g g' : Graph) :
  (∀ x y, edge g' y x ↔ edge g x y) →
  ∀ x y, rtc (edge g) x y → rtc (edge g') y x.
Proof.
  intros Ht x y Hrtc. induction Hrtc as [x|x y z Hxy _ IH]; [done|].
  eapply rtc_r; [exact IH|]. by apply Ht.
Qed.

(** X8. On the graphs of [Build], [Search] in the reverse graph is
    the converse of [Search] in the forward graph: [y] is reached from [x]
    in the forward graph exactly when [x] is reached from [y] in the
    reverse graph. *)
Theorem Search_reverse_is_converse (rangeKeys : gmap string bool → list string)
    (events : list event) (x y : string) :
  (∀ m z, z ∈ rangeKeys m ↔ is_Some (m !! z)) →
  ∃ below above,
    Search rangeKeys (forward (Build events)) [x] = Some below
    ∧ Search rangeKeys (reverse (Build events)) [y] = Some above
    ∧ (below !! y = Some true ↔ above !! x = Some true).
Proof.
  intros Hspec.
  destruct (Search_closure rangeKeys Hspec (forward (Build events)) [x])
    as (s1 & Hs1 & Ht1 & Hm1).
  destruct (Search_closure rangeKeys Hspec (reverse (Build events)) [y])
    as (s2 & Hs2 & Ht2 & Hm2).
  exists s1, s2. split; [done|]. split; [done|].
  rewrite <-!marked_lookup, Hm1, Hm2.
  assert (Ht : ∀ a b, edge (reverse (Build events)) b a ↔ edge (forward (Build events)) a b).
  { intros a b. destruct (Build_edges events a b) as [Hf Hr]. by rewrite Hf, Hr. }
  split.
  - intros (r & ->%list_elem_of_singleton & Hrtc). exists y.
    split; [by apply list_elem_of_singleton|]. by eapply rtc_transpose.
  - intros (r & ->%list_elem_of_singleton & Hrtc). exists x.
    split; [by apply list_elem_of_singleton|].
    eapply rtc_transpose; [|exact Hrtc]. intros a b. by rewrite Ht.
Qed.

(** *** Instances *)

Lemma delivers_workspaceEvents pkgs : delivers pkgs (workspaceEvents pkgs).
Proof.
  intros e. unfold workspaceEvents. rewrite list_elem_of_bind. split.
  - intros ([[path err] bp] & He & Hin). by exists path, err, bp.
  - intros (path & err & bp & Hin & He). by exists (path, err, bp).
Qed.

Lemma Build_order_independent_witness :
  forward (Build workspace_abc)
    = forward (Build (list.reverse workspace_abc ++ workspace_abc))
  ∧ reverse (Build workspace_abc)
    = reverse (Build (list.reverse workspace_abc ++ workspace_abc)).
Proof.
  apply (Build_order_independent workspace_abc
           (list.reverse workspace_abc ++ workspace_abc)).
  intros x y. rewrite elem_of_app, elem_of_reverse. tauto.
Defined.

Lemma Build_of_workspace_witness :
  (∀ x y, edge (forward (Build (workspaceEvents workspace_abcdef))) x y ↔
     lists workspace_abcdef x y ∧ y ≠ "C")
  ∧ (∀ x y, edge (reverse (Build (workspaceEvents workspace_abcdef))) y x ↔
       lists workspace_abcdef x y ∧ y ≠ "C")
  ∧ (errors (Build (workspaceEvents workspace_abcdef)) = None ↔
       ∀ path err, ¬ fails workspace_abcdef path err)
  ∧ (∀ m path, errors (Build (workspaceEvents workspace_abcdef)) = Some m →
       (is_Some (m !! path) ↔ ∃ err, fails workspace_abcdef path err)).
Proof.
  apply (Build_of_workspace workspace_abcdef (workspaceEvents workspace_abcdef)).
  apply delivers_workspaceEvents.
Defined.

Example Build_abcdef_errors :
  errors (Build (workspaceEvents workspace_abcdef))
    = Some (list_to_map [("e", "permission denied"); ("f", "syntax error")])
  ∧ forward (Build (workspaceEvents workspace_abcdef)) = forward (Build workspace_abc).
Proof. vm_compute. done. Qed.

Lemma Search_order_independent_witness :
  Search keysInOrder (forward (Build workspace_abc)) ["a"; "c"]
    = Search keysInReverse (forward (Build workspace_abc)) ["c"; "a"; "c"].
Proof.
  apply (Search_order_independent keysInOrder keysInReverse).
  - apply keysInOrder_spec.
  - apply keysInReverse_spec.
  - intros r. rewrite !elem_of_cons. tauto.
Defined.

Lemma Search_union_witness :
  ∃ seen1 seen2,
    Search keysInOrder (forward (Build workspace_abc)) ["b"] = Some seen1
    ∧ Search keysInOrder (forward (Build workspace_abc)) ["a"] = Some seen2
    ∧ Search keysInOrder (forward (Build workspace_abc)) (["b"] ++ ["a"])
        = Some (seen1 ∪ seen2)
    ∧ Search keysInOrder (forward (Build workspace_abc)) (keysInOrder seen1)
        = Some seen1.
Proof.
  apply (Search_union keysInOrder (forward (Build workspace_abc)) ["b"] ["a"]).
  apply keysInOrder_spec.
Defined.

Lemma Search_reverse_is_converse_witness :
  ∃ below above,
    Search keysInOrder (forward (Build workspace_abc)) ["a"] = Some below
    ∧ Search keysInOrder (reverse (Build workspace_abc)) ["c"] = Some above
    ∧ (below !! "c" = Some true ↔ above !! "a" = Some true).
Proof.
  apply (Search_reverse_is_converse keysInOrder workspace_abc "a" "c").
  apply keysInOrder_spec.
Defined.

End ImportgraphLaws.

(** ** Laws of field and method lookup *)

Module TypesLaws.
Import Types TypesSpec TypesFacts.

(** *** [consolidateMultiples], exactly *)

Lemma consolidating_distinct l0 arr k n prev p q x y :
  consolidating l0 arr k n prev →
  p < n → q < n → arr !! p = Some x → arr !! q = Some y → e_typ x = e_typ y → p = q.
Proof.
  intros [_ _ _ Hprev _ _ _] Hp Hq Hx Hy Hxy.
  assert (prev !! e_typ x = Some p) by (apply Hprev; eauto).
  assert (prev !! e_typ x = Some q) by (apply Hprev; split; [done|]; eauto).
  congruence.
Qed.

Lemma consolidating_fresh l0 arr k n prev e :
  consolidating l0 arr k n prev → prev !! e_typ e = None →
  (∀ p x, p < n → arr !! p = Some x → e_typ x ≠ e_typ e)
  ∧ (∀ j a, j < k → l0 !! j = Some a → e_typ a ≠ e_typ e).
Proof.
  intros [_ _ _ Hprev _ Hcover _] Hnone.
  assert (Hfresh : ∀ p x, p < n → arr !! p = Some x → e_typ x ≠ e_typ e).
  { intros p x Hp Hx Heq. assert (prev !! e_typ e = Some p); [|congruence].
    apply Hprev. eauto. }
  split; [done|]. intros j a Hj Ha Heq.
  destruct (Hcover j a Hj Ha) as (p & x & Hp & Hx & Ht).
  apply (Hfresh p x Hp Hx). congruence.
Qed.

Lemma lookup_alter_setMultiples i (arr : list embeddedType) p y :
  alter setMultiples i arr !! p = Some y →
  ∃ x, arr !! p = Some x ∧ e_typ x = e_typ y.
Proof.
  rewrite list_lookup_alter. destruct (decide (i = p)) as [->|Hne].
  - destruct (arr !! p) as [x|]; [|done]. intros [= <-]. by exists x.
  - intros Hp. by exists y.
Qed.

Lemma settled_duplicate l0 arr k n prev e i :
  consolidating l0 arr k n prev → settled l0 arr k n →
  arr !! k = Some e → prev !! e_typ e = Some i →
  settled l0 (alter setMultiples i arr) (S k) n.
Proof.
  intros Hinv [Hfirst Horder] Hk Hi.
  pose proof Hinv as [Hlen Hn Hrest Hprev _ _ _].
  assert (Hl0 : l0 !! k = Some e) by (rewrite <-Hrest; [done|lia]).
  destruct (proj1 (Hprev _ _) Hi) as (Hin & ei & Hei & Htyp).
  split.
  - intros p y Hp. rewrite list_lookup_alter. destruct (decide (i = p)) as [<-|Hne].
    + rewrite Hei. simpl. intros [= <-].
      destruct (Hfirst i ei Hin Hei) as (j & e0 & Hj & He0 & T & I & D & F & M).
      exists j, e0. split; [lia|]. split; [done|]. simpl.
      split; [done|]. split; [done|]. split; [done|]. split; [done|].
      split; [|done]. intros _. right. exists k, e. split; [lia|]. split; [lia|].
      split; [done|]. congruence.
    + intros Hy. destruct (Hfirst p y Hp Hy) as (j & e0 & Hj & He0 & T & I & D & F & M).
      exists j, e0. split; [lia|]. split; [done|].
      split; [done|]. split; [done|]. split; [done|]. split; [done|].
      rewrite M. split.
      * intros [?|(j' & e' & ? & ? & ? & ?)]; [by left|].
        right. exists j', e'. split; [done|]. split; [lia|done].
      * intros [?|(j' & e' & Hjj' & Hj'k & He' & Ht')]; [by left|].
        destruct (decide (j' = k)) as [->|Hjk].
        -- destruct Hne.
           apply (consolidating_distinct l0 arr k n prev i p ei y Hinv); try done.
           congruence.
        -- right. exists j', e'. split; [done|]. split; [lia|done].
  - intros p q e1 e2 Hpq Hq H1 H2.
    apply lookup_alter_setMultiples in H1 as (x1 & Hx1 & T1).
    apply lookup_alter_setMultiples in H2 as (x2 & Hx2 & T2).
    destruct (Horder p q x1 x2 Hpq Hq Hx1 Hx2) as (j1 & a1 & Hj1 & Ha1 & Ht1 & Hbefore).
    exists j1, a1. split; [lia|]. split; [done|]. split; [congruence|].
    intros j2 a2 Hj2 Ha2 Ht2. destruct (decide (j2 = k)) as [->|Hne]; [lia|].
    apply (Hbefore j2 a2); [lia|done|congruence].
Qed.

Lemma settled_unique l0 arr k n prev e :
  consolidating l0 arr k n prev → settled l0 arr k n →
  arr !! k = Some e → prev !! e_typ e = None →
  settled l0 (<[n := e]> arr) (S k) (S n).
Proof.
  intros Hinv [Hfirst Horder] Hk Hnone.
  pose proof Hinv as [Hlen Hn Hrest Hprev _ _ _].
  assert (Hl0 : l0 !! k = Some e) by (rewrite <-Hrest; [done|lia]).
  assert (Hklen : k < length arr) by (by eapply lookup_lt_Some).
  destruct (consolidating_fresh l0 arr k n prev e Hinv Hnone) as [Hfresh Hnew].
  assert (Hat : <[n := e]> arr !! n = Some e) by (apply list_lookup_insert_eq; lia).
  split.
  - intros p y Hp. destruct (decide (p = n)) as [->|Hne].
    + rewrite Hat. intros [= <-]. exists k, e. split; [lia|]. split; [done|].
      split; [done|]. split; [done|]. split; [done|]. split.
      * intros j' e' Hj' He'. apply (Hnew j' e' Hj' He').
      * split; [by left|]. intros [?|(j' & e' & ? & ? & _)]; [done|lia].
    + rewrite list_lookup_insert_ne by done. intros Hy.
      destruct (Hfirst p y) as (j & e0 & Hj & He0 & T & I & D & F & M); [lia|done|].
      exists j, e0. split; [lia|]. split; [done|].
      split; [done|]. split; [done|]. split; [done|]. split; [done|].
      rewrite M. split.
      * intros [?|(j' & e' & ? & ? & ? & ?)]; [by left|].
        right. exists j', e'. split; [done|]. split; [lia|done].
      * intros [?|(j' & e' & Hjj' & Hj'k & He' & Ht')]; [by left|].
        destruct (decide (j' = k)) as [->|Hjk].
        -- destruct (Hfresh p y); [lia|done|]. congruence.
        -- right. exists j', e'. split; [done|]. split; [lia|done].
  - intros p q e1 e2 Hpq Hq. rewrite (list_lookup_insert_ne _ n p) by lia.
    intros H1. destruct (decide (q = n)) as [->|Hne].
    + rewrite Hat. intros [= <-].
      destruct (Hfirst p e1) as (j & e0 & Hj & He0 & T & _); [lia|done|].
      exists j, e0. split; [lia|]. split; [done|]. split; [done|].
      intros j2 a2 Hj2 Ha2 Ht2. destruct (decide (j2 = k)) as [->|Hjk]; [done|].
      destruct (Hnew j2 a2); [lia|done|done].
    + rewrite list_lookup_insert_ne by done. intros H2.
      destruct (Horder p q e1 e2) as (j1 & a1 & Hj1 & Ha1 & Ht1 & Hbefore);
        [done|lia|done|done|].
      exists j1, a1. split; [lia|]. split; [done|]. split; [done|].
      intros j2 a2 Hj2 Ha2 Ht2. destruct (decide (j2 = k)) as [->|Hjk]; [lia|].
      apply (Hbefore j2 a2); [lia|done|done].
Qed.

Lemma consolidateLoop_settled l0 : ∀ todo k arr n prev,
  consolidating l0 arr k n prev → settled l0 arr k n → todo + k = length l0 →
  ∃ arr' n', consolidateLoop todo k arr n prev = take n' arr'
    ∧ n' ≤ length l0 ∧ length arr' = length l0
    ∧ settled l0 arr' (length l0) n'.
Proof.
  induction todo as [|todo IH]; intros k arr n prev Hinv Hset Htodo; simpl.
  - simpl in Htodo. subst k. exists arr, n. split; [done|].
    destruct Hinv as [Hlen Hn _ _ _ _ _]. done.
  - assert (Hk : k < length arr) by (destruct Hinv; lia).
    apply lookup_lt_is_Some_2 in Hk as [e He]. rewrite He.
    destruct (prev !! e_typ e) as [i|] eqn:Hp.
    + apply IH; [by eapply consolidating_duplicate|by eapply settled_duplicate|lia].
    + apply IH; [by eapply consolidating_unique|by eapply settled_unique|lia].
Qed.

Lemma consolidateLoop_distinct l0 : ∀ todo k prev,
  NoDup (e_typ <$> l0) → todo + k = length l0 →
  (∀ t i, prev !! t = Some i → i < k ∧ ∃ e, l0 !! i = Some e ∧ e_typ e = t) →
  consolidateLoop todo k l0 k prev = l0.
Proof.
  intros todo k prev Hnd. revert k prev.
  induction todo as [|todo IH]; intros k prev Htodo Hprev; simpl.
  - apply take_ge. simpl in Htodo. lia.
  - assert (Hk : k < length l0) by lia.
    apply lookup_lt_is_Some_2 in Hk as [e He]. rewrite He.
    destruct (prev !! e_typ e) as [i|] eqn:Hp.
    + destruct (Hprev _ _ Hp) as (Hi & e' & He' & Ht).
      assert (i = k); [|lia].
      apply (NoDup_lookup _ i k (e_typ e) Hnd); rewrite list_lookup_fmap.
      * by rewrite He'; simpl; rewrite Ht.
      * by rewrite He.
    + rewrite list_insert_id by done. apply IH; [lia|].
      intros t i. destruct (decide (e_typ e = t)) as [<-|Hne].
      * rewrite lookup_insert_eq. intros [= <-]. split; [lia|]. eauto.
      * rewrite lookup_insert_ne by done. intros Hi.
        destruct (Hprev _ _ Hi) as [? ?]. split; [lia|done].
Qed.

Lemma consolidateMultiples_distinct l0 :
  NoDup (e_typ <$> l0) → consolidateMultiples l0 = l0.
Proof.
  intros Hnd. unfold consolidateMultiples. case_bool_decide; [done|].
  apply consolidateLoop_distinct; [done|lia|]. intros t i. by rewrite lookup_empty.
Qed.

Lemma consolidating_start l0 : consolidating l0 l0 0 0 ∅.
Proof.
  split; try done.
  - intros t i. rewrite lookup_empty. split; [done|]. intros [? _]. lia.
  - intros i e ?. lia.
  - intros j e0 ?. lia.
  - intros i j a b ? ?. lia.
Qed.

Lemma settled_start l0 : settled l0 l0 0 0.
Proof. split; intros; lia. Qed.

Lemma consolidateMultiples_settled l0 :
  ∃ arr n, consolidateMultiples l0 = take n arr
    ∧ n ≤ length l0 ∧ length arr = length l0
    ∧ settled l0 arr (length l0) n.
Proof.
  unfold consolidateMultiples. case_bool_decide as Hlen.
  - exists l0, (length l0). split; [by rewrite firstn_all|]. split; [done|].
    split; [done|].
    destruct l0 as [|e [|e' l0]]; simpl in Hlen; [| |lia].
    + split; simpl; intros; lia.
    + split; simpl; [|intros; lia].
      intros [|i] x Hi; simpl; [|lia]. intros [= <-]. exists 0, e.
      split; [lia|]. split; [done|]. split; [done|]. split; [done|].
      split; [done|]. split; [intros; lia|]. split; [by left|].
      intros [?|(j' & e' & ? & ? & _)]; [done|lia].
  - apply consolidateLoop_settled;
      [apply consolidating_start|apply settled_start|lia].
Qed.

(** X9. [consolidateMultiples] returns one entry per type of the list,
    in the order in which the types first occur: each entry has the type,
    the index and the indirection of the first entry of its type, and
    [multiples] set exactly when that first entry had it set or another
    entry of the same type follows in the list. The result is no longer
    than the list, a list whose types are distinct is returned unchanged,
    and consolidating twice is consolidating once. *)
Theorem consolidateMultiples_keeps_first_entries (l0 : list embeddedType) :
  NoDup (e_typ <$> consolidateMultiples l0)
  ∧ (∀ e0, e0 ∈ l0 → ∃ e, e ∈ consolidateMultiples l0 ∧ e_typ e = e_typ e0)
  ∧ (∀ e, e ∈ consolidateMultiples l0 → ∃ j, firstOf l0 (length l0) e j)
  ∧ (∀ p q e1 e2, p < q →
       consolidateMultiples l0 !! p = Some e1 →
       consolidateMultiples l0 !! q = Some e2 →
       before l0 (length l0) e1 e2)
  ∧ length (consolidateMultiples l0) ≤ length l0
  ∧ (NoDup (e_typ <$> l0) → consolidateMultiples l0 = l0)
  ∧ consolidateMultiples (consolidateMultiples l0) = consolidateMultiples l0.
Proof.
  destruct (consolidateMultiples_consolidated l0) as [Hnd _ Hcover _].
  destruct (consolidateMultiples_settled l0)
    as (arr & n & Hout & Hn & Hlen & [Hfirst Horder]).
  split; [done|]. split; [done|].
  split; [|split; [|split; [|split]]].
  - rewrite Hout. intros e (i & Hi & Hlt)%elem_of_take. by eapply Hfirst.
  - rewrite Hout. intros p q e1 e2 Hpq. rewrite !lookup_take_Some.
    intros [H1 ?] [H2 ?]. by eapply (Horder p q).
  - rewrite Hout, length_take. lia.
  - apply consolidateMultiples_distinct.
  - by apply consolidateMultiples_distinct.
Qed.

(** *** [fieldIndex] *)

Section FieldIndexLaws.

Variable IsExported : string → bool.

Lemma fieldIndexFrom_None k fields pkg name :
  fieldIndexFrom IsExported k fields pkg name = None ↔
    ∀ f, f ∈ fields → isMatch IsExported f pkg name = false.
Proof.
  revert k. induction fields as [|f0 fields IH]; intros k; simpl.
  - split; [|done]. intros _ f Hf. by apply elem_of_nil in Hf.
  - fold (sameIdent IsExported (f_name f0) (f_pkg f0) pkg name).
    rewrite <-isMatch_sameIdent.
    destruct (isMatch IsExported f0 pkg name) eqn:Hf0.
    + split; [done|]. intros Hall. rewrite Hall in Hf0; [done|left].
    + rewrite IH. split.
      * intros Hall f [->|Hf]%elem_of_cons; eauto.
      * intros Hall f Hf. apply Hall. by right.
Qed.

(** X10. [fieldIndex] returns a negative value exactly for the blank
    name and for a name that no field matches; an index it returns is
    within the bounds of the fields; and it finds a field exactly when
    the name is not blank and the scan of the struct in
    [LookupFieldOrMethod] meets a matching field. *)
Theorem fieldIndex_not_found (fields : list Field) (pkg : Package) (name : string) :
  (fieldIndex IsExported fields pkg name = None ↔
     name = "_" ∨ ∀ f, f ∈ fields →
       ¬ (f_name f = name ∧ (IsExported name = true ∨ path (f_pkg f) = path pkg)))
  ∧ (∀ i, fieldIndex IsExported fields pkg name = Some i → i < length fields)
  ∧ (is_Some (fieldIndex IsExported fields pkg name) ↔
       name ≠ "_" ∧ fieldsDeclare IsExported pkg name fields = true).
Proof.
  assert (Hmatch : ∀ f, isMatch IsExported f pkg name = false ↔
    ¬ (f_name f = name ∧ (IsExported name = true ∨ path (f_pkg f) = path pkg))).
  { intros f. rewrite isMatch_sameIdent, <-sameIdent_true.
    by destruct (sameIdent IsExported (f_name f) (f_pkg f) pkg name). }
  assert (Hnone : fieldIndexFrom IsExported 0 fields pkg name = None ↔
    fieldsDeclare IsExported pkg name fields = false).
  { rewrite fieldIndexFrom_None. unfold fieldsDeclare. split.
    - intros Hall. apply not_true_is_false. intros (f & Hin & Hf)%existsb_exists.
      apply list_elem_of_In in Hin. by rewrite (Hall f Hin) in Hf.
    - intros Hex f Hin. apply not_true_is_false. intros Hf.
      assert (existsb (λ f, isMatch IsExported f pkg name) fields = true); [|congruence].
      apply existsb_exists. exists f. split; [by apply list_elem_of_In|done]. }
  unfold fieldIndex. split; [|split].
  - case_bool_decide as Hname; [naive_solver|].
    rewrite fieldIndexFrom_None. setoid_rewrite Hmatch. naive_solver.
  - intros i. case_bool_decide; [done|].
    intros (_ & f & Hi & _)%fieldIndexFrom_Some. rewrite Nat.sub_0_r in Hi.
    by eapply lookup_lt_Some.
  - case_bool_decide as Hname.
    + split; [by intros [? ?]|naive_solver].
    + rewrite <-not_eq_None_Some, Hnone.
      destruct (fieldsDeclare IsExported pkg name fields); naive_solver.
Qed.

End FieldIndexLaws.

(** *** Where the scan finds a member *)

Section ScanLaws.

Variable IsExported : string → bool.
Variable store : Store.
Variable pkg : Package.
Variable name : string.

Local Abbreviation denotes := (TypesSpec.denotes IsExported pkg name).
Local Abbreviation fieldsDeclare := (TypesSpec.fieldsDeclare IsExported pkg name).
Local Abbreviation underlyingDeclares := (TypesSpec.underlyingDeclares IsExported pkg name).
Local Abbreviation declares := (TypesSpec.declares IsExported store pkg name).
Local Abbreviation memberAt := (TypesSpec.memberAt store).

Lemma collectEmbedded_embedded e i f v :
  collectEmbedded e i f v =
    match (if bool_decide (v_obj v = None) then embedded f else None) with
    | Some (t, isPtr) =>
        mkLocals (v_obj v) (v_index v) (v_indirect v) (v_typ v) (v_seen v)
          (v_next v ++ [child e i t isPtr])
    | None => v
    end.
Proof.
  unfold collectEmbedded, embedded, child.
  destruct (bool_decide (v_obj v = None)), (f_anonymous f); simpl; try done.
  destruct (deref (f_typ f)) as [T isPtr]. by destruct T.
Qed.

(** The entries the loop over the fields appends to [next]. *)
Lemma scanFields_children e fields : ∀ k v v',
  scanFields IsExported pkg name e k fields v = Continue v' →
  ∃ more : list embeddedType,
    v_next v' = v_next v ++ more
    ∧ Forall (λ c, ∃ j f t isPtr, fields !! j = Some f
                ∧ embedded f = Some (t, isPtr) ∧ c = child e (k + j) t isPtr) more
    ∧ (v_obj v' = None → ∀ j f t isPtr, fields !! j = Some f →
         embedded f = Some (t, isPtr) → child e (k + j) t isPtr ∈ more).
Proof.
  induction fields as [|f fields IH]; intros k v v' Hrun; simpl in Hrun.
  - injection Hrun as <-. exists []. rewrite app_nil_r. split; [done|]. split; [done|].
    intros _ j f t isPtr Hj. done.
  - destruct (isMatch IsExported f pkg name) eqn:Hf.
    + destruct (potentialMatch e k (FieldObj f) v) as [v1| |] eqn:Hpm; try done.
      apply (potentialMatch_step IsExported pkg name) in Hpm as (_ & O1 & _ & _ & X1 & _);
        [|by apply isMatch_denotes].
      pose proof (scanFields_Continue _ _ _ _ _ _ _ _ Hrun) as ([K _ _ _] & _).
      destruct K as (A1 & _); [by rewrite O1|].
      destruct (IH _ _ _ Hrun) as (more & Hnext & Hall & _).
      exists more. split; [congruence|]. split.
      * eapply Forall_impl; [exact Hall|]. intros c (j & f' & t & isPtr & Hj & He & ->).
        exists (S j), f', t, isPtr. split; [done|]. split; [done|]. f_equal. lia.
      * intros Hnone. congruence.
    + destruct (IH _ _ _ Hrun) as (more & Hnext & Hall & Hcover).
      assert (Hobj1 : v_obj (collectEmbedded e k f v) = v_obj v).
      { by destruct (collectEmbedded_step IsExported pkg name e k f v) as (_ & ? & _). }
      assert (Hshift : Forall (λ c, ∃ j f0 t isPtr, (f :: fields) !! j = Some f0
                ∧ embedded f0 = Some (t, isPtr) ∧ c = child e (k + j) t isPtr) more).
      { eapply Forall_impl; [exact Hall|]. intros c (j & f' & t & isPtr & Hj & He & ->).
        exists (S j), f', t, isPtr. split; [done|]. split; [done|]. f_equal. lia. }
      rewrite collectEmbedded_embedded in Hnext.
      destruct (bool_decide (v_obj v = None)) eqn:Hv.
      * destruct (embedded f) as [[t isPtr]|] eqn:Hemb; simpl in Hnext.
        -- exists (child e k t isPtr :: more). split; [by rewrite Hnext, <-app_assoc|].
           split.
           ++ constructor; [|done]. exists 0, f, t, isPtr.
              split; [done|]. split; [done|]. f_equal. lia.
           ++ intros Hnone [|j] f' t' isPtr' Hj He; simpl in Hj.
              ** injection Hj as <-. rewrite Hemb in He. injection He as <- <-.
                 rewrite Nat.add_0_r. left.
              ** right. replace (k + S j) with (S k + j) by lia. by eapply Hcover.
        -- exists more. split; [done|]. split; [done|].
           intros Hnone [|j] f' t' isPtr' Hj He; simpl in Hj.
           ++ injection Hj as <-. congruence.
           ++ replace (k + S j) with (S k + j) by lia. by eapply Hcover.
      * exists more. split; [done|]. split; [done|].
        intros Hnone. apply bool_decide_eq_false in Hv.
        pose proof (scanFields_Continue _ _ _ _ _ _ _ _ Hrun) as ([_ N _ _] & _).
        destruct (N Hnone) as (Hn1 & _). rewrite Hobj1 in Hn1. done.
Qed.

(** The field the loop records. *)
Lemma scanFields_found e fields : ∀ k v v' o,
  scanFields IsExported pkg name e k fields v = Continue v' →
  v_obj v = None → v_obj v' = Some o →
  ∃ j f, fields !! j = Some f ∧ o = FieldObj f
    ∧ v_index v' = Some (concat (e_index e) (k + j))
    ∧ v_indirect v' = e_indirect e.
Proof.
  induction fields as [|f fields IH]; intros k v v' o Hrun Hobj Hobj'; simpl in Hrun.
  - injection Hrun as <-. congruence.
  - destruct (isMatch IsExported f pkg name) eqn:Hf.
    + destruct (potentialMatch_cases e k (FieldObj f) v) as [[Hr _]|(Hc & _ & _)].
      { by rewrite Hr in Hrun. }
      rewrite Hc in Hrun.
      pose proof (scanFields_Continue _ _ _ _ _ _ _ _ Hrun) as ([K _ _ _] & _).
      destruct K as (A1 & A2 & A3); [by eexists|]. simpl in *.
      exists 0, f. split; [done|]. rewrite Nat.add_0_r.
      split; [congruence|]. split; congruence.
    + destruct (collectEmbedded_step IsExported pkg name e k f v) as (_ & O1 & _).
      destruct (IH _ _ _ o Hrun) as (j & f' & Hj & Ho & Hi & Hd); [congruence|done|].
      exists (S j), f'. split; [done|]. split; [done|]. split; [|done].
      rewrite Hi. do 2 f_equal. lia.
Qed.

(** The field at which the loop reports a collision. *)
Lemma scanFields_Return_at e fields : ∀ k v r,
  scanFields IsExported pkg name e k fields v = Return r →
  ∃ j f ind, fields !! j = Some f ∧ isMatch IsExported f pkg name = true
    ∧ r = (None, Some (concat (e_index e) (k + j)), ind).
Proof.
  induction fields as [|f fields IH]; intros k v r Hrun; simpl in Hrun; [done|].
  destruct (isMatch IsExported f pkg name) eqn:Hf.
  - destruct (potentialMatch_cases e k (FieldObj f) v) as [[Hr _]|(Hc & _ & _)].
    + rewrite Hr in Hrun. injection Hrun as <-.
      exists 0, f, (v_indirect v). rewrite Nat.add_0_r. done.
    + rewrite Hc in Hrun. destruct (IH _ _ _ Hrun) as (j & f' & ind & Hj & Hm & ->).
      exists (S j), f', ind. split; [done|]. split; [done|].
      by replace (k + S j) with (S k + j) by lia.
  - destruct (IH _ _ _ Hrun) as (j & f' & ind & Hj & Hm & ->).
    exists (S j), f', ind. split; [done|]. split; [done|].
      by replace (k + S j) with (S k + j) by lia.
Qed.

Hypothesis Hname : name ≠ "_".

Lemma lookupMethodFrom_at ms i m :
  lookupMethodFrom IsExported 0 ms pkg name = Some (i, m) →
  ms !! i = Some m ∧ denotes (FuncObj m).
Proof.
  intros Hm. split; [|by eapply lookupMethodFrom_denotes].
  apply lookupMethodFrom_Some in Hm as (_ & Hi & _). by rewrite Nat.sub_0_r in Hi.
Qed.

(** The type switch: what it appends to [next]. *)
Lemma scanUnderlying_children e v v' :
  scanUnderlying IsExported pkg name e v = Continue v' →
  ∃ more : list embeddedType,
    v_next v' = v_next v ++ more
    ∧ Forall (childAt (v_typ v) e) more
    ∧ (v_obj v' = None → ∀ t, embeds (v_typ v) t → ∃ c, c ∈ more ∧ e_typ c = Some t).
Proof.
  unfold scanUnderlying. intros Hrun.
  assert (Hnone : v_next v' = v_next v → (∀ fields, v_typ v ≠ Struct fields) →
    ∃ more : list embeddedType,
      v_next v' = v_next v ++ more
      ∧ Forall (childAt (v_typ v) e) more
      ∧ (v_obj v' = None → ∀ t, embeds (v_typ v) t → ∃ c, c ∈ more ∧ e_typ c = Some t)).
  { intros Hnext Hns. exists []. rewrite app_nil_r. split; [done|]. split; [done|].
    intros _ t (fields & j & f & isPtr & Hs & _). by destruct (Hns fields). }
  destruct (v_typ v) as [kind|base|fields|ms|sig|t] eqn:Htyp;
    try (injection Hrun as <-; by apply Hnone).
  - destruct (scanFields_children _ _ _ _ _ Hrun) as (more & Hnext & Hall & Hcover).
    exists more. split; [done|]. split.
    + eapply Forall_impl; [exact Hall|]. intros c (j & f & t & isPtr & Hj & He & ->).
      by exists fields, j, f, t, isPtr.
    + intros Hobj t (fields' & j & f & isPtr & [= <-] & Hj & He).
      exists (child e j t isPtr). split; [|done]. by apply (Hcover Hobj j f t isPtr).
  - rewrite lookupMethod_Ok in Hrun by done.
    destruct (lookupMethodFrom IsExported 0 ms pkg name) as [[i m]|] eqn:Hm.
    + apply (potentialMatch_step IsExported pkg name) in Hrun as (_ & _ & _ & _ & X1 & _);
        [|by eapply lookupMethodFrom_denotes].
      by apply Hnone.
    + injection Hrun as <-. by apply Hnone.
Qed.

(** The type switch: the member it records. *)
Lemma scanUnderlying_found e v v' o :
  scanUnderlying IsExported pkg name e v = Continue v' →
  v_obj v = None → v_obj v' = Some o →
  ∃ i, underMember (v_typ v) i o
    ∧ v_index v' = Some (concat (e_index e) i)
    ∧ v_indirect v' = e_indirect e.
Proof.
  unfold scanUnderlying. intros Hrun Hobj Hobj'.
  destruct (v_typ v) as [kind|base|fields|ms|sig|t] eqn:Htyp;
    try (injection Hrun as <-; congruence).
  - destruct (scanFields_found _ _ _ _ _ _ Hrun Hobj Hobj') as (j & f & Hj & -> & Hi & Hd).
    exists j. split; [left; by exists fields, f|done].
  - rewrite lookupMethod_Ok in Hrun by done.
    destruct (lookupMethodFrom IsExported 0 ms pkg name) as [[i m]|] eqn:Hm.
    + destruct (lookupMethodFrom_at _ _ _ Hm) as [Hi Hd].
      destruct (potentialMatch_cases e i (FuncObj m) v) as [[Hr _]|(Hc & _ & _)].
      { by rewrite Hr in Hrun. }
      rewrite Hc in Hrun. injection Hrun as <-. simpl in *. injection Hobj' as <-.
      exists i. split; [right; by exists ms, m|done].
    + injection Hrun as <-. congruence.
Qed.

(** The type switch: the member at which it reports a collision. *)
Lemma scanUnderlying_Return_at e v r :
  scanUnderlying IsExported pkg name e v = Return r →
  ∃ i o ind, underMember (v_typ v) i o ∧ denotes o
    ∧ r = (None, Some (concat (e_index e) i), ind).
Proof.
  unfold scanUnderlying. intros Hrun.
  destruct (v_typ v) as [kind|base|fields|ms|sig|t] eqn:Htyp; try done.
  - destruct (scanFields_Return_at _ _ _ _ _ Hrun) as (j & f & ind & Hj & Hf & ->).
    exists j, (FieldObj f), ind. split; [left; by exists fields, f|].
    split; [by apply isMatch_denotes|done].
  - rewrite lookupMethod_Ok in Hrun by done.
    destruct (lookupMethodFrom IsExported 0 ms pkg name) as [[i m]|] eqn:Hm; [|done].
    destruct (lookupMethodFrom_at _ _ _ Hm) as [Hi Hd].
    destruct (potentialMatch_cases e i (FuncObj m) v) as [[Hr _]|(Hc & _ & _)].
    + rewrite Hr in Hrun. injection Hrun as <-.
      exists i, (FuncObj m), (v_indirect v). split; [right; by exists ms, m|done].
    + by rewrite Hc in Hrun.
Qed.

Lemma asNamed_Some T t : asNamed T = Some t → T = NamedT t.
Proof. destruct T; simpl; congruence. Qed.

Lemma Underlying_unnamed T : asNamed T = None → Underlying store T = T.
Proof. by destruct T. Qed.

(** One entry of the frontier. *)
Lemma scanEntry_children T0 e v v' :
  (e_typ e = None → v_typ v = T0 ∧ asNamed T0 = None) →
  scanEntry IsExported store pkg name e v = Continue v' →
  ∃ more : list embeddedType,
    v_next v' = v_next v ++ more
    ∧ Forall (childAt (Underlying store (entryType T0 e)) e) more
    ∧ (¬ skipped e v → v_obj v' = None →
       ∀ t, embeds (Underlying store (entryType T0 e)) t →
         ∃ c, c ∈ more ∧ e_typ c = Some t).
Proof.
  unfold scanEntry, entryType, skipped. intros Hroot Hrun.
  destruct (e_typ e) as [t|] eqn:Ht.
  - case_bool_decide as Hseen.
    + injection Hrun as <-. exists []. rewrite app_nil_r. split; [done|]. split; [done|].
      intros []. eauto.
    + rewrite lookupMethod_Ok in Hrun by done.
      destruct (lookupMethodFrom IsExported 0 (methods (named store t)) pkg name)
        as [[i m]|] eqn:Hm.
      * apply (potentialMatch_step IsExported pkg name) in Hrun
          as (_ & O1 & _ & _ & X1 & _); [|by eapply lookupMethodFrom_denotes].
        exists []. rewrite app_nil_r. split; [done|]. split; [done|]. congruence.
      * apply scanUnderlying_children in Hrun as (more & Hnext & Hall & Hcover).
        simpl in *. exists more. split; [done|]. split; [done|]. eauto.
  - destruct (Hroot eq_refl) as [Htyp Hun]. rewrite (Underlying_unnamed _ Hun).
    apply scanUnderlying_children in Hrun as (more & Hnext & Hall & Hcover).
    rewrite Htyp in *. exists more. split; [done|]. split; [done|]. eauto.
Qed.

Lemma scanEntry_found T0 e v v' o :
  (e_typ e = None → v_typ v = T0 ∧ asNamed T0 = None) →
  scanEntry IsExported store pkg name e v = Continue v' →
  v_obj v = None → v_obj v' = Some o →
  ∃ i, memberAt (entryType T0 e) i o
    ∧ v_index v' = Some (concat (e_index e) i)
    ∧ v_indirect v' = e_indirect e.
Proof.
  unfold scanEntry, entryType, memberAt. intros Hroot Hrun Hobj Hobj'.
  destruct (e_typ e) as [t|] eqn:Ht.
  - case_bool_decide as Hseen.
    + injection Hrun as <-. congruence.
    + rewrite lookupMethod_Ok in Hrun by done.
      destruct (lookupMethodFrom IsExported 0 (methods (named store t)) pkg name)
        as [[i m]|] eqn:Hm.
      * destruct (lookupMethodFrom_at _ _ _ Hm) as [Hi Hd].
        destruct (potentialMatch_cases e i (FuncObj m)
          (mkLocals (v_obj v) (v_index v) (v_indirect v) (v_typ v)
             ({[t]} ∪ v_seen v) (v_next v))) as [[Hr _]|(Hc & _ & _)].
        { by rewrite Hr in Hrun. }
        rewrite Hc in Hrun. injection Hrun as <-. simpl in *. injection Hobj' as <-.
        exists i. split; [left; by exists t, m|done].
      * apply scanUnderlying_found with (o := o) in Hrun as (i & Hmem & Hi & Hd);
          [|done..].
        exists i. split; [by right|done].
  - destruct (Hroot eq_refl) as [Htyp Hun]. rewrite (Underlying_unnamed _ Hun).
    apply scanUnderlying_found with (o := o) in Hrun as (i & Hmem & Hi & Hd); [|done..].
    rewrite Htyp in Hmem. exists i. split; [by right|done].
Qed.

Lemma scanEntry_Return_at T0 e v r :
  (e_typ e = None → v_typ v = T0 ∧ asNamed T0 = None) →
  scanEntry IsExported store pkg name e v = Return r →
  ∃ i o ind, memberAt (entryType T0 e) i o ∧ denotes o
    ∧ r = (None, Some (concat (e_index e) i), ind).
Proof.
  unfold scanEntry, entryType, memberAt. intros Hroot Hrun.
  destruct (e_typ e) as [t|] eqn:Ht.
  - case_bool_decide as Hseen; [done|].
    rewrite lookupMethod_Ok in Hrun by done.
    destruct (lookupMethodFrom IsExported 0 (methods (named store t)) pkg name)
      as [[i m]|] eqn:Hm.
    + destruct (lookupMethodFrom_at _ _ _ Hm) as [Hi Hd].
      destruct (potentialMatch_cases e i (FuncObj m)
        (mkLocals (v_obj v) (v_index v) (v_indirect v) (v_typ v)
           ({[t]} ∪ v_seen v) (v_next v))) as [[Hr _]|(Hc & _ & _)].
      * rewrite Hr in Hrun. injection Hrun as <-. simpl.
        exists i, (FuncObj m), (v_indirect v). split; [left; by exists t, m|done].
      * by rewrite Hc in Hrun.
    + apply scanUnderlying_Return_at in Hrun as (i & o & ind & Hmem & Hd & ->).
      exists i, o, ind. split; [by right|done].
  - destruct (Hroot eq_refl) as [Htyp Hun]. rewrite (Underlying_unnamed _ Hun).
    apply scanUnderlying_Return_at in Hrun as (i & o & ind & Hmem & Hd & ->).
    rewrite Htyp in Hmem. exists i, o, ind. split; [by right|done].
Qed.

Lemma frontierOf_head T0 e current v :
  frontierOf T0 (e :: current) v →
  (e_typ e = None → v_typ v = T0 ∧ asNamed T0 = None)
  ∧ ∀ v1, frontierOf T0 current v1.
Proof.
  intros [Hall|(e' & [= -> ->] & He & Htyp & Hun)].
  - apply Forall_cons in Hall as [[t Ht] Hall]. split; [congruence|]. by left.
  - split; [done|]. intros v1. left. constructor.
Qed.

(** A whole frontier. *)
Lemma scanCurrent_children T0 current : ∀ v v',
  frontierOf T0 current v →
  scanCurrent IsExported store pkg name current v = Continue v' →
  ∃ more : list embeddedType,
    v_next v' = v_next v ++ more
    ∧ Forall (λ c, ∃ e, e ∈ current
                ∧ childAt (Underlying store (entryType T0 e)) e c) more
    ∧ (NoDup (e_typ <$> current) → v_obj v' = None →
       ∀ e t, e ∈ current → ¬ skipped e v →
         embeds (Underlying store (entryType T0 e)) t →
         ∃ c, c ∈ more ∧ e_typ c = Some t).
Proof.
  induction current as [|e current IH]; intros v v' Hfr Hrun; simpl in Hrun.
  { injection Hrun as <-. exists []. rewrite app_nil_r. split; [done|]. split; [done|].
    intros _ _ e t He. by apply elem_of_nil in He. }
  destruct (frontierOf_head _ _ _ _ Hfr) as [Hroot Htail].
  destruct (scanEntry IsExported store pkg name e v) as [v1| |] eqn:He; try done.
  destruct (scanEntry_children T0 e v v1 Hroot He) as (m1 & N1 & A1 & C1).
  destruct (IH v1 v' (Htail v1) Hrun) as (m2 & N2 & A2 & C2).
  pose proof (scanEntry_Continue IsExported store pkg name Hname _ _ _ He)
    as (_ & E1 & _).
  pose proof (scanCurrent_Continue IsExported store pkg name Hname _ _ _ Hrun)
    as [_ N _ _ _ _ _].
  exists (m1 ++ m2). split; [by rewrite N2, N1, app_assoc|]. split.
  - apply Forall_app. split.
    + eapply Forall_impl; [exact A1|]. intros c Hc. exists e. split; [left|done].
    + eapply Forall_impl; [exact A2|]. intros c (e' & Hin & Hc).
      exists e'. split; [by right|done].
  - intros Hnd Hobj e' t Hin Hns Hemb. destruct (N Hobj) as (Hobj1 & _).
    rewrite fmap_cons in Hnd. apply NoDup_cons in Hnd as [Hfresh Hnd].
    apply elem_of_cons in Hin as [->|Hin].
    + destruct (C1 Hns Hobj1 t Hemb) as (c & Hc & Ht).
      exists c. split; [|done]. apply elem_of_app. by left.
    + destruct (C2 Hnd Hobj e' t Hin) as (c & Hc & Ht); [|done|].
      * intros (t' & Ht' & Hs'). rewrite E1 in Hs'. unfold seenAfter in Hs'.
        destruct (e_typ e) as [te|] eqn:Hte.
        -- apply elem_of_union in Hs' as [Heq%elem_of_singleton|Hs'].
           ++ apply Hfresh. rewrite <-Heq, <-Ht'. by apply list_elem_of_fmap_2.
           ++ apply Hns. by exists t'.
        -- apply Hns. by exists t'.
      * exists c. split; [|done]. apply elem_of_app. by right.
Qed.

Lemma scanCurrent_found T0 current : ∀ v v' o,
  frontierOf T0 current v →
  scanCurrent IsExported store pkg name current v = Continue v' →
  v_obj v = None → v_obj v' = Some o →
  ∃ e i, e ∈ current ∧ memberAt (entryType T0 e) i o
    ∧ v_index v' = Some (concat (e_index e) i)
    ∧ v_indirect v' = e_indirect e.
Proof.
  induction current as [|e current IH]; intros v v' o Hfr Hrun Hobj Hobj'; simpl in Hrun.
  { injection Hrun as <-. congruence. }
  destruct (frontierOf_head _ _ _ _ Hfr) as [Hroot Htail].
  destruct (scanEntry IsExported store pkg name e v) as [v1| |] eqn:He; try done.
  destruct (v_obj v1) as [o1|] eqn:Hobj1.
  - pose proof (scanCurrent_Continue IsExported store pkg name Hname _ _ _ Hrun)
      as [K _ _ _ _ _ _].
    destruct K as (A1 & A2 & A3); [by rewrite Hobj1|].
    destruct (scanEntry_found T0 e v v1 o1 Hroot He Hobj Hobj1) as (i & Hmem & Hi & Hd).
    assert (o1 = o) as -> by congruence.
    exists e, i. split; [left|]. split; [done|]. split; congruence.
  - destruct (IH v1 v' o (Htail v1) Hrun Hobj1 Hobj') as (e' & i & Hin & Hrest).
    exists e', i. split; [by right|done].
Qed.

Lemma scanCurrent_Return_at T0 current : ∀ v r,
  frontierOf T0 current v →
  scanCurrent IsExported store pkg name current v = Return r →
  ∃ e i o ind, e ∈ current ∧ memberAt (entryType T0 e) i o ∧ denotes o
    ∧ r = (None, Some (concat (e_index e) i), ind).
Proof.
  induction current as [|e current IH]; intros v r Hfr Hrun; simpl in Hrun; [done|].
  destruct (frontierOf_head _ _ _ _ Hfr) as [Hroot Htail].
  destruct (scanEntry IsExported store pkg name e v) as [v1|r1|] eqn:He; try done.
  - destruct (IH v1 r (Htail v1) Hrun) as (e' & i & o & ind & Hin & Hrest).
    exists e', i, o, ind. split; [by right|done].
  - injection Hrun as <-.
    destruct (scanEntry_Return_at T0 e v r1 Hroot He) as (i & o & ind & Hrest).
    exists e, i, o, ind. split; [left|done].
Qed.

Lemma searchDepths_nil_inv current v r :
  searchDepths IsExported store pkg name 0 current v = Ok r ↔
    current = [] ∧ (v_obj v, None, false) = r.
Proof.
  destruct current; simpl; split; try done.
  - by intros [= <-].
  - by intros [_ <-].
  - by intros [? _].
Qed.

(** *** Index sequences *)

Lemma followPath_snoc_intro T b idx j T1 b1 fields f t isPtr :
  followPath store T b idx = Some (T1, b1) →
  Underlying store T1 = Struct fields → fields !! j = Some f →
  embedded f = Some (t, isPtr) →
  followPath store T b (idx ++ [j]) = Some (NamedT t, b1 || isPtr).
Proof.
  revert T b. induction idx as [|i idx IH]; intros T b Hpath Hu Hj He; simpl in *.
  - injection Hpath as -> ->. by rewrite Hu, Hj; simpl; rewrite He.
  - destruct (Underlying store T) as [| |fs| | |]; try done.
    destruct (fs !! i ≫= embedded) as [[t' p']|]; [|done]. by apply IH.
Qed.

Lemma followPath_snoc_elim T b idx j T2 b2 :
  followPath store T b (idx ++ [j]) = Some (T2, b2) →
  ∃ T1 b1 t, followPath store T b idx = Some (T1, b1)
    ∧ embeds (Underlying store T1) t ∧ T2 = NamedT t.
Proof.
  revert T b. induction idx as [|i idx IH]; intros T b Hpath; simpl in *.
  - destruct (Underlying store T) as [| |fs| | |] eqn:Hu; try done.
    destruct (fs !! j) as [f|] eqn:Hj; [|done]. simpl in Hpath.
    destruct (embedded f) as [[t p]|] eqn:He; [|done]. injection Hpath as <- <-.
    exists T, b, t. split; [done|]. split; [|done]. rewrite Hu. by exists fs, j, f, p.
  - destruct (Underlying store T) as [| |fs| | |]; try done.
    destruct (fs !! i ≫= embedded) as [[t' p']|]; [|done]. by apply IH.
Qed.

Lemma followPath_named T b idx T' b' :
  followPath store T b idx = Some (T', b') → idx ≠ [] → ∃ t, T' = NamedT t.
Proof.
  intros Hpath Hne. destruct (exists_last Hne) as (idx' & j & ->).
  apply followPath_snoc_elim in Hpath as (_ & _ & t & _ & _ & ->). eauto.
Qed.

(** *** What the search has covered at a depth reached *)

Variable typ : Type_.

Local Abbreviation reaches := (TypesSpec.reaches IsExported store pkg name typ).
Local Abbreviation leads := (TypesSpec.leads store typ).
Local Abbreviation onPath := (TypesSpec.onPath store typ).
Local Abbreviation explored := (TypesSpec.explored IsExported store pkg name typ).
Local Abbreviation typeDeclares := (TypesSpec.typeDeclares IsExported store pkg name).

Lemma reaches_0 current v :
  reaches 0 current v → current = [startEntry typ] ∧ v = startLocals typ.
Proof. by inversion 1. Qed.

Lemma startEntry_typ : e_typ (startEntry typ) = asNamed (fst (deref typ)).
Proof. unfold startEntry. by destruct (deref typ). Qed.

Lemma startEntry_onPath : onPath (startEntry typ).
Proof.
  unfold TypesSpec.onPath, TypesSpec.leads, entryType. rewrite startEntry_typ.
  unfold startEntry. destruct (deref typ) as [T0 b0]; simpl.
  destruct T0; done.
Qed.

Lemma frontierOf_start : frontierOf (fst (deref typ)) [startEntry typ] (startLocals typ).
Proof.
  destruct (asNamed (fst (deref typ))) as [t|] eqn:Ht.
  - left. apply Forall_singleton. rewrite startEntry_typ, Ht. eauto.
  - right. exists (startEntry typ). by rewrite startEntry_typ.
Qed.

Lemma frontierOf_resetNext T0 current v :
  frontierOf T0 current v → frontierOf T0 current (resetNext v).
Proof. done. Qed.

Lemma explored_start : explored 0 [startEntry typ] (startLocals typ).
Proof.
  split; simpl.
  - apply frontierOf_start.
  - apply Forall_singleton, startEntry_onPath.
  - intros t t' Ht. set_solver.
  - intros idx t b Hlead Hlen. right. destruct idx; [|done].
    unfold TypesSpec.leads in Hlead. simpl in Hlead.
    apply elem_of_namedOf. exists (startEntry typ). split; [left|].
    rewrite startEntry_typ. destruct (deref typ) as [T0 b0]; simpl in *.
    by injection Hlead as -> _.
  - intros idx t b _ Hlen. lia.
  - lia.
Qed.

Lemma onPath_consolidates e0 e : consolidates e0 e → onPath e0 → onPath e.
Proof.
  intros (Ht & Hi & Hd & _). unfold TypesSpec.onPath, entryType.
  by rewrite Ht, Hi, Hd.
Qed.

Lemma onPath_child e c :
  onPath e → childAt (Underlying store (entryType (fst (deref typ)) e)) e c → onPath c.
Proof.
  intros He (fields & j & f & t & isPtr & Hu & Hj & Hemb & ->).
  unfold TypesSpec.onPath, TypesSpec.leads, entryType, child. simpl.
  by eapply followPath_snoc_intro.
Qed.

Lemma explored_deeper d current v v' :
  reaches d current v → explored d current v →
  scanCurrent IsExported store pkg name current (resetNext v) = Continue v' →
  v_obj v' = None →
  explored (S d) (consolidateMultiples (v_next v')) v'.
Proof.
  intros Hreach [Hfr Hon Hcl Hlv Hbl Hrt] Hscan Hobj.
  pose proof (reaches_reached IsExported store pkg name Hname typ _ _ _ Hreach)
    as [_ _ _ _ Hnd Hund].
  pose proof (scanCurrent_Continue IsExported store pkg name Hname _ _ _ Hscan) as Hsteps.
  pose proof Hsteps as [_ _ _ _ Hseen _ _]. simpl in Hseen.
  destruct (scanCurrent_children (fst (deref typ)) current _ _
              (frontierOf_resetNext _ _ _ Hfr) Hscan) as (more & Hnext & Hall & Hcover).
  simpl in Hnext. specialize (Hcover Hnd Hobj).
  destruct (consolidateMultiples_consolidated (v_next v')) as [_ _ Hcov _].
  assert (Hchildren : ∀ e t, e ∈ current →
    (∀ t0, e_typ e = Some t0 → t0 ∉ v_seen v) →
    embeds (Underlying store (entryType (fst (deref typ)) e)) t →
    t ∈ namedOf (consolidateMultiples (v_next v'))).
  { intros e t Hin Hunseen Hemb.
    destruct (Hcover e t Hin) as (c & Hc & Ht); [|done|].
    - intros (t0 & Ht0 & Hs0). by apply (Hunseen t0).
    - rewrite <-Hnext in Hc. destruct (Hcov c Hc) as (e' & He' & Hte').
      apply elem_of_namedOf. exists e'. split; [done|congruence]. }
  assert (Hnamed : ∀ t t', t ∈ v_seen v ∨ t ∈ namedOf current →
    embeds (underlying (named store t)) t' →
    t' ∈ v_seen v' ∨ t' ∈ namedOf (consolidateMultiples (v_next v'))).
  { intros t t' Ht Hemb. destruct (decide (t ∈ v_seen v)) as [Hs|Hs].
    - left. rewrite Hseen. destruct (Hcl t t' Hs Hemb); set_solver.
    - destruct Ht as [?|Ht]; [done|]. right.
      apply elem_of_namedOf in Ht as (e & Hin & Hte).
      apply (Hchildren e t' Hin).
      + intros t0 Ht0. congruence.
      + unfold entryType. by rewrite Hte. }
  split.
  - left. by eapply next_allNamed.
  - apply consolidateMultiples_Forall; [apply onPath_consolidates|].
    rewrite Hnext. apply Forall_forall. intros c Hc.
    rewrite Forall_forall in Hall. destruct (Hall c Hc) as (e & Hin & Hchild).
    apply (onPath_child e c); [|done]. rewrite Forall_forall in Hon. by apply Hon.
  - intros t t' Ht Hemb. apply (Hnamed t t'); [|done].
    rewrite Hseen in Ht. set_solver.
  - intros idx t b Hlead Hlen.
    destruct idx as [|i0 idx0] using rev_ind; [done|]. clear IHidx0.
    rewrite length_app in Hlen. simpl in Hlen.
    apply followPath_snoc_elim in Hlead as (T1 & b1 & t' & Hlead & Hemb & [= <-]).
    destruct (decide (idx0 = [])) as [->|Hne].
    + assert (d = 0) as -> by (simpl in Hlen; lia).
      destruct (reaches_0 _ _ Hreach) as [-> ->].
      simpl in Hlead. injection Hlead as <- <-.
      destruct (asNamed (fst (deref typ))) as [t0|] eqn:Ht0.
      * apply (Hnamed t0 t).
        -- right. apply elem_of_namedOf. exists (startEntry typ).
           split; [left|]. by rewrite startEntry_typ.
        -- destruct (fst (deref typ)); try done. simpl in Ht0. by injection Ht0 as ->.
      * right. apply (Hchildren (startEntry typ) t); [left| |].
        -- intros t0. rewrite startEntry_typ. congruence.
        -- unfold entryType. by rewrite startEntry_typ, Ht0.
    + destruct (followPath_named _ _ _ _ _ Hlead Hne) as [t1 ->].
      apply (Hnamed t1 t); [|done]. apply (Hlv idx0 t1 b1); [done|lia].
  - intros idx t b Hlead Hlen. rewrite Hseen.
    destruct (decide (length idx = d)) as [Heq|Hneq].
    + destruct (Hlv idx t b Hlead Heq); set_solver.
    + apply elem_of_union_r. apply (Hbl idx t b); [done|lia].
  - intros _ Hun. destruct (decide (d = 0)) as [->|Hd]; [|apply Hrt; [lia|done]].
    destruct (reaches_0 _ _ Hreach) as [-> ->]. simpl in Hscan.
    destruct (scanEntry IsExported store pkg name (startEntry typ)
                (resetNext (startLocals typ))) as [v1| |] eqn:He; try done.
    injection Hscan as ->.
    apply (scanEntry_Continue IsExported store pkg name Hname) in He as (_ & _ & D1 & _).
    unfold entryDeclares in D1. rewrite startEntry_typ, Hun in D1. simpl in D1.
    apply D1; [|done]. intros (t & Ht & _). rewrite startEntry_typ in Ht. congruence.
Qed.

Lemma reaches_explored d current v : reaches d current v → explored d current v.
Proof.
  induction 1 as [|d current v v' Hreach IH Hne Hscan Hobj].
  - apply explored_start.
  - by eapply explored_deeper.
Qed.

(** The three ways in which the function returns. *)
Lemma result_cases r :
  LookupFieldOrMethod IsExported store typ pkg name = Ok r →
  ∃ d current v, reaches d current v ∧
    ((current = [] ∧ r = (None, None, false))
     ∨ (∃ v' o, scanCurrent IsExported store pkg name current (resetNext v) = Continue v'
          ∧ v_obj v' = Some o ∧ r = (Some o, v_index v', v_indirect v'))
     ∨ scanCurrent IsExported store pkg name current (resetNext v) = Return r).
Proof.
  intros Hr.
  destruct (result_at_reached_depth IsExported store pkg name Hname typ r Hr)
    as (d & current & v & Hreach & Hrun).
  pose proof (reaches_reached IsExported store pkg name Hname typ _ _ _ Hreach)
    as [Hobj _ _ _ _ _].
  destruct current as [|e current].
  { rewrite searchDepths_nil, Hobj in Hrun. injection Hrun as <-.
    exists d, [], v. split; [done|]. by left. }
  rewrite searchDepths_cons in Hrun.
  destruct (scanCurrent IsExported store pkg name (e :: current) (resetNext v))
    as [v'|r'|] eqn:Hscan; [| |done].
  - destruct (v_obj v') as [o|] eqn:Hobj'.
    + injection Hrun as <-. exists d, (e :: current), v. split; [done|].
      right; left. exists v', o. by rewrite Hobj'.
    + rewrite searchDepths_nil_inv in Hrun. destruct Hrun as [Hnil <-].
      exists (S d), [], v'. rewrite Hobj'. split; [|by left].
      rewrite <-Hnil. by eapply (TypesSpec.reaches_deeper _ _ _ _ _ _ (e :: current)).
  - injection Hrun as <-. exists d, (e :: current), v. split; [done|].
    right; right. done.
Qed.

Lemma fieldsDeclare_true fields i f :
  fields !! i = Some f → isMatch IsExported f pkg name = true →
  fieldsDeclare fields = true.
Proof.
  intros Hi Hf. apply existsb_exists. exists f. split; [|done].
  apply list_elem_of_In. by eapply list_elem_of_lookup_2.
Qed.

Lemma underMember_declares U i o :
  underMember U i o → denotes o → underlyingDeclares U = true.
Proof.
  intros [(fields & f & -> & Hi & ->)|(ms & m & -> & Hi & ->)] Hd; simpl.
  - apply (fieldsDeclare_true fields i f Hi).
    rewrite isMatch_sameIdent. by apply sameIdent_true.
  - apply bool_decide_eq_true.
    destruct (lookupMethodFrom IsExported 0 ms pkg name) as [[j m']|] eqn:Hm; [eauto|].
    rewrite lookupMethodFrom_None in Hm.
    assert (Hs : sameIdent IsExported (m_name m) (m_pkg m) pkg name = true)
      by (by apply sameIdent_true).
    rewrite (Hm m) in Hs; [done|by eapply list_elem_of_lookup_2].
Qed.

Lemma typeDeclares_unnamed T :
  asNamed T = None → typeDeclares T = underlyingDeclares T.
Proof. by destruct T. Qed.

(** A type in which the selector denotes a member declares it. *)
Lemma memberAt_declares T i o :
  memberAt T i o → denotes o → typeDeclares T = true.
Proof.
  intros [(t & m & -> & Hi & ->)|Hu] Hd.
  - simpl. unfold TypesSpec.declares. apply orb_true_iff. left.
    apply bool_decide_eq_true.
    destruct (lookupMethodFrom IsExported 0 (methods (named store t)) pkg name)
      as [[j m']|] eqn:Hm; [eauto|].
    rewrite lookupMethodFrom_None in Hm.
    assert (Hs : sameIdent IsExported (m_name m) (m_pkg m) pkg name = true)
      by (by apply sameIdent_true).
    rewrite (Hm m) in Hs; [done|by eapply list_elem_of_lookup_2].
  - pose proof (underMember_declares _ _ _ Hu Hd) as Hdecl.
    destruct T as [kind|base|fields|ms|sig|t]; simpl in *; try done.
    unfold TypesSpec.declares. rewrite Hdecl. apply orb_true_r.
Qed.

(** Where a returned object was found. *)
Lemma found_at_entry o idx ind :
  LookupFieldOrMethod IsExported store typ pkg name = Ok (Some o, idx, ind) →
  ∃ d current v v' e i,
    reaches d current v
    ∧ scanCurrent IsExported store pkg name current (resetNext v) = Continue v'
    ∧ v_obj v' = Some o
    ∧ e ∈ current ∧ onPath e
    ∧ idx = Some (concat (e_index e) i) ∧ ind = e_indirect e
    ∧ memberAt (entryType (fst (deref typ)) e) i o ∧ denotes o.
Proof.
  intros Hr.
  destruct (result_cases _ Hr) as (d & current & v & Hreach & Hcases).
  pose proof (reaches_reached IsExported store pkg name Hname typ _ _ _ Hreach)
    as [Hobj _ _ _ _ _].
  pose proof (reaches_explored _ _ _ Hreach) as [Hfr Hon _ _ _ _].
  destruct Hcases as [[_ [=]]|[(v' & o' & Hscan & Hobj' & [= <- -> ->])|Hscan]].
  - destruct (scanCurrent_found (fst (deref typ)) current _ _ o
                (frontierOf_resetNext _ _ _ Hfr) Hscan Hobj Hobj')
      as (e & i & Hin & Hmem & Hi & Hd).
    pose proof (scanCurrent_Continue IsExported store pkg name Hname _ _ _ Hscan)
      as [_ _ F _ _ _ _].
    destruct (F o Hobj Hobj') as (Hden & _).
    exists d, current, v, v', e, i. rewrite Forall_forall in Hon.
    split; [done|]. split; [done|]. split; [done|]. split; [done|].
    split; [by apply Hon|]. done.
  - apply (scanCurrent_Return IsExported store pkg name Hname) in Hscan
      as (idx' & ind' & [=]).
Qed.

Lemma found_on_path o idx ind :
  LookupFieldOrMethod IsExported store typ pkg name = Ok (Some o, idx, ind) →
  ∃ prefix i T, idx = Some (prefix ++ [i]) ∧ leads prefix T ind ∧ memberAt T i o.
Proof.
  intros Hr. destruct (found_at_entry o idx ind Hr)
    as (d & current & v & v' & e & i & _ & _ & _ & _ & Hon & -> & -> & Hmem & _).
  by exists (e_index e), i, (entryType (fst (deref typ)) e).
Qed.

Lemma ambiguous_on_path idx ind :
  LookupFieldOrMethod IsExported store typ pkg name = Ok (None, Some idx, ind) →
  ∃ prefix i T b o, idx = prefix ++ [i] ∧ leads prefix T b
    ∧ memberAt T i o ∧ denotes o.
Proof.
  intros Hr.
  destruct (result_cases _ Hr) as (d & current & v & Hreach & Hcases).
  pose proof (reaches_explored _ _ _ Hreach) as [Hfr Hon _ _ _ _].
  destruct Hcases as [[_ [=]]|[(v' & o' & _ & _ & [=])|Hscan]].
  destruct (scanCurrent_Return_at (fst (deref typ)) current _ _
              (frontierOf_resetNext _ _ _ Hfr) Hscan)
    as (e & i & o & ind' & Hin & Hmem & Hden & [= -> _]).
  rewrite Forall_forall in Hon.
  exists (e_index e), i, (entryType (fst (deref typ)) e), (e_indirect e), o.
  split; [done|]. split; [by apply Hon|done].
Qed.

(** When the frontier is empty, every type on a path has been seen. *)
Lemma exhausted_seen d v :
  reaches d [] v → ∀ idx T b, leads idx T b → typeDeclares T = false.
Proof.
  intros Hreach.
  pose proof (reaches_reached IsExported store pkg name Hname typ _ _ _ Hreach)
    as [_ _ _ _ _ Hund].
  pose proof (reaches_explored _ _ _ Hreach) as [_ _ Hcl Hlv Hbl Hrt].
  assert (Hd : 0 < d).
  { destruct d; [|lia]. by destruct (reaches_0 _ _ Hreach). }
  assert (Hempty : ∀ t, t ∉ namedOf []) by (intros t; unfold namedOf; set_solver).
  assert (Hseen : ∀ idx t b, leads idx (NamedT t) b → t ∈ v_seen v).
  { induction idx as [|j idx IH] using rev_ind; intros t b Hlead.
    - apply (Hbl [] t b Hlead). simpl. lia.
    - pose proof Hlead as Hfull.
      apply followPath_snoc_elim in Hlead as (T1 & b1 & t' & Hlead & Hemb & [= <-]).
      destruct (asNamed T1) as [t1|] eqn:Hun.
      + apply asNamed_Some in Hun as ->.
        destruct (Hcl t1 t) as [?|?]; [by eapply IH|done|done|by destruct (Hempty t)].
      + assert (idx = []) as ->.
        { destruct (decide (idx = [])) as [?|Hne]; [done|].
          destruct (followPath_named _ _ _ _ _ Hlead Hne) as [t1 ->]. done. }
        destruct (decide (d = 1)) as [->|Hd1].
        * destruct (Hlv [j] t b) as [?|?]; [done..|by destruct (Hempty t)].
        * apply (Hbl [j] t b Hfull). simpl. lia. }
  intros idx T b Hlead. destruct (asNamed T) as [t|] eqn:Hun.
  - apply asNamed_Some in Hun as ->. simpl. by eapply Hund, Hseen.
  - assert (idx = []) as ->.
    { destruct (decide (idx = [])) as [?|Hne]; [done|].
      destruct (followPath_named _ _ _ _ _ Hlead Hne) as [t1 ->]. done. }
    unfold TypesSpec.leads in Hlead. simpl in Hlead. injection Hlead as <- <-.
    rewrite <-(Hrt Hd Hun). by destruct (fst (deref typ)).
Qed.

Lemma not_found_on_no_path ind :
  LookupFieldOrMethod IsExported store typ pkg name = Ok (None, None, ind) →
  ∀ idx T b, leads idx T b → typeDeclares T = false.
Proof.
  intros Hr.
  destruct (result_cases _ Hr) as (d & current & v & Hreach & Hcases).
  destruct Hcases as [[-> _]|[(v' & o' & _ & _ & [=])|Hscan]].
  - by eapply exhausted_seen.
  - apply (scanCurrent_Return IsExported store pkg name Hname) in Hscan
      as (idx' & ind' & [=]).
Qed.

(** Conversely, a result other than "not found" points to a type that
    declares the member. *)
Lemma no_member_not_found :
  (∀ idx T b, leads idx T b → typeDeclares T = false) →
  LookupFieldOrMethod IsExported store typ pkg name = Ok (None, None, false).
Proof.
  intros Hnone.
  destruct (LookupFieldOrMethod_Ok IsExported store pkg name Hname typ) as [r Hr].
  pose proof (LookupFieldOrMethodFuel_shaped IsExported store _ _ _ _ _ Hr)
    as [(o & idx & ind & -> & _)|[(idx & ind & ->)| ->]]; [| |done].
  - destruct (found_at_entry o (Some idx) ind Hr)
      as (d & current & v & v' & e & i & _ & _ & _ & _ & Hon & _ & _ & Hmem & Hden).
    pose proof (Hnone _ _ _ Hon) as Hfalse.
    by rewrite (memberAt_declares _ _ _ Hmem Hden) in Hfalse.
  - destruct (ambiguous_on_path idx ind Hr) as (prefix & i & T & b & o & _ & Hlead & Hmem & Hden).
    pose proof (Hnone _ _ _ Hlead) as Hfalse.
    by rewrite (memberAt_declares _ _ _ Hmem Hden) in Hfalse.
Qed.

(** No type above the depth of a returned object declares the member, and
    at that depth only the type in which it was found. *)
Lemma found_shallowest o idx ind :
  LookupFieldOrMethod IsExported store typ pkg name = Ok (Some o, Some idx, ind) →
  ∀ path T b, leads path T b → typeDeclares T = true →
    length idx ≤ S (length path)
    ∧ (S (length path) = length idx →
       ∃ prefix i, idx = prefix ++ [i] ∧ leads prefix T ind ∧ memberAt T i o).
Proof.
  intros Hr path T b Hlead Hdecl.
  destruct (found_at_entry o (Some idx) ind Hr)
    as (d & current & v & v' & e & i & Hreach & Hscan & Hobj' & Hin & Hon
        & [= ->] & -> & Hmem & Hden).
  pose proof (reaches_reached IsExported store pkg name Hname typ _ _ _ Hreach)
    as [_ _ _ Hdepth Hnd Hund].
  pose proof (reaches_explored _ _ _ Hreach) as [Hfr _ _ Hlv Hbl Hrt].
  assert (Hlen : length (concat (e_index e) i) = S d).
  { rewrite length_concat. f_equal. rewrite Forall_forall in Hdepth. by apply Hdepth. }
  rewrite Hlen.
  assert (Hunseen : ∀ t, typeDeclares (NamedT t) = true → t ∉ v_seen v).
  { intros t Ht Hs. apply Hund in Hs. simpl in Ht. congruence. }
  assert (Hroot : asNamed T = None → path = [] ∧ T = fst (deref typ)).
  { intros Hun. assert (path = []) as ->.
    { destruct (decide (path = [])) as [?|Hne]; [done|].
      destruct (followPath_named _ _ _ _ _ Hlead Hne) as [t1 ->]. done. }
    unfold TypesSpec.leads in Hlead. simpl in Hlead. by injection Hlead as <- _. }
  split.
  - destruct (decide (length path < d)) as [Hlt|?]; [|lia].
    destruct (asNamed T) as [t|] eqn:Hun.
    + apply asNamed_Some in Hun as ->.
      destruct (Hunseen t Hdecl). by eapply Hbl.
    + destruct (Hroot eq_refl) as [-> ->].
      rewrite typeDeclares_unnamed, Hrt in Hdecl; [done|lia|done..].
  - intros [= Hpath]. exists (e_index e), i. split; [done|].
    assert (T = entryType (fst (deref typ)) e) as ->; [|done].
    destruct (asNamed T) as [t|] eqn:Hun.
    + apply asNamed_Some in Hun as ->.
      destruct (Hlv path t b Hlead Hpath) as [Hs|Ht]; [by destruct (Hunseen t Hdecl)|].
      apply elem_of_namedOf in Ht as (e1 & Hin1 & Ht1).
      unfold entryType. destruct (e_typ e) as [t2|] eqn:Ht2.
      * destruct (decide (t2 = t)) as [->|Hne]; [done|].
        assert (Hd2 : typeDeclares (NamedT t2) = true).
        { apply (memberAt_declares _ i o); [|done]. unfold entryType in Hmem.
          by rewrite Ht2 in Hmem. }
        apply list_elem_of_lookup_1 in Hin as [k Hk].
        apply list_elem_of_lookup_1 in Hin1 as [k1 Hk1].
        destruct (scanCurrent_collides_two IsExported store pkg name Hname current
                    (resetNext v) k k1 e e1 t2 t) as [r Hret]; try done.
        -- intros ->. congruence.
        -- by apply Hunseen.
        -- by apply Hunseen.
        -- congruence.
      * destruct Hfr as [Hall|(e0 & -> & _)].
        -- unfold allNamed in Hall. rewrite Forall_forall in Hall.
           destruct (Hall e Hin) as [t2 Ht2']. congruence.
        -- apply list_elem_of_singleton in Hin as ->.
           apply list_elem_of_singleton in Hin1 as ->. congruence.
    + destruct (Hroot eq_refl) as [-> ->]. simpl in Hpath. subst d.
      destruct (reaches_0 _ _ Hreach) as [-> ->].
      apply list_elem_of_singleton in Hin as ->.
      unfold entryType. by rewrite startEntry_typ, Hun.
Qed.

End ScanLaws.

(** The index sequence of a returned object, for every name. *)
Lemma returned_index_on_path IsExported store pkg name typ o idx ind :
  LookupFieldOrMethod IsExported store typ pkg name = Ok (Some o, idx, ind) →
  ∃ prefix i T,
    idx = Some (prefix ++ [i])
    ∧ followPath store (fst (deref typ)) (snd (deref typ)) prefix = Some (T, ind)
    ∧ memberAt store T i o.
Proof.
  destruct (decide (name = "_")) as [->|Hname]; [done|].
  apply found_on_path, Hname.
Qed.

(** *** The index sequence of a result *)

Section PathLaws.

Variable IsExported : string → bool.
Variable store : Store.

(** X11. The index sequence returned with an object is what the
    comment of [LookupFieldOrMethod] says: its last entry is the index of
    the object among the declared methods of a named type, the fields of
    a struct or the methods of an interface, and the entries before it
    are the indices of the embedded fields that lead from [typ] to that
    type; [indirect] is set exactly when [typ] is a pointer or one of
    these fields is embedded through a pointer. *)
Theorem index_leads_to_member typ pkg name o idx ind :
  LookupFieldOrMethod IsExported store typ pkg name = Ok (Some o, idx, ind) →
  ∃ prefix i T,
    idx = Some (prefix ++ [i])
    ∧ followPath store (fst (deref typ)) (snd (deref typ)) prefix = Some (T, ind)
    ∧ memberAt store T i o.
Proof. apply returned_index_on_path. Qed.

(** X12. The index sequence returned for an ambiguous selector
    points to an entry the selector matches: the entries before the last
    lead from [typ] through embedded fields to a type, and the last is
    the index of a member of that type that the selector denotes. *)
Theorem ambiguous_index_leads_to_member typ pkg name idx ind :
  LookupFieldOrMethod IsExported store typ pkg name = Ok (None, Some idx, ind) →
  ∃ prefix i T b o,
    idx = prefix ++ [i]
    ∧ followPath store (fst (deref typ)) (snd (deref typ)) prefix = Some (T, b)
    ∧ memberAt store T i o
    ∧ denotes IsExported pkg name o.
Proof.
  destruct (decide (name = "_")) as [->|Hname]; [done|].
  apply ambiguous_on_path, Hname.
Qed.

(** X13. For a name other than the blank one, [LookupFieldOrMethod]
    finds nothing (no object and no index) exactly when no type reachable
    from [typ] through embedded fields, at whatever depth, declares a
    member the selector matches. *)
Theorem not_found_iff_no_member typ pkg name :
  name ≠ "_" →
  (LookupFieldOrMethod IsExported store typ pkg name = Ok (None, None, false) ↔
   ∀ idx T b,
     followPath store (fst (deref typ)) (snd (deref typ)) idx = Some (T, b) →
     typeDeclares IsExported store pkg name T = false).
Proof.
  intros Hname. split.
  - by apply not_found_on_no_path.
  - by apply no_member_not_found.
Qed.

(** X14. An object is returned from the shallowest depth at which a
    type declares a matching member, and from the only such type at that
    depth: every type reachable from [typ] through embedded fields that
    declares a matching member lies at least as deep as the returned
    index is long, and one that lies exactly that deep is the type in
    which the object was found. *)
Theorem found_is_shallowest_and_unique typ pkg name o idx ind :
  LookupFieldOrMethod IsExported store typ pkg name = Ok (Some o, Some idx, ind) →
  ∀ path T b,
    followPath store (fst (deref typ)) (snd (deref typ)) path = Some (T, b) →
    typeDeclares IsExported store pkg name T = true →
    length idx ≤ S (length path)
    ∧ (S (length path) = length idx →
       ∃ prefix i, idx = prefix ++ [i]
         ∧ followPath store (fst (deref typ)) (snd (deref typ)) prefix = Some (T, ind)
         ∧ memberAt store T i o).
Proof.
  destruct (decide (name = "_")) as [->|Hname]; [done|].
  apply found_shallowest, Hname.
Qed.

End PathLaws.

(** *** The indirection does not steer the search *)

Section IndirectLaws.

Variable IsExported : string → bool.
Variable store : Store.
Variable pkg : Package.
Variable name : string.

Lemma sameEntry_setMultiples e e' :
  sameEntry e e' → sameEntry (setMultiples e) (setMultiples e').
Proof. by intros (? & ? & ?). Qed.

Lemma consolidateLoop_same todo : ∀ k arr arr' n prev,
  Forall2 sameEntry arr arr' →
  Forall2 sameEntry (consolidateLoop todo k arr n prev)
    (consolidateLoop todo k arr' n prev).
Proof.
  induction todo as [|todo IH]; intros k arr arr' n prev Hsame; simpl.
  - by apply Forall2_take.
  - pose proof (proj1 (Forall2_lookup _ _ _) Hsame k) as Hk.
    destruct Hk as [e e' He|]; [|by apply Forall2_take].
    destruct He as (Ht & Hi & Hm). rewrite <-Ht.
    destruct (prev !! e_typ e) as [i|].
    + apply IH. apply Forall2_alter; [done|].
      intros x y _ _. apply sameEntry_setMultiples.
    + apply IH. by apply Forall2_insert.
Qed.

Lemma consolidateMultiples_same arr arr' :
  Forall2 sameEntry arr arr' →
  Forall2 sameEntry (consolidateMultiples arr) (consolidateMultiples arr').
Proof.
  intros Hsame. unfold consolidateMultiples.
  rewrite <-(Forall2_length _ _ _ Hsame).
  case_bool_decide; [done|]. by apply consolidateLoop_same.
Qed.

Lemma potentialMatch_same e e' i o v v' :
  sameEntry e e' → sameLocals v v' →
  sameFlow (potentialMatch e i o v) (potentialMatch e' i o v').
Proof.
  intros (Ht & Hi & Hm) (Ho & Hx & Hy & Hs & Hn). unfold potentialMatch.
  rewrite <-Ho, <-Hi, <-Hm.
  destruct (bool_decide (is_Some (v_obj v)) || e_multiples e); simpl; [done|].
  by repeat split.
Qed.

Lemma collectEmbedded_same e e' i f v v' :
  sameEntry e e' → sameLocals v v' →
  sameLocals (collectEmbedded e i f v) (collectEmbedded e' i f v').
Proof.
  intros (Ht & Hi & Hm) (Ho & Hx & Hy & Hs & Hn). rewrite !collectEmbedded_embedded.
  rewrite <-Ho. destruct (bool_decide (v_obj v = None)); [|by repeat split].
  destruct (embedded f) as [[t isPtr]|]; [|by repeat split].
  split; [done|]. split; [done|]. split; [done|]. split; [done|]. simpl.
  apply Forall2_app; [done|]. apply Forall2_cons. split; [|done].
  unfold sameEntry, child. simpl. by rewrite Hi, Hm.
Qed.

Lemma scanFields_same e e' fields : ∀ i v v',
  sameEntry e e' → sameLocals v v' →
  sameFlow (scanFields IsExported pkg name e i fields v)
    (scanFields IsExported pkg name e' i fields v').
Proof.
  induction fields as [|f fields IH]; intros i v v' He Hv; simpl; [done|].
  destruct (isMatch IsExported f pkg name).
  - pose proof (potentialMatch_same e e' i (FieldObj f) v v' He Hv) as Hpm.
    destruct (potentialMatch e i (FieldObj f) v) as [v1|r1|],
      (potentialMatch e' i (FieldObj f) v') as [v1'|r1'|]; try done.
    by apply IH.
  - apply IH; [done|]. by apply collectEmbedded_same.
Qed.

Lemma scanUnderlying_same e e' v v' :
  sameEntry e e' → sameLocals v v' →
  sameFlow (scanUnderlying IsExported pkg name e v)
    (scanUnderlying IsExported pkg name e' v').
Proof.
  intros He Hv. unfold scanUnderlying.
  pose proof Hv as (_ & _ & Hy & _). rewrite <-Hy.
  destruct (v_typ v) as [kind|base|fields|ms|sig|t]; try done.
  - by apply scanFields_same.
  - destruct (lookupMethod IsExported ms pkg name) as [[[i m]|]| |]; try done.
    by apply potentialMatch_same.
Qed.

Lemma scanEntry_same e e' v v' :
  sameEntry e e' → sameLocals v v' →
  sameFlow (scanEntry IsExported store pkg name e v)
    (scanEntry IsExported store pkg name e' v').
Proof.
  intros He Hv. unfold scanEntry.
  pose proof He as (Ht & _). pose proof Hv as (Ho & Hx & Hy & Hs & Hn).
  rewrite <-Ht, <-Hs. destruct (e_typ e) as [t|]; [|by apply scanUnderlying_same].
  case_bool_decide; [done|].
  destruct (lookupMethod IsExported (methods (named store t)) pkg name)
    as [[[i m]|]| |]; try done.
  - apply potentialMatch_same; [done|]. by repeat split.
  - apply scanUnderlying_same; [done|]. by repeat split.
Qed.

Lemma scanCurrent_same current current' : ∀ v v',
  Forall2 sameEntry current current' → sameLocals v v' →
  sameFlow (scanCurrent IsExported store pkg name current v)
    (scanCurrent IsExported store pkg name current' v').
Proof.
  intros v v' Hc. revert v v'.
  induction Hc as [|e e' current current' He _ IH]; intros v v' Hv; simpl; [done|].
  pose proof (scanEntry_same e e' v v' He Hv) as Hentry.
  destruct (scanEntry IsExported store pkg name e v) as [v1|r1|],
    (scanEntry IsExported store pkg name e' v') as [v1'|r1'|]; try done.
  by apply IH.
Qed.

Lemma searchDepths_same fuel : ∀ current current' v v',
  Forall2 sameEntry current current' → sameLocals v v' →
  sameResult (searchDepths IsExported store pkg name fuel current v)
    (searchDepths IsExported store pkg name fuel current' v').
Proof.
  induction fuel as [|fuel IH]; intros current current' v v' Hc Hv.
  - destruct Hc; simpl; [|done]. destruct Hv as (Ho & _). unfold sameMember. simpl.
    by rewrite Ho.
  - destruct Hc as [|e e' current current' He Hc].
    { simpl. destruct Hv as (Ho & _). unfold sameMember. simpl. by rewrite Ho. }
    rewrite !searchDepths_cons.
    assert (Hreset : sameLocals (resetNext v) (resetNext v')).
    { destruct Hv as (Ho & Hx & Hy & Hs & Hn). by repeat split. }
    assert (Hcons : Forall2 sameEntry (e :: current) (e' :: current'))
      by (by constructor).
    pose proof (scanCurrent_same (e :: current) (e' :: current') _ _ Hcons Hreset)
      as Hscan.
    destruct (scanCurrent IsExported store pkg name (e :: current) (resetNext v))
      as [v1|r1|],
      (scanCurrent IsExported store pkg name (e' :: current') (resetNext v'))
      as [v1'|r1'|]; try done.
    pose proof Hscan as (Ho & Hx & Hy & Hs & Hn). rewrite <-Ho.
    destruct (v_obj v1) as [o|].
    + unfold sameResult, sameMember. simpl. by rewrite Hx.
    + apply IH; [|done]. by apply consolidateMultiples_same.
Qed.

Lemma followPath_indirect T idx T' b :
  followPath store T true idx = Some (T', b) → b = true.
Proof.
  revert T. induction idx as [|i idx IH]; intros T; simpl.
  - by intros [= _ <-].
  - destruct (Underlying store T) as [| |fs| | |]; try done.
    destruct (fs !! i ≫= embedded) as [[t p]|]; [|done]. apply IH.
Qed.

(** X15. A selector on a pointer to [typ] yields the same object and
    the same index sequence as on [typ] itself, and reports an
    indirection whenever it finds an object. *)
Theorem pointer_selects_same_member typ :
  snd (deref typ) = false →
  ∃ o idx ind ind',
    LookupFieldOrMethod IsExported store typ pkg name = Ok (o, idx, ind)
    ∧ LookupFieldOrMethod IsExported store (Pointer typ) pkg name = Ok (o, idx, ind')
    ∧ (is_Some o → ind' = true).
Proof.
  intros Hnp.
  destruct (LookupFieldOrMethod_returns IsExported store typ pkg name)
    as ([[o idx] ind] & Hr & _).
  destruct (LookupFieldOrMethod_returns IsExported store (Pointer typ) pkg name)
    as ([[o' idx'] ind'] & Hr' & _).
  assert (Hsame : o = o' ∧ idx = idx').
  { unfold LookupFieldOrMethod, LookupFieldOrMethodFuel in Hr, Hr'.
    case_bool_decide; [by simplify_eq|].
    assert (Hderef : deref typ = (typ, false)).
    { destruct typ; simpl in *; done. }
    assert (Hsim : sameResult
      (searchDepths IsExported store pkg name (size store + 2)
         [startEntry typ] (startLocals typ))
      (searchDepths IsExported store pkg name (size store + 2)
         [startEntry (Pointer typ)] (startLocals (Pointer typ)))).
    { apply searchDepths_same.
      - apply Forall2_cons. split; [|done].
        unfold startEntry. rewrite Hderef. simpl. by repeat split.
      - unfold startLocals. rewrite Hderef. simpl. by repeat split. }
    rewrite Hr, Hr' in Hsim. unfold sameResult, sameMember in Hsim. simpl in Hsim.
    by injection Hsim. }
  destruct Hsame as [<- <-]. exists o, idx, ind, ind'.
  split; [done|]. split; [done|]. intros [obj ->].
  destruct (returned_index_on_path IsExported store pkg name (Pointer typ) obj idx ind' Hr')
    as (prefix & i & T & _ & Hpath & _).
  simpl in Hpath. by apply followPath_indirect in Hpath.
Qed.

End IndirectLaws.

(** *** An exported selector *)

Section ExportedLaws.

Variable IsExported : string → bool.
Variable store : Store.
Variable name : string.
Variable pkg pkg' : Package.
Hypothesis Hexported : IsExported name = true.

Lemma isMatch_exported f :
  isMatch IsExported f pkg name = isMatch IsExported f pkg' name.
Proof. unfold isMatch. by rewrite Hexported. Qed.

Lemma lookupMethodFrom_exported ms : ∀ k,
  lookupMethodFrom IsExported k ms pkg name = lookupMethodFrom IsExported k ms pkg' name.
Proof.
  induction ms as [|m ms IH]; intros k; simpl; [done|].
  rewrite Hexported. simpl. by rewrite IH.
Qed.

Lemma lookupMethod_exported ms :
  lookupMethod IsExported ms pkg name = lookupMethod IsExported ms pkg' name.
Proof. unfold lookupMethod. by rewrite lookupMethodFrom_exported. Qed.

Lemma scanFields_exported e fields : ∀ i v,
  scanFields IsExported pkg name e i fields v
    = scanFields IsExported pkg' name e i fields v.
Proof.
  induction fields as [|f fields IH]; intros i v; simpl; [done|].
  rewrite isMatch_exported. destruct (isMatch IsExported f pkg' name); [|apply IH].
  destruct (potentialMatch e i (FieldObj f) v); [apply IH|done..].
Qed.

Lemma scanUnderlying_exported e v :
  scanUnderlying IsExported pkg name e v = scanUnderlying IsExported pkg' name e v.
Proof.
  unfold scanUnderlying. destruct (v_typ v); try done.
  - apply scanFields_exported.
  - by rewrite lookupMethod_exported.
Qed.

Lemma scanEntry_exported e v :
  scanEntry IsExported store pkg name e v = scanEntry IsExported store pkg' name e v.
Proof.
  unfold scanEntry. destruct (e_typ e) as [t|]; [|apply scanUnderlying_exported].
  case_bool_decide; [done|]. rewrite lookupMethod_exported.
  destruct (lookupMethod IsExported (methods (named store t)) pkg' name)
    as [[[i m]|]| |]; try done.
  apply scanUnderlying_exported.
Qed.

Lemma scanCurrent_exported current : ∀ v,
  scanCurrent IsExported store pkg name current v
    = scanCurrent IsExported store pkg' name current v.
Proof.
  induction current as [|e current IH]; intros v; simpl; [done|].
  rewrite scanEntry_exported.
  destruct (scanEntry IsExported store pkg' name e v); [apply IH|done..].
Qed.

Lemma searchDepths_exported fuel : ∀ current v,
  searchDepths IsExported store pkg name fuel current v
    = searchDepths IsExported store pkg' name fuel current v.
Proof.
  induction fuel as [|fuel IH]; intros current v; [done|].
  destruct current as [|e current]; [done|].
  rewrite !searchDepths_cons, scanCurrent_exported.
  destruct (scanCurrent IsExported store pkg' name (e :: current) (resetNext v))
    as [v'| |]; try done.
  destruct (v_obj v'); [done|apply IH].
Qed.

(** X16. For an exported name the requesting package is irrelevant:
    the lookup returns the same result for every package. *)
Theorem exported_selector_ignores_package (typ : Type_) :
  LookupFieldOrMethod IsExported store typ pkg name
    = LookupFieldOrMethod IsExported store typ pkg' name.
Proof.
  unfold LookupFieldOrMethod, LookupFieldOrMethodFuel.
  case_bool_decide; [done|]. apply searchDepths_exported.
Qed.

End ExportedLaws.

(** *** Method sets *)

Section MethodSetLaws.

Variable IsExported : string → bool.
Variable IsIdentical : Type_ → Type_ → bool.
Variable store : Store.

Local Abbreviation methodVerdict :=
  (TypesSpec.methodVerdict IsExported IsIdentical store).
Local Abbreviation concreteVerdict :=
  (TypesSpec.concreteVerdict IsExported IsIdentical store).

(** A method declared by the named type at depth 0 is what the lookup
    returns. *)
Lemma lookup_declared_method typ t pkg name i f :
  name ≠ "_" →
  asNamed (fst (deref typ)) = Some t →
  lookupMethodFrom IsExported 0 (methods (named store t)) pkg name = Some (i, f) →
  LookupFieldOrMethod IsExported store typ pkg name
    = Ok (Some (FuncObj f), Some [i], snd (deref typ)).
Proof.
  intros Hname Ht Hm.
  apply (reaches_result IsExported store pkg name Hname typ 0
           [startEntry typ] (startLocals typ)); [constructor|].
  rewrite searchDepths_cons. simpl.
  unfold startEntry, startLocals. destruct (deref typ) as [typ' isPtr]. simpl in *.
  unfold scanEntry. simpl. rewrite Ht. rewrite bool_decide_eq_false_2 by set_solver.
  rewrite lookupMethod_Ok, Hm by done.
  by rewrite potentialMatch_Continue.
Qed.

(** A selector that finds nothing at depth 0 of a type that is neither a
    struct nor an interface finds nothing at all. *)
Lemma lookup_nothing_to_scan typ pkg name :
  name ≠ "_" →
  (∀ t, asNamed (fst (deref typ)) = Some t →
     lookupMethodFrom IsExported 0 (methods (named store t)) pkg name = None) →
  (∀ fields, Underlying store (fst (deref typ)) ≠ Struct fields) →
  (∀ ms, Underlying store (fst (deref typ)) ≠ Interface ms) →
  LookupFieldOrMethod IsExported store typ pkg name = Ok (None, None, false).
Proof.
  intros Hname Hnone Hns Hni.
  apply (reaches_result IsExported store pkg name Hname typ 0
           [startEntry typ] (startLocals typ)); [constructor|].
  rewrite searchDepths_cons. simpl.
  unfold startEntry, startLocals. destruct (deref typ) as [typ' isPtr]. simpl in *.
  unfold scanEntry. simpl. destruct (asNamed typ') as [t|] eqn:Ht; simpl.
  - rewrite bool_decide_eq_false_2 by set_solver.
    rewrite lookupMethod_Ok, (Hnone t) by done.
    unfold scanUnderlying. simpl.
    destruct typ'; try done. simpl in Ht. injection Ht as ->. simpl in *.
    destruct (underlying (named store t)) as [| |fields|ms| |]; try done.
    + by destruct (Hns fields).
    + by destruct (Hni ms).
  - unfold scanUnderlying. simpl.
    destruct typ' as [| |fields|ms| |]; try done.
    + by destruct (Hns fields).
    + by destruct (Hni ms).
Qed.

(** X17. One pointer is dereferenced at the start and no more: a
    pointer to a pointer has no fields or methods, and a named type whose
    underlying type is a pointer is not dereferenced, so that a selector
    on it finds its declared methods and nothing else. *)
Theorem only_one_pointer_is_dereferenced (typ : Type_) (pkg : Package) (name : string) :
  LookupFieldOrMethod IsExported store (Pointer (Pointer typ)) pkg name
    = Ok (None, None, false)
  ∧ (∀ t base, underlying (named store t) = Pointer base → name ≠ "_" →
       LookupFieldOrMethod IsExported store (NamedT t) pkg name
         = match lookupMethodFrom IsExported 0 (methods (named store t)) pkg name with
           | Some (i, m) => Ok (Some (FuncObj m), Some [i], false)
           | None => Ok (None, None, false)
           end).
Proof.
  split.
  - destruct (decide (name = "_")) as [->|Hname]; [done|].
    by apply lookup_nothing_to_scan.
  - intros t base Hu Hname.
    destruct (lookupMethodFrom IsExported 0 (methods (named store t)) pkg name)
      as [[i m]|] eqn:Hm.
    + by apply (lookup_declared_method (NamedT t) t).
    + apply lookup_nothing_to_scan; simpl; try done.
      * by intros t' [= <-].
      * intros fields. by rewrite Hu.
      * intros ms. by rewrite Hu.
Qed.

Lemma MissingMethod_implements typ T :
  MissingMethod IsExported IsIdentical store typ T = Ok (None, false) ↔
    Forall (λ m, methodVerdict typ m = Ok Satisfied) T.
Proof.
  rewrite MissingMethod_firstOffending. split.
  - intros Hrun. by apply firstOffending_Ok in Hrun as [_ ?].
  - intros Hall. rewrite <-(app_nil_r T). by rewrite firstOffending_satisfied.
Qed.

(** X18. A type that implements two interfaces implements every
    interface whose methods are among theirs: a smaller interface, a
    reordered one, and the union of the two. *)
Theorem MissingMethod_of_combined_interfaces (typ : Type_) (T1 T2 T : list Func) :
  MissingMethod IsExported IsIdentical store typ T1 = Ok (None, false) →
  MissingMethod IsExported IsIdentical store typ T2 = Ok (None, false) →
  (∀ m, m ∈ T → m ∈ T1 ∨ m ∈ T2) →
  MissingMethod IsExported IsIdentical store typ T = Ok (None, false).
Proof.
  rewrite !MissingMethod_implements, !Forall_forall. intros H1 H2 Hsub m Hm.
  destruct (Hsub m Hm); eauto.
Qed.

Lemma lookupMethodFrom_self T : ∀ k i m,
  NoDup (m_name <$> T) → T !! i = Some m →
  lookupMethodFrom IsExported k T (m_pkg m) (m_name m) = Some (k + i, m).
Proof.
  induction T as [|m0 T IH]; intros k i m Hnd Hi; [done|].
  rewrite fmap_cons in Hnd. apply NoDup_cons in Hnd as [Hfresh Hnd].
  destruct i as [|i]; simpl in *.
  - injection Hi as ->. rewrite bool_decide_eq_true_2 by done.
    rewrite (bool_decide_eq_true_2 (path (m_pkg m) = path (m_pkg m))) by done.
    by rewrite orb_true_r, Nat.add_0_r.
  - rewrite bool_decide_eq_false_2.
    + simpl. rewrite (IH (S k) i m Hnd Hi). do 2 f_equal. lia.
    + intros Heq. apply Hfresh. rewrite Heq. apply list_elem_of_fmap_2.
      by eapply list_elem_of_lookup_2.
Qed.

(** X19. A type whose underlying type is an interface with distinct
    method names, none of them blank, implements that interface, provided
    [IsIdentical] holds of each of its signatures and itself. *)
Theorem interface_implements_itself (typ : Type_) (T : list Func) :
  Underlying store typ = Interface T →
  NoDup (m_name <$> T) →
  Forall (λ m, m_name m ≠ "_" ∧ IsIdentical (Sig (m_typ m)) (Sig (m_typ m)) = true) T →
  MissingMethod IsExported IsIdentical store typ T = Ok (None, false).
Proof.
  intros Hu Hnd Hall. apply MissingMethod_implements.
  apply Forall_forall. intros m Hin. rewrite Forall_forall in Hall.
  destruct (Hall m Hin) as [Hname Hid].
  apply list_elem_of_lookup_1 in Hin as [i Hi].
  unfold TypesSpec.methodVerdict, TypesSpec.interfaceVerdict. rewrite Hu.
  rewrite lookupMethod_Ok, (lookupMethodFrom_self T 0 i m Hnd Hi) by done.
  by rewrite Hid.
Qed.

Lemma methodVerdict_declared typ t m i f :
  m_name m ≠ "_" →
  asNamed (fst (deref typ)) = Some t →
  (∀ ms, Underlying store typ ≠ Interface ms) →
  lookupMethodFrom IsExported 0 (methods (named store t)) (m_pkg m) (m_name m)
    = Some (i, f) →
  methodVerdict typ m =
    if notInMethodSet f (snd (deref typ)) then Ok Missing
    else if IsIdentical (Sig (m_typ f)) (Sig (m_typ m)) then Ok Satisfied
    else Ok WrongType.
Proof.
  intros Hname Ht Hni Hm. unfold TypesSpec.methodVerdict.
  assert (Hc : TypesSpec.methodVerdict IsExported IsIdentical store typ m
               = concreteVerdict typ m).
  { unfold TypesSpec.methodVerdict.
    destruct (Underlying store typ) eqn:Hu; try done. by destruct (Hni imethods). }
  unfold TypesSpec.methodVerdict in Hc. rewrite Hc.
  unfold TypesSpec.concreteVerdict.
  by rewrite (lookup_declared_method typ t (m_pkg m) (m_name m) i f).
Qed.

(** X20. The method set of a pointer to a named type holds all the
    methods declared for the type: when every required method is declared
    by the named type with an identical signature, the pointer implements
    the interface whatever the receivers are, while the named type itself
    (when it is not an interface) implements it exactly when none of
    these methods has a pointer receiver. *)
Theorem pointer_has_all_declared_methods (t : NamedId) (T : list Func) :
  Forall (λ m, m_name m ≠ "_" ∧ ∃ i f,
            lookupMethodFrom IsExported 0 (methods (named store t)) (m_pkg m) (m_name m)
              = Some (i, f)
            ∧ IsIdentical (Sig (m_typ f)) (Sig (m_typ m)) = true) T →
  MissingMethod IsExported IsIdentical store (Pointer (NamedT t)) T = Ok (None, false)
  ∧ ((∀ ms, underlying (named store t) ≠ Interface ms) →
     (MissingMethod IsExported IsIdentical store (NamedT t) T = Ok (None, false) ↔
        Forall (λ m, ∀ i f,
          lookupMethodFrom IsExported 0 (methods (named store t)) (m_pkg m) (m_name m)
            = Some (i, f) →
          ∀ v, recv (m_typ f) = Some v → snd (deref (var_typ v)) = false) T)).
Proof.
  intros Hall. split.
  - apply MissingMethod_implements. eapply Forall_impl; [exact Hall|].
    intros m (Hname & i & f & Hm & Hid).
    rewrite (methodVerdict_declared (Pointer (NamedT t)) t m i f); try done.
    simpl. unfold notInMethodSet. rewrite Hid.
    destruct (recv (m_typ f)); [|done]. by rewrite andb_false_r.
  - intros Hni. rewrite MissingMethod_implements, !Forall_forall.
    rewrite Forall_forall in Hall. split.
    + intros Hsat m Hin i f Hm v Hv. destruct (Hall m Hin) as (Hname & _).
      specialize (Hsat m Hin).
      rewrite (methodVerdict_declared (NamedT t) t m i f) in Hsat; try done.
      unfold notInMethodSet in Hsat. rewrite Hv in Hsat. simpl in Hsat.
      destruct (snd (deref (var_typ v))); [done|done].
    + intros Hval m Hin. destruct (Hall m Hin) as (Hname & i & f & Hm & Hid).
      rewrite (methodVerdict_declared (NamedT t) t m i f); try done.
      unfold notInMethodSet. rewrite Hid.
      destruct (recv (m_typ f)) as [v|] eqn:Hv; [|done].
      by rewrite (Hval m Hin i f Hm v Hv).
Qed.

(** X21. A required method named ["_"], met after methods that are
    all satisfied, makes [MissingMethod] fail the assertion of
    [lookupMethod] when the type is an interface, and makes it report
    that method as missing when the type is concrete. *)
Theorem MissingMethod_blank_method (typ : Type_) (pre post : list Func) (m : Func) :
  m_name m = "_" →
  Forall (λ m', methodVerdict typ m' = Ok Satisfied) pre →
  MissingMethod IsExported IsIdentical store typ (pre ++ m :: post) =
    match Underlying store typ with
    | Interface _ => Panic
    | _ => Ok (Some m, false)
    end.
Proof.
  intros Hname Hpre. rewrite MissingMethod_firstOffending.
  rewrite firstOffending_satisfied by done. simpl.
  unfold TypesSpec.methodVerdict.
  destruct (Underlying store typ);
    unfold TypesSpec.interfaceVerdict, TypesSpec.concreteVerdict, lookupMethod,
      LookupFieldOrMethod, LookupFieldOrMethodFuel;
    by rewrite Hname.
Qed.

End MethodSetLaws.

(** *** The rule by which a member matches the selector *)

Section MatchLaws.

Variable IsExported : string → bool.
Variable store : Store.
Variable pkg : Package.
Variable name : string.

(** The rule of the language specification on the name and the package
    of a declaration, written out. *)
Local Abbreviation rule declName declPkg :=
  (declName = name ∧ (IsExported name = true ∨ path declPkg = path pkg)).

Lemma isMatch_rule f :
  isMatch IsExported f pkg name = true ↔ rule (f_name f) (f_pkg f).
Proof. rewrite isMatch_sameIdent. apply sameIdent_true. Qed.

Lemma isMatch_not_rule f :
  isMatch IsExported f pkg name = false ↔ ¬ rule (f_name f) (f_pkg f).
Proof.
  rewrite <-isMatch_rule. by destruct (isMatch IsExported f pkg name).
Qed.

Lemma sameIdent_not_rule m :
  sameIdent IsExported (m_name m) (m_pkg m) pkg name = false ↔
    ¬ rule (m_name m) (m_pkg m).
Proof.
  rewrite <-sameIdent_true.
  by destruct (sameIdent IsExported (m_name m) (m_pkg m) pkg name).
Qed.

(** [lookupMethod] returns the first method that passes the rule. *)
Lemma lookupMethodFrom_first ms : ∀ k i m,
  ms !! i = Some m → rule (m_name m) (m_pkg m) →
  (∀ j m', j < i → ms !! j = Some m' → ¬ rule (m_name m') (m_pkg m')) →
  lookupMethodFrom IsExported k ms pkg name = Some (k + i, m).
Proof.
  induction ms as [|m0 ms IH]; intros k i m Hi Hm Hfirst; [done|]. simpl.
  fold (sameIdent IsExported (m_name m0) (m_pkg m0) pkg name).
  destruct i as [|i]; simpl in Hi.
  - injection Hi as ->. rewrite (proj2 (sameIdent_true _ _ _ _ _) Hm).
    by rewrite Nat.add_0_r.
  - rewrite (proj2 (sameIdent_not_rule m0)) by (apply (Hfirst 0); [lia|done]).
    rewrite (IH (S k) i m Hi Hm).
    + do 2 f_equal. lia.
    + intros j m' Hj Hm'. apply (Hfirst (S j)); [lia|done].
Qed.

Lemma lookupMethodFrom_no_rule ms k :
  lookupMethodFrom IsExported k ms pkg name = None ↔
    ∀ m, m ∈ ms → ¬ rule (m_name m) (m_pkg m).
Proof.
  rewrite lookupMethodFrom_None. by setoid_rewrite sameIdent_not_rule.
Qed.

Lemma fieldsDeclare_no_rule fields :
  fieldsDeclare IsExported pkg name fields = false ↔
    ∀ f, f ∈ fields → ¬ rule (f_name f) (f_pkg f).
Proof.
  unfold fieldsDeclare. setoid_rewrite <-isMatch_not_rule. split.
  - intros Hex f Hin. apply not_true_is_false. intros Hf.
    assert (existsb (λ f, isMatch IsExported f pkg name) fields = true); [|congruence].
    apply existsb_exists. exists f. split; [by apply list_elem_of_In|done].
  - intros Hall. apply not_true_is_false. intros (f & Hin & Hf)%existsb_exists.
    apply list_elem_of_In in Hin. by rewrite (Hall f Hin) in Hf.
Qed.

(** A type declares no member the selector matches exactly when none of
    the members compared passes the rule. *)
Lemma typeDeclares_no_rule T :
  typeDeclares IsExported store pkg name T = false ↔
    (∀ t m, T = NamedT t → m ∈ methods (named store t) →
       ¬ rule (m_name m) (m_pkg m))
    ∧ (∀ fields f, Underlying store T = Struct fields → f ∈ fields →
         ¬ rule (f_name f) (f_pkg f))
    ∧ (∀ ms m, Underlying store T = Interface ms → m ∈ ms →
         ¬ rule (m_name m) (m_pkg m)).
Proof.
  assert (Hunder : ∀ U, underlyingDeclares IsExported pkg name U = false ↔
    (∀ fields f, U = Struct fields → f ∈ fields → ¬ rule (f_name f) (f_pkg f))
    ∧ (∀ ms m, U = Interface ms → m ∈ ms → ¬ rule (m_name m) (m_pkg m))).
  { intros U. destruct U as [kind|base|fields|ms|sig|t]; simpl;
      try (split; [intros _; split; intros; done|done]).
    - rewrite fieldsDeclare_no_rule. split.
      + intros Hall. split; [|done]. intros fields' f [= <-]. apply Hall.
      + intros [Hall _] f. by apply Hall.
    - rewrite bool_decide_eq_false, <-eq_None_not_Some, lookupMethodFrom_no_rule. split.
      + intros Hall. split; [done|]. intros ms' m [= <-]. apply Hall.
      + intros [_ Hall] m. by apply Hall. }
  destruct (asNamed T) as [t|] eqn:Ht.
  - apply asNamed_Some in Ht as ->.
    unfold typeDeclares, TypesSpec.declares. rewrite orb_false_iff, Hunder.
    rewrite bool_decide_eq_false, <-eq_None_not_Some, lookupMethodFrom_no_rule. split.
    + intros (Hm & Hf & Hi). split; [|by split]. intros t' m [= <-]. apply Hm.
    + intros (Hm & Hf & Hi). split; [|by split]. intros m. by apply Hm.
  - rewrite (typeDeclares_unnamed IsExported store pkg name T Ht), Hunder.
    rewrite (Underlying_unnamed store T Ht). split.
    + intros [Hf Hi]. split; [|by split]. intros t m ->. done.
    + intros (_ & Hf & Hi). by split.
Qed.

(** The only matching field of the struct at depth 0. *)
Lemma lookup_only_field typ fields i f :
  name ≠ "_" →
  Underlying store (fst (deref typ)) = Struct fields →
  (∀ t, asNamed (fst (deref typ)) = Some t →
     lookupMethodFrom IsExported 0 (methods (named store t)) pkg name = None) →
  fields !! i = Some f → isMatch IsExported f pkg name = true →
  (∀ j f', j ≠ i → fields !! j = Some f' → isMatch IsExported f' pkg name = false) →
  LookupFieldOrMethod IsExported store typ pkg name
    = Ok (Some (FieldObj f), Some [i], snd (deref typ)).
Proof.
  intros Hname Hunder Hnomethod Hi Hf Hothers.
  apply (reaches_result IsExported store pkg name Hname typ 0
           [startEntry typ] (startLocals typ)); [constructor|].
  rewrite searchDepths_cons. simpl.
  set (e := startEntry typ).
  assert (He : e_index e = [] ∧ e_multiples e = false ∧ e_indirect e = snd (deref typ)
               ∧ e_typ e = asNamed (fst (deref typ))).
  { unfold e, startEntry. by destruct (deref typ). }
  destruct He as (Hidx & Hmul & Hind & Htyp).
  assert (Hscan : ∀ v, v_obj v = None → v_typ v = Struct fields →
    ∃ v', scanUnderlying IsExported pkg name e v = Continue v'
      ∧ v_obj v' = Some (FieldObj f) ∧ v_index v' = Some [i]
      ∧ v_indirect v' = snd (deref typ)).
  { intros v Hobj Hv. unfold scanUnderlying. rewrite Hv.
    destruct (scanFields_unique IsExported pkg name e fields 0 v i f)
      as (v' & Hrun & B1 & B2 & B3); try done.
    exists v'. rewrite Hrun, B1, B2, B3, Hidx, Hind. done. }
  unfold scanEntry. rewrite Htyp.
  destruct (asNamed (fst (deref typ))) as [t|] eqn:Ht.
  - rewrite bool_decide_eq_false_2 by (simpl; set_solver).
    rewrite lookupMethod_Ok, (Hnomethod t) by done.
    edestruct Hscan as (v' & -> & -> & -> & ->); [| |done]; simpl; [done|].
    apply asNamed_Some in Ht. rewrite Ht in Hunder. exact Hunder.
  - edestruct Hscan as (v' & -> & -> & -> & ->); [| |done]; simpl; [done|].
    unfold startLocals. simpl. rewrite <-Hunder. symmetry.
    by apply Underlying_unnamed.
Qed.

(** The first matching method of the interface at depth 0. *)
Lemma lookup_interface_method typ ms i m :
  name ≠ "_" →
  Underlying store (fst (deref typ)) = Interface ms →
  (∀ t, asNamed (fst (deref typ)) = Some t →
     lookupMethodFrom IsExported 0 (methods (named store t)) pkg name = None) →
  lookupMethodFrom IsExported 0 ms pkg name = Some (i, m) →
  LookupFieldOrMethod IsExported store typ pkg name
    = Ok (Some (FuncObj m), Some [i], snd (deref typ)).
Proof.
  intros Hname Hunder Hnomethod Hm.
  apply (reaches_result IsExported store pkg name Hname typ 0
           [startEntry typ] (startLocals typ)); [constructor|].
  rewrite searchDepths_cons. simpl.
  set (e := startEntry typ).
  assert (He : e_index e = [] ∧ e_multiples e = false ∧ e_indirect e = snd (deref typ)
               ∧ e_typ e = asNamed (fst (deref typ))).
  { unfold e, startEntry. by destruct (deref typ). }
  destruct He as (Hidx & Hmul & Hind & Htyp).
  assert (Hscan : ∀ v, v_obj v = None → v_typ v = Interface ms →
    scanUnderlying IsExported pkg name e v =
      Continue (mkLocals (Some (FuncObj m)) (Some [i]) (snd (deref typ))
                  (v_typ v) (v_seen v) (v_next v))).
  { intros v Hobj Hv. unfold scanUnderlying. rewrite Hv.
    rewrite lookupMethod_Ok, Hm by done.
    rewrite potentialMatch_Continue by done. by rewrite Hidx, Hind, Hv. }
  unfold scanEntry. rewrite Htyp.
  destruct (asNamed (fst (deref typ))) as [t|] eqn:Ht.
  - rewrite bool_decide_eq_false_2 by (simpl; set_solver).
    rewrite lookupMethod_Ok, (Hnomethod t) by done.
    rewrite Hscan; [done|done|]. simpl.
    apply asNamed_Some in Ht. rewrite Ht in Hunder. exact Hunder.
  - rewrite Hscan; [done|done|]. unfold startLocals. simpl.
    rewrite <-Hunder. symmetry. by apply Underlying_unnamed.
Qed.

(** C6. A member matches the selector exactly when it is spelled like the
    name and the name is exported or the member is declared in the
    requesting package, at every point at which the search compares a
    member with the selector. The rule is what [isMatch] tests on a
    field, what [lookupMethod] tests on a method (it returns the first
    method that passes) and what [fieldIndex] tests. In the search: the
    first declared method of the type that passes the rule is returned;
    failing that, the only field of its struct that passes the rule is
    returned, and so is the first method of its interface that passes the
    rule; every object returned passes the rule, and so does the member an
    ambiguous result points to; and the search finds nothing exactly when
    no declared method, no field and no interface method of any type
    reached through embedded fields passes the rule. In particular a
    non-exported member of another package is never returned, and a
    selector whose name is not exported finds nothing when all members
    are declared in other packages. *)
Theorem selector_match_rule :
  (∀ f, isMatch IsExported f pkg name = true ↔
      f_name f = name ∧ (IsExported name = true ∨ path (f_pkg f) = path pkg))
  ∧ (∀ ms, name ≠ "_" →
      ∃ r, lookupMethod IsExported ms pkg name = Ok r ∧
        match r with
        | Some (i, m) =>
            ms !! i = Some m
            ∧ (m_name m = name ∧ (IsExported name = true ∨ path (m_pkg m) = path pkg))
            ∧ ∀ j m', j < i → ms !! j = Some m' →
                ¬ (m_name m' = name
                   ∧ (IsExported name = true ∨ path (m_pkg m') = path pkg))
        | None =>
            ∀ m, m ∈ ms →
              ¬ (m_name m = name ∧ (IsExported name = true ∨ path (m_pkg m) = path pkg))
        end)
  ∧ (∀ fields i, fieldIndex IsExported fields pkg name = Some i →
      ∃ f, fields !! i = Some f
        ∧ (f_name f = name ∧ (IsExported name = true ∨ path (f_pkg f) = path pkg))
        ∧ ∀ j f', j < i → fields !! j = Some f' →
            ¬ (f_name f' = name
               ∧ (IsExported name = true ∨ path (f_pkg f') = path pkg)))
  ∧ (∀ typ o idx ind,
      LookupFieldOrMethod IsExported store typ pkg name = Ok (Some o, idx, ind) →
      Object_name o = name
      ∧ (IsExported name = true ∨ path (Object_pkg o) = path pkg))
  ∧ (∀ typ o idx ind,
      IsExported name = false →
      LookupFieldOrMethod IsExported store typ pkg name = Ok (Some o, idx, ind) →
      path (Object_pkg o) = path pkg)
  ∧ (∀ typ t i m,
      name ≠ "_" → asNamed (fst (deref typ)) = Some t →
      methods (named store t) !! i = Some m →
      rule (m_name m) (m_pkg m) →
      (∀ j m', j < i → methods (named store t) !! j = Some m' →
         ¬ rule (m_name m') (m_pkg m')) →
      LookupFieldOrMethod IsExported store typ pkg name
        = Ok (Some (FuncObj m), Some [i], snd (deref typ)))
  ∧ (∀ typ fields i f,
      name ≠ "_" → Underlying store (fst (deref typ)) = Struct fields →
      (∀ t m, asNamed (fst (deref typ)) = Some t → m ∈ methods (named store t) →
         ¬ rule (m_name m) (m_pkg m)) →
      fields !! i = Some f →
      rule (f_name f) (f_pkg f) →
      (∀ j f', j ≠ i → fields !! j = Some f' → ¬ rule (f_name f') (f_pkg f')) →
      LookupFieldOrMethod IsExported store typ pkg name
        = Ok (Some (FieldObj f), Some [i], snd (deref typ)))
  ∧ (∀ typ ms i m,
      name ≠ "_" → Underlying store (fst (deref typ)) = Interface ms →
      (∀ t m', asNamed (fst (deref typ)) = Some t → m' ∈ methods (named store t) →
         ¬ rule (m_name m') (m_pkg m')) →
      ms !! i = Some m →
      rule (m_name m) (m_pkg m) →
      (∀ j m', j < i → ms !! j = Some m' → ¬ rule (m_name m') (m_pkg m')) →
      LookupFieldOrMethod IsExported store typ pkg name
        = Ok (Some (FuncObj m), Some [i], snd (deref typ)))
  ∧ (∀ typ idx ind,
      LookupFieldOrMethod IsExported store typ pkg name = Ok (None, Some idx, ind) →
      ∃ prefix i T b o,
        idx = prefix ++ [i]
        ∧ followPath store (fst (deref typ)) (snd (deref typ)) prefix = Some (T, b)
        ∧ memberAt store T i o
        ∧ rule (Object_name o) (Object_pkg o))
  ∧ (∀ typ,
      name ≠ "_" →
      (LookupFieldOrMethod IsExported store typ pkg name = Ok (None, None, false) ↔
       ∀ idx T b,
         followPath store (fst (deref typ)) (snd (deref typ)) idx = Some (T, b) →
         (∀ t m, T = NamedT t → m ∈ methods (named store t) →
            ¬ rule (m_name m) (m_pkg m))
         ∧ (∀ fields f, Underlying store T = Struct fields → f ∈ fields →
              ¬ rule (f_name f) (f_pkg f))
         ∧ (∀ ms m, Underlying store T = Interface ms → m ∈ ms →
              ¬ rule (m_name m) (m_pkg m))))
  ∧ (∀ typ,
      name ≠ "_" → IsExported name = false →
      (∀ idx T b,
         followPath store (fst (deref typ)) (snd (deref typ)) idx = Some (T, b) →
         (∀ t m, T = NamedT t → m ∈ methods (named store t) →
            path (m_pkg m) ≠ path pkg)
         ∧ (∀ fields f, Underlying store T = Struct fields → f ∈ fields →
              path (f_pkg f) ≠ path pkg)
         ∧ (∀ ms m, Underlying store T = Interface ms → m ∈ ms →
              path (m_pkg m) ≠ path pkg)) →
      LookupFieldOrMethod IsExported store typ pkg name = Ok (None, None, false)).
Proof.
  assert (Hobj : ∀ typ o idx ind,
      LookupFieldOrMethod IsExported store typ pkg name = Ok (Some o, idx, ind) →
      Object_name o = name
      ∧ (IsExported name = true ∨ path (Object_pkg o) = path pkg)).
  { intros typ o idx ind Hr. apply LookupFieldOrMethodFuel_shaped in Hr.
    destruct Hr as [(o' & idx' & ind' & [= -> _ _] & Hd)|[(idx' & ind' & [=])|[=]]].
    exact Hd. }
  assert (Hnomethod : ∀ typ,
    (∀ t m, asNamed (fst (deref typ)) = Some t → m ∈ methods (named store t) →
       ¬ rule (m_name m) (m_pkg m)) →
    ∀ t, asNamed (fst (deref typ)) = Some t →
      lookupMethodFrom IsExported 0 (methods (named store t)) pkg name = None).
  { intros typ Hno t Ht. apply lookupMethodFrom_no_rule. intros m. by apply Hno. }
  assert (Hiff : ∀ typ, name ≠ "_" →
    (LookupFieldOrMethod IsExported store typ pkg name = Ok (None, None, false) ↔
     ∀ idx T b,
       followPath store (fst (deref typ)) (snd (deref typ)) idx = Some (T, b) →
       (∀ t m, T = NamedT t → m ∈ methods (named store t) →
          ¬ rule (m_name m) (m_pkg m))
       ∧ (∀ fields f, Underlying store T = Struct fields → f ∈ fields →
            ¬ rule (f_name f) (f_pkg f))
       ∧ (∀ ms m, Underlying store T = Interface ms → m ∈ ms →
            ¬ rule (m_name m) (m_pkg m)))).
  { intros typ Hname. split.
    - intros Hr idx T b Hpath. apply typeDeclares_no_rule.
      by apply (not_found_on_no_path IsExported store pkg name Hname typ false Hr idx T b).
    - intros Hnone. apply (no_member_not_found IsExported store pkg name Hname typ).
      intros idx T b Hpath. apply typeDeclares_no_rule. by eapply Hnone. }
  split; [|split; [|split; [|split; [|split; [|split; [|split; [|split;
    [|split; [|split]]]]]]]]].
  - intros f. rewrite isMatch_sameIdent. apply sameIdent_true.
  - intros ms Hname. rewrite lookupMethod_Ok by done. eexists. split; [done|].
    destruct (lookupMethodFrom IsExported 0 ms pkg name) as [[i m]|] eqn:Hm.
    + apply lookupMethodFrom_Some in Hm as (_ & Hi & Hsame & Hfirst).
      rewrite Nat.sub_0_r in *. split; [done|].
      split; [by apply sameIdent_true|].
      intros j m' Hj Hm' Hsame'%sameIdent_true. rewrite (Hfirst j m') in Hsame'; done.
    + intros m Hin Hsame%sameIdent_true.
      rewrite (proj1 (lookupMethodFrom_None _ _ _ _ _) Hm m Hin) in Hsame. done.
  - intros fields i. unfold fieldIndex. case_bool_decide; [done|].
    intros (_ & f & Hi & Hf & Hfirst)%fieldIndexFrom_Some.
    rewrite Nat.sub_0_r in *. exists f. split; [done|].
    rewrite isMatch_sameIdent in Hf. split; [by apply sameIdent_true|].
    intros j f' Hj Hf' Hsame%sameIdent_true.
    rewrite <-isMatch_sameIdent, (Hfirst j f') in Hsame; done.
  - exact Hobj.
  - intros typ o idx ind Hexp Hr. destruct (Hobj _ _ _ _ Hr) as [_ [?|?]]; congruence.
  - intros typ t i m Hname Ht Hi Hm Hfirst.
    apply (lookup_declared_method IsExported store typ t pkg name i m Hname Ht).
    by apply (lookupMethodFrom_first _ 0 i m).
  - intros typ fields i f Hname Hunder Hno Hi Hf Hothers.
    apply (lookup_only_field typ fields i f); try done.
    + by apply Hnomethod.
    + by apply isMatch_rule.
    + intros j f' Hj Hf'. apply isMatch_not_rule. by apply (Hothers j).
  - intros typ ms i m Hname Hunder Hno Hi Hm Hfirst.
    apply (lookup_interface_method typ ms i m); try done.
    + by apply Hnomethod.
    + by apply (lookupMethodFrom_first _ 0 i m).
  - intros typ idx ind Hr.
    destruct (decide (name = "_")) as [->|Hname]; [done|].
    destruct (ambiguous_on_path IsExported store pkg name Hname typ idx ind Hr)
      as (prefix & i & T & b & o & Hidx & Hpath & Hmem & Hden).
    by exists prefix, i, T, b, o.
  - exact Hiff.
  - intros typ Hname Hexp Hother. apply Hiff; [done|].
    intros idx T b Hpath. destruct (Hother idx T b Hpath) as (Hm & Hf & Hi).
    split; [|split].
    + intros t m HT Hin [_ [?|?]]; [congruence|]. by apply (Hm t m).
    + intros fields f HU Hin [_ [?|?]]; [congruence|]. by apply (Hf fields f).
    + intros ms m HU Hin [_ [?|?]]; [congruence|]. by apply (Hi ms m).
Qed.

End MatchLaws.

(** *** Instances *)

Lemma index_leads_to_member_witness :
  ∃ prefix i T,
    Some [0; 0] = Some (prefix ++ [i])
    ∧ followPath storeS (fst (deref (NamedT 1))) (snd (deref (NamedT 1))) prefix
        = Some (T, false)
    ∧ memberAt storeS T i (FuncObj methodM).
Proof.
  apply (index_leads_to_member asciiIsExported storeS (NamedT 1) pkgP "M").
  vm_compute. reflexivity.
Defined.

Lemma ambiguous_index_leads_to_member_witness :
  ∃ prefix i T b o,
    [1; 0] = prefix ++ [i]
    ∧ followPath storeD (fst (deref (NamedT 3))) (snd (deref (NamedT 3))) prefix
        = Some (T, b)
    ∧ memberAt storeD T i o
    ∧ denotes asciiIsExported pkgP "x" o.
Proof.
  apply (ambiguous_index_leads_to_member asciiIsExported storeD (NamedT 3) pkgP "x"
           [1; 0] false).
  vm_compute. reflexivity.
Defined.

Lemma not_found_iff_no_member_witness :
  LookupFieldOrMethod asciiIsExported storeS (NamedT 1) pkgP "Y" = Ok (None, None, false)
  ↔ ∀ idx T b,
      followPath storeS (fst (deref (NamedT 1))) (snd (deref (NamedT 1))) idx
        = Some (T, b) →
      typeDeclares asciiIsExported storeS pkgP "Y" T = false.
Proof.
  apply (not_found_iff_no_member asciiIsExported storeS (NamedT 1) pkgP "Y").
  discriminate.
Defined.

Lemma found_is_shallowest_and_unique_witness :
  length [0; 0] ≤ S (length [0])
  ∧ (S (length [0]) = length [0; 0] →
     ∃ prefix i, [0; 0] = prefix ++ [i]
       ∧ followPath storeS (fst (deref (NamedT 1))) (snd (deref (NamedT 1))) prefix
           = Some (NamedT 2, false)
       ∧ memberAt storeS (NamedT 2) i (FuncObj methodM)).
Proof.
  apply (found_is_shallowest_and_unique asciiIsExported storeS (NamedT 1) pkgP "M"
           (FuncObj methodM) [0; 0] false ltac:(vm_compute; reflexivity)
           [0] (NamedT 2) false); vm_compute; reflexivity.
Defined.

Lemma pointer_selects_same_member_witness :
  ∃ o idx ind ind',
    LookupFieldOrMethod asciiIsExported storeS (NamedT 1) pkgP "M" = Ok (o, idx, ind)
    ∧ LookupFieldOrMethod asciiIsExported storeS (Pointer (NamedT 1)) pkgP "M"
        = Ok (o, idx, ind')
    ∧ (is_Some o → ind' = true).
Proof.
  apply (pointer_selects_same_member asciiIsExported storeS pkgP "M" (NamedT 1)).
  reflexivity.
Defined.

Lemma exported_selector_ignores_package_witness :
  LookupFieldOrMethod asciiIsExported storeS (NamedT 1) pkgP "M"
    = LookupFieldOrMethod asciiIsExported storeS (NamedT 1) pkgQ "M".
Proof.
  apply (exported_selector_ignores_package asciiIsExported storeS "M" pkgP pkgQ).
  reflexivity.
Defined.

Lemma MissingMethod_of_combined_interfaces_witness :
  MissingMethod asciiIsExported sameArity storeN (Pointer (NamedT 1))
    [requiredB; requiredB] = Ok (None, false).
Proof.
  apply (MissingMethod_of_combined_interfaces asciiIsExported sameArity storeN
           (Pointer (NamedT 1)) [requiredB] [] [requiredB; requiredB]).
  - vm_compute. reflexivity.
  - vm_compute. reflexivity.
  - intros m. rewrite !elem_of_cons. tauto.
Defined.

Lemma interface_implements_itself_witness :
  MissingMethod asciiIsExported sameArity storeN (Interface [requiredA; requiredB])
    [requiredA; requiredB] = Ok (None, false).
Proof.
  apply (interface_implements_itself asciiIsExported sameArity storeN
           (Interface [requiredA; requiredB]) [requiredA; requiredB]).
  - reflexivity.
  - apply (bool_decide_unpack _). vm_compute. exact I.
  - repeat constructor; discriminate.
Defined.

Lemma pointer_has_all_declared_methods_witness :
  MissingMethod asciiIsExported sameArity storeN (Pointer (NamedT 1)) [requiredB]
    = Ok (None, false)
  ∧ ((∀ ms, underlying (named storeN 1) ≠ Interface ms) →
     (MissingMethod asciiIsExported sameArity storeN (NamedT 1) [requiredB]
        = Ok (None, false) ↔
      Forall (λ m, ∀ i f,
        lookupMethodFrom asciiIsExported 0 (methods (named storeN 1)) (m_pkg m) (m_name m)
          = Some (i, f) →
        ∀ v, recv (m_typ f) = Some v → snd (deref (var_typ v)) = false) [requiredB])).
Proof.
  apply (pointer_has_all_declared_methods asciiIsExported sameArity storeN 1 [requiredB]).
  apply Forall_singleton. split; [discriminate|].
  exists 0, methodB_N. split; vm_compute; reflexivity.
Defined.

Lemma MissingMethod_blank_method_witness :
  MissingMethod asciiIsExported sameArity storeN (NamedT 1) ([] ++ requiredBlank :: [])
    = match Underlying storeN (NamedT 1) with
      | Interface _ => Panic
      | _ => Ok (Some requiredBlank, false)
      end
  ∧ MissingMethod asciiIsExported sameArity storeN (Interface [requiredA])
      ([] ++ requiredBlank :: [])
    = match Underlying storeN (Interface [requiredA]) with
      | Interface _ => Panic
      | _ => Ok (Some requiredBlank, false)
      end.
Proof.
  split.
  - apply (MissingMethod_blank_method asciiIsExported sameArity storeN (NamedT 1)
             [] [] requiredBlank); [reflexivity|constructor].
  - apply (MissingMethod_blank_method asciiIsExported sameArity storeN
             (Interface [requiredA]) [] [] requiredBlank); [reflexivity|constructor].
Defined.

Example lookup_x_from_another_package :
  LookupFieldOrMethod asciiIsExported storeD (NamedT 1) pkgP "x"
    = Ok (Some (FieldObj fieldx), Some [0], false)
  ∧ LookupFieldOrMethod asciiIsExported storeD (NamedT 1) pkgQ "x"
    = Ok (None, None, false)
  ∧ LookupFieldOrMethod asciiIsExported storeS (NamedT 1) pkgQ "X"
    = Ok (Some (FieldObj fieldX), Some [1], false).
Proof. vm_compute. done. Qed.

Lemma selector_match_rule_witness :
  LookupFieldOrMethod asciiIsExported storeS (NamedT 2) pkgP "M"
    = Ok (Some (FuncObj methodM), Some [0], snd (deref (NamedT 2)))
  ∧ LookupFieldOrMethod asciiIsExported storeS (Pointer (NamedT 1)) pkgQ "X"
    = Ok (Some (FieldObj fieldX), Some [1], snd (deref (Pointer (NamedT 1))))
  ∧ LookupFieldOrMethod asciiIsExported storeN (Interface [requiredA; requiredB]) pkgP "B"
    = Ok (Some (FuncObj requiredB), Some [1],
          snd (deref (Interface [requiredA; requiredB]))).
Proof.
  split; [|split].
  - apply (proj1 (proj2 (proj2 (proj2 (proj2 (proj2
             (selector_match_rule asciiIsExported storeS pkgP "M"))))))
             (NamedT 2) 2%positive 0 methodM).
    + discriminate.
    + reflexivity.
    + reflexivity.
    + split; [reflexivity|left; reflexivity].
    + intros j m' Hj. lia.
  - apply (proj1 (proj2 (proj2 (proj2 (proj2 (proj2 (proj2
             (selector_match_rule asciiIsExported storeS pkgQ "X")))))))
             (Pointer (NamedT 1))
             [mkField "Embedded" pkgP (NamedT 2) true; fieldX] 1 fieldX).
    + discriminate.
    + reflexivity.
    + intros t m [= <-] Hm. vm_compute in Hm. by apply elem_of_nil in Hm.
    + reflexivity.
    + split; [reflexivity|left; reflexivity].
    + intros [|[|j]] f' Hj Hf' [Hn _]; simpl in Hf'; try done.
      injection Hf' as <-. discriminate.
  - apply (proj1 (proj2 (proj2 (proj2 (proj2 (proj2 (proj2 (proj2
             (selector_match_rule asciiIsExported storeN pkgP "B"))))))))
             (Interface [requiredA; requiredB]) [requiredA; requiredB] 1 requiredB).
    + discriminate.
    + reflexivity.
    + intros t m' [=].
    + reflexivity.
    + split; [reflexivity|left; reflexivity].
    + intros [|j] m' Hj Hm' [Hn _]; simpl in Hm'; [|lia].
      injection Hm' as <-. discriminate.
Defined.

End TypesLaws.
